(** * git-operations: validators, policy gates, runner and output governor

    A shallow embedding of the plugin's three TypeScript modules
    ([config.ts], [git.ts], [index.ts]), the properties its specification
    states about them, and further properties of the code.

    Strings are byte strings holding the UTF-8 encoding of the JavaScript
    text.  Every pattern the code searches for ([startsWith], [includes],
    [split], the two regular expressions) is ASCII, and an ASCII byte never
    occurs inside a multi-byte UTF-8 sequence, so these operations agree
    with their UTF-16 originals. *)

From Stdlib Require Import String Ascii ZArith QArith Qround Lia.
From Stdlib Require Import DecimalString DecimalPos DecimalZ.
From stdpp Require Import base option list gmap strings.

Local Open Scope string_scope.
Local Open Scope Z_scope.

(** ** JavaScript string primitives *)

(** [String.prototype.startsWith]. *)
Fixpoint startsWith (s p : string) {struct p} : bool :=
  match p, s with
  | EmptyString, _ => true
  | String _ _, EmptyString => false
  | String a p', String b s' => Ascii.eqb a b && startsWith s' p'
  end.

(** [String.prototype.includes]: [p] occurs somewhere in [s]. *)
Fixpoint includes (s p : string) : bool :=
  startsWith s p ||
  match s with
  | EmptyString => false
  | String _ s' => includes s' p
  end.

(** [String.prototype.endsWith]. *)
Fixpoint endsWith (s p : string) : bool :=
  String.eqb s p ||
  match s with
  | EmptyString => false
  | String _ s' => endsWith s' p
  end.

(** A one-character string. *)
Definition chr (n : nat) : string := String (ascii_of_nat n) EmptyString.

Definition LF : ascii := ascii_of_nat 10.
Definition CR : ascii := ascii_of_nat 13.

(** [s.split("\n")]: the pieces between line feeds; never empty. *)
Fixpoint split_lines (s : string) : list string :=
  match s with
  | EmptyString => [EmptyString]
  | String c s' =>
      if Ascii.eqb c LF then EmptyString :: split_lines s'
      else match split_lines s' with
           | [] => [String c EmptyString]
           | l :: ls => String c l :: ls
           end
  end.

(** [lines.join("\n")]. *)
Definition join_lines (ls : list string) : string :=
  String.concat (String LF EmptyString) ls.

(** [Array.prototype.slice(0, e)] for an integer [e]: a negative end counts
    from the back of the array. *)
Definition slice0 {A} (l : list A) (e : Z) : list A :=
  if e <? 0 then take (Z.to_nat (Z.max (Z.of_nat (length l) + e) 0)) l
  else take (Z.to_nat e) l.


(** Number-to-string conversion of an integer, as a template literal does
    it.  JavaScript prints the exact decimal digits of an integer up to
    [MAX_SAFE_INTEGER]; the model is used inside that range. *)
Definition Number_toString (n : Z) : string :=
  NilZero.string_of_int (Z.to_int n).

(** Truthiness of an optional string: [undefined], [null] and the empty
    string are falsy. *)
Definition truthy (o : option string) : bool :=
  match o with
  | Some s => negb (String.eqb s EmptyString)
  | None => false
  end.

(** [a || b] on strings. *)
Definition or_else (a b : string) : string :=
  if String.eqb a EmptyString then b else a.

(** White space as [String.prototype.trim] strips it: the ASCII blanks and
    line terminators, and the UTF-8 encodings of U+00A0, U+1680,
    U+2000..U+200A, U+2028, U+2029, U+202F, U+205F, U+3000 and U+FEFF. *)
Definition utf8 (bs : list nat) : string :=
  fold_right (fun b s => String (ascii_of_nat b) s) EmptyString bs.

Definition WHITE_SPACE : list string :=
  (map chr [9; 10; 11; 12; 13; 32]%nat ++
   [utf8 [194; 160]; utf8 [225; 154; 128]]%nat ++
   map (fun b => utf8 [226; 128; b]%nat) (seq 128 11) ++
   map utf8 [[226; 128; 168]; [226; 128; 169]; [226; 128; 175];
             [226; 129; 159]; [227; 128; 128]; [239; 187; 191]]%nat)%list.

Definition drop_prefix (p s : string) : option string :=
  if startsWith s p
  then Some (String.substring (String.length p)
               (String.length s - String.length p)%nat s)
  else None.

Definition strip_one (s : string) : option string :=
  list_find (fun r : option string => is_Some r)
            (map (fun p => drop_prefix p s) WHITE_SPACE)
  ≫= snd.

Fixpoint trimStart_fuel (fuel : nat) (s : string) : string :=
  match fuel with
  | O => s
  | S k => match strip_one s with
           | Some s' => trimStart_fuel k s'
           | None => s
           end
  end.

Definition trimStart (s : string) : string := trimStart_fuel (String.length s) s.

Definition rev_string (s : string) : string :=
  string_of_list_ascii (rev (list_ascii_of_string s)).

Definition strip_one_end (s : string) : option string :=
  list_find (fun r : option string => is_Some r)
            (map (fun p => drop_prefix (rev_string p) s) WHITE_SPACE)
  ≫= snd.

Fixpoint trimEnd_fuel (fuel : nat) (s : string) : string :=
  match fuel with
  | O => s
  | S k => match strip_one_end s with
           | Some s' => trimEnd_fuel k s'
           | None => s
           end
  end.

(** [String.prototype.trim]. *)
Definition trim (s : string) : string :=
  let t := trimStart s in
  rev_string (trimEnd_fuel (String.length t) (rev_string t)).

(** ** config.ts

    [resolveConfig] turns the raw plugin configuration into a
    [GitOpsConfig], once, at registration; the tools below read the resolved
    record and never write it.  With no raw configuration it is
    [DEFAULTS]. *)

Record GitOpsConfig := {
  allowForcePush : bool;
  allowMainCommit : bool;
  defaultRemote : string;
  commitPrefix : string;
  protectedBranches : list string
}.

Definition DEFAULTS : GitOpsConfig := {|
  allowForcePush := false;
  allowMainCommit := false;
  defaultRemote := "origin";
  commitPrefix := "";
  protectedBranches := ["main"; "master"]
|}.

(** *** The raw configuration

    [resolveConfig] receives [api.pluginConfig], an object of unknown
    values or [undefined].  Values are modelled as far as the function
    looks at them: by [Boolean(...)], by [?? default] and by
    [Array.isArray].  An array holds its elements as far as the cast
    [as string[]] cares: a string, or [None] for anything else. *)

Inductive JsNumber := NaN | Infinity (negative : bool) | Finite (q : Q).

Inductive JsValue :=
| JsUndefined
| JsNull
| JsBool (b : bool)
| JsNum (n : JsNumber)
| JsString (s : string)
| JsArray (items : list (option string))
| JsObject.

(** [Boolean(v)] *)
Definition Boolean (v : JsValue) : bool :=
  match v with
  | JsUndefined | JsNull => false
  | JsBool b => b
  | JsNum NaN => false
  | JsNum (Infinity _) => true
  | JsNum (Finite q) => negb (Qeq_bool q 0)
  | JsString s => negb (String.eqb s "")
  | JsArray _ | JsObject => true
  end.

(** [raw.key]: a missing property reads as [undefined]. *)
Definition prop (raw : gmap string JsValue) (key : string) : JsValue :=
  default JsUndefined (raw !! key).

(** The casts [as string] and [as string[]] check nothing at run time.  A
    value that is no string cannot stand in a [GitOpsConfig] field as this
    development types it; [asString] and [asStrings] answer [None] for
    it. *)
Definition asString (v : JsValue) : option string :=
  match v with
  | JsString s => Some s
  | _ => None
  end.

Definition asStrings (items : list (option string)) : option (list string) :=
  mapM id items.

(** [(v as string) ?? d] *)
Definition string_or (v : JsValue) (d : string) : option string :=
  match v with
  | JsUndefined | JsNull => Some d
  | _ => asString v
  end.

(** [v !== undefined ? Boolean(v) : d] *)
Definition flag_or (v : JsValue) (d : bool) : bool :=
  match v with
  | JsUndefined => d
  | _ => Boolean v
  end.

(** [resolveConfig(raw)]; [raw = None] is the call with [undefined].  The
    answer is [None] exactly when a cast is violated, that is when the
    JavaScript object holds a non-string where a string is declared. *)
Definition resolveConfig (raw : option (gmap string JsValue)) : option GitOpsConfig :=
  match raw with
  | None => Some DEFAULTS
  | Some raw =>
      remote ← string_or (prop raw "defaultRemote") (defaultRemote DEFAULTS) ;
      prefix ← string_or (prop raw "commitPrefix") (commitPrefix DEFAULTS) ;
      branches ← match prop raw "protectedBranches" with
                 | JsArray items => asStrings items
                 | _ => Some (protectedBranches DEFAULTS)
                 end ;
      Some {| allowForcePush :=
                flag_or (prop raw "allowForcePush") (allowForcePush DEFAULTS);
              allowMainCommit :=
                flag_or (prop raw "allowMainCommit") (allowMainCommit DEFAULTS);
              defaultRemote := remote;
              commitPrefix := prefix;
              protectedBranches := branches |}
  end.

(** ** git.ts: validation *)

(** The character class of [BRANCH_RE = /^[a-zA-Z0-9._\/-]+$/]. *)
Definition branch_char (c : ascii) : bool :=
  let n := nat_of_ascii c in
  ((97 <=? n) && (n <=? 122) || (65 <=? n) && (n <=? 90) ||
   (48 <=? n) && (n <=? 57) ||
   bool_decide (n ∈ [46; 95; 47; 45]%nat))%nat.

(** [BRANCH_RE.test]: one or more characters, all of the class. *)
Definition BRANCH_RE_test (s : string) : bool :=
  negb (String.eqb s "") && forallb branch_char (list_ascii_of_string s).

(** The character class of [SHELL_META]:
    ; & | ` $ ( ) { } ! # ~ < > * ? [ ] \n \r \ ' and the double quote. *)
Definition shell_meta_char (c : ascii) : bool :=
  bool_decide (c ∈ (list_ascii_of_string ";&|`$(){}!#~<>*?[]\'" ++
                    [LF; CR; ascii_of_nat 34])%list).

(** [SHELL_META.test]: some character of the class occurs. *)
Definition SHELL_META_test (s : string) : bool :=
  existsb shell_meta_char (list_ascii_of_string s).

Definition MAX_DIFF_LINES : Z := 500.
Definition MAX_LOG_ENTRIES : Z := 200.

(** A validator answers [None] (JavaScript [null]) to accept and
    [Some reason] to reject. *)
Definition validateBranchName (name : string) : option string :=
  if String.eqb name "" then Some "branch name cannot be empty"
  else if startsWith name "-"
  then Some "branch name cannot start with a dash (looks like a flag)"
  else if startsWith name "." || endsWith name "." || endsWith name ".lock"
  then Some "invalid branch name"
  else if includes name ".." || includes name "@{" || includes name "~" ||
          includes name "^" || includes name " "
  then Some "branch name contains invalid characters"
  else if negb (BRANCH_RE_test name)
  then Some "branch name contains invalid characters — only a-z, 0-9, '.', '_', '/', '-' allowed"
  else None.

(** The source tests [SHELL_META] against the path between the two checks
    below, but the guarded block is empty: the test rejects nothing. *)
Definition validateFilePath (p : string) : option string :=
  if String.eqb p "" then Some "file path cannot be empty"
  else if startsWith p "-" then Some "file path cannot start with a dash"
  else None.

Definition validateRef (ref : string) : option string :=
  if String.eqb ref "" then Some "ref cannot be empty"
  else if startsWith ref "-" then Some "ref cannot start with a dash"
  else if SHELL_META_test ref then Some "ref contains invalid characters"
  else None.

(** The three validators below are imported by [index.ts] from [git.js],
    but the sources hold no definition of them.  The tools further down take
    them as parameters; this module models them from the specification. *)
Module Spec.

(** Modelled from the spec: [validateRemoteName] is imported from [git.js]
    but its definition is not in the sources.  The spec gives it the
    (same dash/metacharacter discipline as refs). *)
Definition validateRemoteName (remote : string) : option string :=
  if startsWith remote "-" then Some "remote name cannot start with a dash"
  else if SHELL_META_test remote then Some "remote name contains invalid characters"
  else None.

(** Modelled from the spec: [validateLogFilter] is imported from [git.js]
    but its definition is not in the sources.  The spec: applied to the
    free-text log filters author, since and grep, it (rejects dash-prefixed
    values and shell metacharacters). *)
Definition validateLogFilter (value fieldName : string) : option string :=
  if startsWith value "-" then Some (fieldName +:+ " cannot start with a dash")
  else if SHELL_META_test value then Some (fieldName +:+ " contains invalid characters")
  else None.

(** Modelled from the spec: [validateLabel] is imported from [git.js] but
    its definition is not in the sources.  The spec: it (rejects
    dash-prefixed and metacharacter-laden values), and since labels are
    joined with commas a comma-bearing label is refused as well. *)
Definition validateLabel (label : string) : option string :=
  if startsWith label "-" then Some "label cannot start with a dash"
  else if SHELL_META_test label || includes label ","
  then Some "label contains invalid characters"
  else None.

End Spec.

(** ** git.ts: the output governor *)

Definition truncateOutput (text : string) (maxLines : Z) (label : string) : string :=
  let lines := split_lines text in
  if Z.of_nat (length lines) <=? maxLines then text
  else
    let kept := slice0 lines maxLines in
    let dropped := Z.of_nat (length lines) - maxLines in
    join_lines (kept ++ [String LF "... truncated (" +:+ Number_toString dropped +:+
                         " more lines of " +:+ label +:+ ")"])%list.

(** The default label of [truncateOutput]. *)
Definition truncateOutput_default (text : string) (maxLines : Z) : string :=
  truncateOutput text maxLines "output".

Definition isBinaryDiff (text : string) : bool :=
  includes text "Binary files" && includes text "differ".

Definition filterBinaryDiffs (text : string) : string :=
  join_lines
    (map (fun line =>
            if startsWith line "Binary files" && includes line "differ"
            then line +:+ " [binary — skipped]"
            else line)
         (split_lines text)).

(** ** The host: child processes, the temporary directory, effects *)

Record GitResult := { stdout : string; stderr : string; exitCode : Z }.

(** One call of [execFile(prog, argv, options, callback)]. *)
Record Spawn := {
  prog : string;
  argv : list string;
  opt_cwd : option string;
  opt_timeout : Z;
  opt_maxBuffer : option Z
}.

(** The error handed to the callback.  [code] is [None] when the error
    object has no [code] property.  A [code] that is not a number (a signal
    kill leaves [null], a failed start a string) stands here as some
    non-zero integer: the tools only compare the exit code with 0. *)
Record ExecError := { code : option Z }.

Record Callback := {
  cb_err : option ExecError;
  cb_stdout : option string;
  cb_stderr : option string
}.

(** [execFile] either runs the child and calls back, or throws at once
    (malformed arguments). *)
Inductive Outcome := Called (c : Callback) | Threw (msg : string).

(** [writeFileSync] either writes the file or throws, possibly leaving a
    partial file behind. *)
Inductive WriteOutcome := WriteDone | WriteThrew (residue : option string) (msg : string).

(** [unlinkSync] of an existing file either removes it or throws (no
    permission, a busy file, a read-only file system) and leaves it. *)
Inductive UnlinkOutcome := UnlinkDone | UnlinkThrew (msg : string).

(** The observable steps of a tool: a call of [execFile] (the only way a
    tool creates a process), of [writeFileSync], and a successful
    [unlinkSync]. *)
Inductive Effect :=
| Exec (s : Spawn)
| WroteFile (path content : string)
| Unlinked (path : string).

(** What a tool can change and be observed to have done: the effects in
    order, and the files of the temporary directory. *)
Record World := { log : list Effect; files : gmap string string }.

(** What the tools do not control. *)
Record Host := {
  execFile : World -> Spawn -> Outcome;
  writeFile : World -> string -> string -> WriteOutcome;
  unlink : World -> string -> UnlinkOutcome;
  randomUUID : World -> string;
  tmpdir : string
}.

Definition logged (e : Effect) (w : World) : World :=
  {| log := (log w ++ [e])%list; files := files w |}.

(** *** A state and exception monad *)

Inductive Res (A : Type) := Val (a : A) | Exn (msg : string).
Arguments Val {A} a.
Arguments Exn {A} msg.

Definition M (A : Type) : Type := World -> Res A * World.

Definition ret {A} (a : A) : M A := fun w => (Val a, w).

Definition throw {A} (msg : string) : M A := fun w => (Exn msg, w).

Definition bind {A B} (m : M A) (k : A -> M B) : M B :=
  fun w => match m w with
           | (Val a, w') => k a w'
           | (Exn e, w') => (Exn e, w')
           end.

Notation "x <- m ;; k" := (bind m (fun x => k))
  (at level 100, m at next level, right associativity).

(** [try { m } catch (e) { h(e.message) }] *)
Definition try_catch {A} (m : M A) (h : string -> M A) : M A :=
  fun w => match m w with
           | (Exn e, w') => h e w'
           | r => r
           end.

(** [try { m } finally { fin }] *)
Definition try_finally {A} (m : M A) (fin : M unit) : M A :=
  fun w => let '(r, w1) := m w in
           match fin w1 with
           | (Val _, w2) => (r, w2)
           | (Exn e, w2) => (Exn e, w2)
           end.

Definition spawn (h : Host) (s : Spawn) : M Callback :=
  fun w => match execFile h w s with
           | Called c => (Val c, logged (Exec s) w)
           | Threw e => (Exn e, logged (Exec s) w)
           end.

Definition writeFileSync (h : Host) (path content : string) : M unit :=
  fun w =>
    let w1 := logged (WroteFile path content) w in
    match writeFile h w path content with
    | WriteDone =>
        (Val tt, {| log := log w1; files := <[path := content]> (files w1) |})
    | WriteThrew residue msg =>
        (Exn msg,
         {| log := log w1;
            files := match residue with
                     | Some c => <[path := c]> (files w1)
                     | None => files w1
                     end |})
    end.

(** [unlinkSync] throws on a missing file; an existing file it removes, or
    it throws and the file stays. *)
Definition unlinkSync (h : Host) (path : string) : M unit :=
  fun w => match files w !! path with
           | Some _ =>
               match unlink h w path with
               | UnlinkDone =>
                   (Val tt, {| log := (log w ++ [Unlinked path])%list;
                               files := delete path (files w) |})
               | UnlinkThrew msg => (Exn msg, w)
               end
           | None =>
               (Exn ("ENOENT: no such file or directory, unlink '" +:+ path +:+ "'"), w)
           end.

Definition newUUID (h : Host) : M string := fun w => (Val (randomUUID h w), w).

(** [path.join(dir, name)] for a directory without a trailing separator and
    a plain file name. *)
Definition join (dir name : string) : string := dir +:+ "/" +:+ name.

(** ** git.ts: the runner *)

Definition ALLOWED_SUBCOMMANDS : gset string :=
  list_to_set
    ["status"; "diff"; "log"; "branch"; "add"; "commit"; "push"; "pull";
     "stash"; "blame"; "rev-parse"; "symbolic-ref"; "remote"; "checkout";
     "switch"; "fetch"; "merge"; "rebase"; "tag"; "show"; "config"].

(** [`${x}`] for a string that may be [undefined]. *)
Definition template (o : option string) : string := default "undefined" o.

(** The exit code as both runners read it off the callback. *)
Definition exitCodeOf (c : Callback) : Z :=
  match cb_err c with
  | Some e => match code e with Some n => n | None => 1 end
  | None => 0
  end.

Definition resultOf (c : Callback) : GitResult :=
  {| stdout := default "" (cb_stdout c);
     stderr := default "" (cb_stderr c);
     exitCode := exitCodeOf c |}.

Definition runGit (h : Host) (args : list string) (cwd : string) (timeoutMs : Z)
  : M GitResult :=
  let subcommand := head args in
  if negb (truthy subcommand) ||
     negb (bool_decide (default "" subcommand ∈ ALLOWED_SUBCOMMANDS))
  then ret {| stdout := "";
              stderr := "blocked: git subcommand '" +:+ template subcommand +:+
                        "' is not allowed";
              exitCode := 1 |}
  else
    c <- spawn h {| prog := "git"; argv := args; opt_cwd := Some cwd;
                    opt_timeout := timeoutMs;
                    opt_maxBuffer := Some (10 * 1024 * 1024) |} ;;
    ret (resultOf c).

(** [runGit(args, cwd)] with the default timeout. *)
Definition git (h : Host) (args : list string) (cwd : string) : M GitResult :=
  runGit h args cwd 30000.

Definition isGitRepo (h : Host) (cwd : string) : M bool :=
  result <- git h ["rev-parse"; "--is-inside-work-tree"] cwd ;;
  ret ((exitCode result =? 0) && String.eqb (trim (stdout result)) "true").

Definition getCurrentBranch (h : Host) (cwd : string) : M (option string) :=
  result <- git h ["symbolic-ref"; "--short"; "HEAD"] cwd ;;
  if exitCode result =? 0 then ret (Some (trim (stdout result)))
  else
    rev <- git h ["rev-parse"; "--short"; "HEAD"] cwd ;;
    if exitCode rev =? 0
    then ret (Some ("(detached at " +:+ trim (stdout rev) +:+ ")"))
    else ret None.

(** ** index.ts: the tools *)

(** [{ content: [{ type: "text", text: s }], details: {} }] *)
Record Content := { ctype : string; ctext : string }.
Record ToolResult := { content : list Content }.

Definition text (s : string) : ToolResult :=
  {| content := [ {| ctype := "text"; ctext := s |} ] |}.

Definition err (s : string) : ToolResult := text ("error: " +:+ s).

(** [if (v) return err(v)]: a validator's answer stops the tool when it is
    truthy, that is a non-empty reason. *)
Definition rejected (v : option string) : option string :=
  if truthy v then v else None.

(** The first path of a [for (const p of paths)] loop that
    [validateFilePath] refuses, with the reason. *)
Fixpoint first_bad_path (paths : list string) : option (string * string) :=
  match paths with
  | [] => None
  | p :: rest =>
      match rejected (validateFilePath p) with
      | Some v => Some (p, v)
      | None => first_bad_path rest
      end
  end.

(** [branch.replace(/^\(detached.*\)$/, "")]: the dot matches anything but
    the line terminators LF, CR, U+2028 and U+2029. *)
Definition detached_re_test (s : string) : bool :=
  match drop_prefix "(detached" s with
  | Some rest =>
      endsWith rest ")" &&
      negb (includes rest (chr 10)) && negb (includes rest (chr 13)) &&
      negb (includes rest (utf8 [226; 128; 168]%nat)) &&
      negb (includes rest (utf8 [226; 128; 169]%nat))
  | None => false
  end.

Definition strip_detached (branch : string) : string :=
  if detached_re_test branch then "" else branch.

(** ** JavaScript numbers

    A number is a double: NaN, an infinity, or a finite value, given here
    as the rational it is.  [Math.floor] of it is NaN, an infinity or an
    integer. *)

Inductive JsInteger := IntNaN | IntInfinity (negative : bool) | Int (z : Z).

(** [Math.floor(x)] *)
Definition Math_floor (x : JsNumber) : JsInteger :=
  match x with
  | NaN => IntNaN
  | Infinity negative => IntInfinity negative
  | Finite q => Int (Qfloor q)
  end.

(** [Math.max(0, x)]: NaN when [x] is NaN. *)
Definition Math_max0 (x : JsInteger) : JsInteger :=
  match x with
  | IntNaN => IntNaN
  | IntInfinity true => Int 0
  | IntInfinity false => IntInfinity false
  | Int z => Int (Z.max 0 z)
  end.

(** The double nearest to a positive integer, ties to the even mantissa of
    53 bits. *)
Definition to_double (x : Z) : Z :=
  let e := Z.log2 x - 52 in
  if e <=? 0 then x
  else
    let q := Z.shiftr x e in
    let r := x - Z.shiftl q e in
    let half := Z.shiftl 1 (e - 1) in
    Z.shiftl (if (half <? r) || ((r =? half) && Z.odd q) then q + 1 else q) e.

Definition decimal_length (v : Z) : Z :=
  Z.of_nat (String.length (Number_toString v)).

(** Number-to-string conversion looks for the fewest digits [k] with a
    significand [s] of [k] digits and an [n] such that [s * 10^(n - k)]
    converts to the number [v].  [significands v k n] are the two multiples
    of [10^(n - k)] around [v] that do, each with its [n]. *)
Definition significands (v k n : Z) : list (Z * Z) :=
  let scale := 10 ^ (n - k) in
  List.filter (fun sn : Z * Z =>
                 (10 ^ (k - 1) <=? sn.1) && (sn.1 <? 10 ^ k) &&
                 (to_double (sn.1 * scale) =? v))
              [(v / scale, n); (v / scale + 1, n)].

Definition candidates (v k : Z) : list (Z * Z) :=
  let d := decimal_length v in
  if k <=? d then (significands v k d ++ significands v k (d + 1))%list else [].

(** Of two candidates the one whose value is closer to [v]; of two equally
    close ones the even significand. *)
Definition closer (v k : Z) (a b : Z * Z) : Z * Z :=
  let da := Z.abs (a.1 * 10 ^ (a.2 - k) - v) in
  let db := Z.abs (b.1 * 10 ^ (b.2 - k) - v) in
  if da <? db then a
  else if db <? da then b
  else if Z.even a.1 then a else b.

Definition closest (v k : Z) (cs : list (Z * Z)) : option (Z * Z) :=
  match cs with
  | [] => None
  | c :: rest => Some (fold_left (closer v k) rest c)
  end.

(** The shortest significand, trying [k], [k + 1], ...; 17 digits always
    suffice for a double. *)
Fixpoint shortest_from (fuel : nat) (v k : Z) : option (Z * Z) :=
  match fuel with
  | O => None
  | S fuel' =>
      match closest v k (candidates v k) with
      | Some c => Some c
      | None => shortest_from fuel' v (k + 1)
      end
  end.

Fixpoint zeros (n : nat) : string :=
  match n with
  | O => ""
  | S m => String "0" (zeros m)
  end.

(** Number-to-string conversion of a positive integer that is a double: the
    exact digits up to 2^53, beyond it the shortest significand followed by
    zeros, and from 10^21 on exponent notation.  (For an integer beyond
    2^53 that is no double, which no JavaScript number is, there may be no
    significand; the digits stand in.) *)
Definition integer_toString (v : Z) : string :=
  if v <=? 2 ^ 53 then Number_toString v
  else
    match shortest_from 17 v 1 with
    | None => Number_toString v
    | Some (s, n) =>
        let digits := Number_toString s in
        if n <=? 21 then digits +:+ zeros (Z.to_nat (n - decimal_length s))
        else
          match digits with
          | String c "" => String c ("e+" +:+ Number_toString (n - 1))
          | String c rest =>
              String c ("." +:+ rest +:+ "e+" +:+ Number_toString (n - 1))
          | "" => ""
          end
    end.

(** [`${x}`] for what [Math.max(0, Math.floor(...))] returns. *)
Definition Number_toString_js (x : JsInteger) : string :=
  match x with
  | IntNaN => "NaN"
  | IntInfinity false => "Infinity"
  | IntInfinity true => "-Infinity"
  | Int z => if z <? 0 then "-" +:+ integer_toString (- z) else integer_toString z
  end.

Record BranchParams := {
  br_action : option string;
  br_name : option string;
  br_startPoint : option string;
  br_all : bool
}.

Record CommitParams := {
  ci_message : string;
  ci_files : option (list string);
  ci_all : bool
}.

Record PushParams := {
  pu_remote : option string;
  pu_branch : option string;
  pu_force : bool;
  pu_setUpstream : bool;
  pu_dryRun : bool
}.

(** [index] is a JavaScript number. *)
Record StashParams := {
  st_action : option string;
  st_message : option string;
  st_index : option JsNumber
}.

Record PrParams := {
  pr_title : string;
  pr_body : option string;
  pr_base : option string;
  pr_draft : bool;
  pr_labels : option (list string)
}.

Section Tools.

(** The host, the configuration resolved at registration, and the two
    validators of [git.js] whose text is missing. *)
Variable h : Host.
Variable cfg : GitOpsConfig.
Variable validateRemoteName : string -> option string.
Variable validateLabel : string -> option string.

Definition requireRepo (cwd : string) : M unit :=
  ok <- isGitRepo h cwd ;;
  if ok then ret tt
  else throw "not a git repository (or any parent up to mount point)".

(** [try { await requireRepo(cwd); } catch (e) { return err(e.message); }]:
    the error to return, if any. *)
Definition repoGuard (cwd : string) : M (option ToolResult) :=
  try_catch (_ <- requireRepo cwd ;; ret None) (fun e => ret (Some (err e))).

Definition isProtected (branch : string) : bool :=
  bool_decide (branch ∈ protectedBranches cfg).

Definition git_branch (cwd : string) (params : BranchParams) : M ToolResult :=
  g <- repoGuard cwd ;;
  match g with
  | Some e => ret e
  | None =>
  let action := default "list" (br_action params) in
  if String.eqb action "list" then
    let args := (["branch"; "-v"] ++ if br_all params then ["-a"] else [])%list in
    result <- git h args cwd ;;
    if negb (exitCode result =? 0) then ret (err (stderr result))
    else ret (text (or_else (stdout result) "no branches"))
  else if negb (truthy (br_name params))
  then ret (err ("branch name required for '" +:+ action +:+ "'"))
  else
  let name := default "" (br_name params) in
  match rejected (validateBranchName name) with
  | Some nameErr => ret (err nameErr)
  | None =>
  if String.eqb action "create" then
    match (if truthy (br_startPoint params)
           then rejected (validateRef (default "" (br_startPoint params)))
           else None) with
    | Some v => ret (err v)
    | None =>
        let args := (["branch"; name] ++
                     if truthy (br_startPoint params)
                     then [default "" (br_startPoint params)] else [])%list in
        result <- git h args cwd ;;
        if negb (exitCode result =? 0) then ret (err (stderr result))
        else ret (text ("created branch '" +:+ name +:+ "'"))
    end
  else if String.eqb action "switch" then
    result <- git h ["switch"; name] cwd ;;
    if negb (exitCode result =? 0) then ret (err (stderr result))
    else ret (text ("switched to '" +:+ name +:+ "'"))
  else if String.eqb action "delete" then
    if isProtected name
    then ret (err ("cannot delete protected branch '" +:+ name +:+ "'"))
    else
      result <- git h ["branch"; "-d"; name] cwd ;;
      if negb (exitCode result =? 0) then ret (err (stderr result))
      else ret (text ("deleted branch '" +:+ name +:+ "'"))
  else ret (err ("unknown action '" +:+ action +:+ "'"))
  end
  end.

(** The payload file of [git_commit]: written, used and unlinked inside one
    [try]/[finally]. *)
Definition commit_with_file (cwd msgFile message : string) (all : bool)
  : M ToolResult :=
  try_finally
    (_ <- writeFileSync h msgFile message ;;
     let args := if all then ["commit"; "-a"; "--file"; msgFile]
                 else ["commit"; "--file"; msgFile] in
     result <- git h args cwd ;;
     if negb (exitCode result =? 0)
     then ret (err (or_else (stderr result) (stdout result)))
     else ret (text (stdout result)))
    (try_catch (unlinkSync h msgFile) (fun _ => ret tt)).

(** [git_commit] past the protected-branch gate: stage, then commit. *)
Definition stage_and_commit (cwd : string) (params : CommitParams) : M ToolResult :=
  staged <-
    match ci_files params with
    | Some (f :: fs) =>
        match first_bad_path (f :: fs) with
        | Some (p, v) => ret (Some (err ("invalid path '" +:+ p +:+ "': " +:+ v)))
        | None =>
            addResult <- git h ("add" :: "--" :: f :: fs) cwd ;;
            if negb (exitCode addResult =? 0)
            then ret (Some (err ("staging failed: " +:+ stderr addResult)))
            else ret None
        end
    | _ => ret None
    end ;;
  match staged with
  | Some e => ret e
  | None =>
  let message := if truthy (Some (commitPrefix cfg))
                 then commitPrefix cfg +:+ ci_message params
                 else ci_message params in
  uuid <- newUUID h ;;
  let msgFile := join (tmpdir h) ("openclaw-git-msg-" +:+ uuid +:+ ".txt") in
  commit_with_file cwd msgFile message (ci_all params)
  end.

(** The main-commit gate. *)
Definition mainCommitDenied (branch : option string) : bool :=
  truthy branch && negb (allowMainCommit cfg) && isProtected (default "" branch).

Definition git_commit (cwd : string) (params : CommitParams) : M ToolResult :=
  g <- repoGuard cwd ;;
  match g with
  | Some e => ret e
  | None =>
  branch <- getCurrentBranch h cwd ;;
  if mainCommitDenied branch
  then ret (err ("direct commits to '" +:+ default "" branch +:+
                 "' are blocked. set allowMainCommit: true in config to override."))
  else stage_and_commit cwd params
  end.

(** [(params.branch as string) ?? (await getCurrentBranch(cwd))] *)
Definition pushBranch (cwd : string) (params : PushParams) : M (option string) :=
  match pu_branch params with
  | Some b => ret (Some b)
  | None => getCurrentBranch h cwd
  end.

(** The branch-name check of [git_push]: a name that starts with
    [(detached] is let through whatever the validator says. *)
Definition pushBranchError (branch : option string) : option string :=
  if truthy branch
  then match rejected (validateBranchName (strip_detached (default "" branch))) with
       | Some nameErr =>
           if negb (startsWith (default "" branch) "(detached")
           then Some nameErr else None
       | None => None
       end
  else None.

(** The two gates of a forced push. *)
Definition forcePushDenied (branch : option string) : option ToolResult :=
  if negb (allowForcePush cfg)
  then Some (err "force push is disabled. set allowForcePush: true in config to enable.")
  else if truthy branch && isProtected (default "" branch)
  then Some (err ("force push to protected branch '" +:+
                  default "" branch +:+ "' is always blocked."))
  else None.

Definition pushArgs (remote : string) (branch : option string) (params : PushParams)
  : list string :=
  (["push"] ++
   (if pu_force params then ["--force-with-lease"] else []) ++
   (if pu_setUpstream params then ["-u"] else []) ++
   (if pu_dryRun params then ["--dry-run"] else []) ++
   [remote] ++
   (if truthy branch && negb (startsWith (default "" branch) "(detached")
    then [default "" branch] else []))%list.

Definition git_push (cwd : string) (params : PushParams) : M ToolResult :=
  g <- repoGuard cwd ;;
  match g with
  | Some e => ret e
  | None =>
  let remote := default (defaultRemote cfg) (pu_remote params) in
  match rejected (validateRemoteName remote) with
  | Some remoteErr => ret (err remoteErr)
  | None =>
  branch <- pushBranch cwd params ;;
  let force := pu_force params in
  match pushBranchError branch with
  | Some nameErr => ret (err nameErr)
  | None =>
  match (if force then forcePushDenied branch else None) with
  | Some denied => ret denied
  | None =>
  let args := pushArgs remote branch params in
  result <- git h args cwd ;;
  if negb (exitCode result =? 0) then ret (err (stderr result))
  else ret (text (or_else (stderr result)
                    (or_else (stdout result) "pushed successfully")))
  end
  end
  end
  end.

Definition git_stash (cwd : string) (params : StashParams) : M ToolResult :=
  g <- repoGuard cwd ;;
  match g with
  | Some e => ret e
  | None =>
  let action := default "push" (st_action params) in
  let rawIdx := default (Finite 0) (st_index params) in
  let idx := Math_max0 (Math_floor rawIdx) in
  if String.eqb action "list" then
    result <- git h ["stash"; "list"] cwd ;;
    if negb (exitCode result =? 0) then ret (err (stderr result))
    else ret (text (or_else (stdout result) "no stashes"))
  else if String.eqb action "push" then
    let args := (["stash"; "push"] ++
                 if truthy (st_message params)
                 then ["-m"; default "" (st_message params)] else [])%list in
    result <- git h args cwd ;;
    if negb (exitCode result =? 0) then ret (err (stderr result))
    else ret (text (or_else (stdout result) "stashed"))
  else if String.eqb action "pop" then
    result <- git h ["stash"; "pop"; "stash@{" +:+ Number_toString_js idx +:+ "}"] cwd ;;
    if negb (exitCode result =? 0) then ret (err (stderr result))
    else ret (text (or_else (stdout result) "popped stash"))
  else if String.eqb action "drop" then
    result <- git h ["stash"; "drop"; "stash@{" +:+ Number_toString_js idx +:+ "}"] cwd ;;
    if negb (exitCode result =? 0) then ret (err (stderr result))
    else ret (text (or_else (stdout result) "dropped stash"))
  else if String.eqb action "show" then
    result <- git h ["stash"; "show"; "-p"; "stash@{" +:+ Number_toString_js idx +:+ "}"] cwd ;;
    if negb (exitCode result =? 0) then ret (err (stderr result))
    else ret (text (truncateOutput (filterBinaryDiffs (stdout result))
                      MAX_DIFF_LINES "stash diff"))
  else ret (err ("unknown stash action '" +:+ action +:+ "'"))
  end.

(** The first label of the loop over [labels] that [validateLabel]
    refuses. *)
Fixpoint first_bad_label (labels : list string) : option string :=
  match labels with
  | [] => None
  | l :: rest =>
      match rejected (validateLabel l) with
      | Some lv => Some lv
      | None => first_bad_label rest
      end
  end.

(** The payload file of [git_pr]: the body is written, [gh] is run and the
    file unlinked inside one [try]/[finally]; the base ref is validated
    after the file exists. *)
Definition pr_with_file (cwd bodyFile body : string) (params : PrParams)
  : M ToolResult :=
  try_finally
    (_ <- writeFileSync h bodyFile body ;;
     match (if truthy (pr_base params)
            then rejected (validateRef (default "" (pr_base params)))
            else None) with
     | Some v => ret (err v)
     | None =>
         let args :=
           (["pr"; "create"; "--title"; pr_title params; "--body-file"; bodyFile] ++
            (if truthy (pr_base params)
             then ["--base"; default "" (pr_base params)] else []) ++
            (if pr_draft params then ["--draft"] else []) ++
            (match pr_labels params with
             | Some (l :: ls) => ["--label"; String.concat "," (l :: ls)]
             | _ => []
             end))%list in
         c <- spawn h {| prog := "gh"; argv := args; opt_cwd := Some cwd;
                         opt_timeout := 30000; opt_maxBuffer := None |} ;;
         let result := resultOf c in
         if negb (exitCode result =? 0)
         then ret (err (or_else (stderr result) (stdout result)))
         else ret (text (or_else (stdout result) (stderr result)))
     end)
    (try_catch (unlinkSync h bodyFile) (fun _ => ret tt)).

Definition git_pr (cwd : string) (params : PrParams) : M ToolResult :=
  g <- repoGuard cwd ;;
  match g with
  | Some e => ret e
  | None =>
  ghCheck <- (c <- spawn h {| prog := "gh"; argv := ["--version"]; opt_cwd := None;
                              opt_timeout := 5000; opt_maxBuffer := None |} ;;
              ret (negb (bool_decide (is_Some (cb_err c))))) ;;
  if negb ghCheck
  then ret (err "gh CLI is not installed. install it from https://cli.github.com/ to create PRs.")
  else
  let title := pr_title params in
  if startsWith title "-" then ret (err "PR title cannot start with a dash")
  else
  match (match pr_labels params with
         | Some (l :: ls) => first_bad_label (l :: ls)
         | _ => None
         end) with
  | Some lv => ret (err lv)
  | None =>
  let body := default "" (pr_body params) in
  uuid <- newUUID h ;;
  let bodyFile := join (tmpdir h) ("openclaw-pr-body-" +:+ uuid +:+ ".md") in
  pr_with_file cwd bodyFile body params
  end
  end.

End Tools.

(** ** index.ts: the reading tools, the slash command and the CLI *)

Record StatusParams := { sp_short : bool }.

Record DiffParams := {
  df_staged : bool;
  df_ref1 : option string;
  df_ref2 : option string;
  df_paths : option (list string);
  df_nameOnly : bool
}.

(** [count] is a JavaScript number; the model takes the integers. *)
Record LogParams := {
  lg_count : option Z;
  lg_oneline : bool;
  lg_ref : option string;
  lg_paths : option (list string);
  lg_author : option string;
  lg_since : option string;
  lg_grep : option string
}.

Record PullParams := {
  pl_remote : option string;
  pl_branch : option string;
  pl_rebase : bool
}.

(** [startLine] and [endLine] are JavaScript numbers; the model takes the
    integers. *)
Record BlameParams := {
  bl_file : string;
  bl_startLine : option Z;
  bl_endLine : option Z
}.

(** [if (x) { const v = validate(x); if (v) return err(v); ... }]: the
    reason that stops the tool, if any. *)
Definition checked (validate : string -> option string) (x : option string)
  : option string :=
  if truthy x then rejected (validate (default "" x)) else None.

(** What the block above pushes on [args] when it does not stop the tool. *)
Definition pushed (render : string -> string) (x : option string) : list string :=
  if truthy x then [render (default "" x)] else [].

(** The loop over [paths] of [git_diff] and [git_log]: the error of the
    first refused path. *)
Definition pathError (paths : option (list string)) : option ToolResult :=
  match paths with
  | Some (p :: ps) =>
      match first_bad_path (p :: ps) with
      | Some (bad, v) => Some (err ("invalid path '" +:+ bad +:+ "': " +:+ v))
      | None => None
      end
  | _ => None
  end.

(** [args.push("--")] and then every path, when there are paths. *)
Definition pathArgs (paths : option (list string)) : list string :=
  match paths with
  | Some (p :: ps) => "--" :: p :: ps
  | _ => []
  end.

(** Truthiness of an optional number: [undefined], 0 and NaN are falsy. *)
Definition truthyZ (o : option Z) : bool :=
  match o with
  | Some n => negb (n =? 0)
  | None => false
  end.

(** [`${x}`] for a string that may be [null]. *)
Definition template_null (o : option string) : string := default "null" o.

(** [parseInt(s)] without a radix: leading white space, a sign, [0x] or
    [0X] for base 16, then the longest run of digits; [None] is [NaN].
    JavaScript rounds a result beyond [MAX_SAFE_INTEGER] to a double; the
    model keeps the integer, which compares with 0, 1 and 200 as the double
    does. *)
Definition digit_value (radix : Z) (c : ascii) : option Z :=
  let n := Z.of_nat (nat_of_ascii c) in
  let v := if (48 <=? n) && (n <=? 57) then Some (n - 48)
           else if (97 <=? n) && (n <=? 122) then Some (n - 87)
           else if (65 <=? n) && (n <=? 90) then Some (n - 55)
           else None in
  match v with
  | Some d => if d <? radix then Some d else None
  | None => None
  end.

Fixpoint parse_digits (radix : Z) (acc : option Z) (s : string) : option Z :=
  match s with
  | EmptyString => acc
  | String c s' =>
      match digit_value radix c with
      | Some d => parse_digits radix (Some (default 0 acc * radix + d)) s'
      | None => acc
      end
  end.

Definition parseInt (s : string) : option Z :=
  let s := trimStart s in
  let negative := startsWith s "-" in
  let s := if startsWith s "-" || startsWith s "+"
           then String.substring 1 (String.length s - 1) s else s in
  let hex := startsWith s "0x" || startsWith s "0X" in
  let s := if hex then String.substring 2 (String.length s - 2) s else s in
  n ← parse_digits (if hex then 16 else 10) None s ;
  Some (if negative then - n else n).

(** [Math.max(1, Math.min(200, parseInt(opts.count) || 20))] *)
Definition cliCount (opt : string) : Z :=
  Z.max 1 (Z.min 200 (match parseInt opt with
                      | Some n => if n =? 0 then 20 else n
                      | None => 20
                      end)).

Section ReadingTools.

(** The host and the two validators of [git.js] whose text is missing. *)
Variable h : Host.
Variable validateRemoteName : string -> option string.
Variable validateLogFilter : string -> string -> option string.

Definition git_status (cwd : string) (params : StatusParams) : M ToolResult :=
  g <- repoGuard h cwd ;;
  match g with
  | Some e => ret e
  | None =>
  branch <- getCurrentBranch h cwd ;;
  let args := ["status"; if sp_short params then "--short" else "--long"] in
  result <- git h args cwd ;;
  if negb (exitCode result =? 0) then ret (err (stderr result))
  else
  let output := "branch: " +:+ default "unknown" branch +:+ chr 10 +:+ chr 10 +:+
                stdout result in
  conflictCheck <- git h ["diff"; "--name-only"; "--diff-filter=U"] cwd ;;
  let output := if truthy (Some (trim (stdout conflictCheck)))
                then output +:+ chr 10 +:+ chr 10 +:+ "merge conflicts:" +:+ chr 10 +:+
                     stdout conflictCheck
                else output in
  ret (text output)
  end.

(** The first error of [git_diff]'s argument checks, in the order of the
    source. *)
Definition diffError (params : DiffParams) : option ToolResult :=
  match checked validateRef (df_ref1 params) with
  | Some v => Some (err v)
  | None =>
  match checked validateRef (df_ref2 params) with
  | Some v => Some (err v)
  | None => pathError (df_paths params)
  end
  end.

(** The argument vector [git_diff] has built when no check has stopped
    it. *)
Definition diffArgs (params : DiffParams) : list string :=
  (["diff"] ++
   (if df_staged params then ["--cached"] else []) ++
   (if df_nameOnly params then ["--name-only"] else []) ++
   pushed id (df_ref1 params) ++
   pushed id (df_ref2 params) ++
   pathArgs (df_paths params))%list.

Definition git_diff (cwd : string) (params : DiffParams) : M ToolResult :=
  g <- repoGuard h cwd ;;
  match g with
  | Some e => ret e
  | None =>
  match diffError params with
  | Some e => ret e
  | None =>
  result <- git h (diffArgs params) cwd ;;
  if negb (exitCode result =? 0) then ret (err (stderr result))
  else if negb (truthy (Some (trim (stdout result)))) then ret (text "no changes")
  else
    let output := filterBinaryDiffs (stdout result) in
    let output := truncateOutput output MAX_DIFF_LINES "diff" in
    ret (text output)
  end
  end.

(** [Math.min(params.count ?? 20, MAX_LOG_ENTRIES)] *)
Definition logCount (params : LogParams) : Z :=
  Z.min (default 20 (lg_count params)) MAX_LOG_ENTRIES.

(** The first error of [git_log]'s argument checks, in the order of the
    source. *)
Definition logError (params : LogParams) : option ToolResult :=
  match checked validateRef (lg_ref params) with
  | Some v => Some (err v)
  | None =>
  match checked (fun x => validateLogFilter x "author") (lg_author params) with
  | Some v => Some (err v)
  | None =>
  match checked (fun x => validateLogFilter x "since") (lg_since params) with
  | Some v => Some (err v)
  | None =>
  match checked (fun x => validateLogFilter x "grep") (lg_grep params) with
  | Some v => Some (err v)
  | None => pathError (lg_paths params)
  end
  end
  end
  end.

(** The argument vector [git_log] has built when no check has stopped
    it. *)
Definition logArgs (params : LogParams) : list string :=
  (["log"; "-" +:+ Number_toString (logCount params)] ++
   (if lg_oneline params then ["--oneline"]
    else ["--format=%h %an %ad %s"; "--date=short"]) ++
   pushed id (lg_ref params) ++
   pushed (fun x => "--author=" +:+ x) (lg_author params) ++
   pushed (fun x => "--since=" +:+ x) (lg_since params) ++
   pushed (fun x => "--grep=" +:+ x) (lg_grep params) ++
   pathArgs (lg_paths params))%list.

Definition git_log (cwd : string) (params : LogParams) : M ToolResult :=
  g <- repoGuard h cwd ;;
  match g with
  | Some e => ret e
  | None =>
  match logError params with
  | Some e => ret e
  | None =>
  result <- git h (logArgs params) cwd ;;
  if negb (exitCode result =? 0) then
    if includes (stderr result) "does not have any commits"
    then ret (text "no commits yet")
    else ret (err (stderr result))
  else if negb (truthy (Some (trim (stdout result)))) then ret (text "no commits found")
  else ret (text (truncateOutput (stdout result) MAX_LOG_ENTRIES "log"))
  end
  end.

(** The checks and the argument vector of [git_pull]. *)
Definition pullError (params : PullParams) : option ToolResult :=
  match checked validateRemoteName (pl_remote params) with
  | Some remoteErr => Some (err remoteErr)
  | None =>
  match checked validateRef (pl_branch params) with
  | Some v => Some (err v)
  | None => None
  end
  end.

Definition pullArgs (params : PullParams) : list string :=
  (["pull"] ++
   (if pl_rebase params then ["--rebase"] else []) ++
   pushed id (pl_remote params) ++
   pushed id (pl_branch params))%list.

Definition git_pull (cwd : string) (params : PullParams) : M ToolResult :=
  g <- repoGuard h cwd ;;
  match g with
  | Some e => ret e
  | None =>
  match pullError params with
  | Some e => ret e
  | None =>
  result <- git h (pullArgs params) cwd ;;
  if negb (exitCode result =? 0) then ret (err (stderr result))
  else ret (text (or_else (stdout result) (or_else (stderr result) "up to date")))
  end
  end.

(** The argument vector of [git_blame]: a range when [startLine] is
    truthy, then the separator and the file. *)
Definition blameArgs (params : BlameParams) : list string :=
  (["blame"] ++
   (if truthyZ (bl_startLine params) && truthyZ (bl_endLine params)
    then ["-L" +:+ Number_toString (default 0 (bl_startLine params)) +:+ "," +:+
          Number_toString (default 0 (bl_endLine params))]
    else if truthyZ (bl_startLine params)
    then ["-L" +:+ Number_toString (default 0 (bl_startLine params)) +:+ ",+20"]
    else []) ++
   ["--"; bl_file params])%list.

Definition git_blame (cwd : string) (params : BlameParams) : M ToolResult :=
  g <- repoGuard h cwd ;;
  match g with
  | Some e => ret e
  | None =>
  let file := bl_file params in
  match rejected (validateFilePath file) with
  | Some v => ret (err v)
  | None =>
  result <- git h (blameArgs params) cwd ;;
  if negb (exitCode result =? 0) then ret (err (stderr result))
  else ret (text (truncateOutput (stdout result) MAX_DIFF_LINES "blame"))
  end
  end.

(** The handler of the slash command [/git]; the answer is the [text] of
    the object it returns. *)
Definition git_command (cwd : string) : M string :=
  ok <- isGitRepo h cwd ;;
  if negb ok then ret "not a git repo"
  else
  branch <- getCurrentBranch h cwd ;;
  status <- git h ["status"; "--short"] cwd ;;
  logResult <- git h ["log"; "-5"; "--oneline"] cwd ;;
  let output := "branch: " +:+ template_null branch +:+ chr 10 in
  let output := if truthy (Some (trim (stdout status)))
                then output +:+ chr 10 +:+ "changes:" +:+ chr 10 +:+ stdout status
                else output +:+ chr 10 +:+ "working tree clean" in
  let output := if truthy (Some (trim (stdout logResult)))
                then output +:+ chr 10 +:+ chr 10 +:+ "recent commits:" +:+ chr 10 +:+
                     stdout logResult
                else output in
  ret output.

(** The CLI actions; the answer is what they print with [console.log], one
    entry a call. *)
Definition cli_status (cwd : string) : M (list string) :=
  ok <- isGitRepo h cwd ;;
  if negb ok then ret ["not a git repo"]
  else
  branch <- getCurrentBranch h cwd ;;
  result <- git h ["status"; "--short"] cwd ;;
  ret ["branch: " +:+ template_null branch; or_else (stdout result) "clean"].

Definition cli_log (cwd : string) (opts_count : string) : M (list string) :=
  ok <- isGitRepo h cwd ;;
  if negb ok then ret ["not a git repo"]
  else
  let count := cliCount opts_count in
  result <- git h ["log"; "-" +:+ Number_toString count; "--oneline"] cwd ;;
  if negb (exitCode result =? 0) then
    ret [if includes (stderr result) "does not have any commits"
         then "no commits yet" else stderr result]
  else ret [or_else (stdout result) "no commits"].

End ReadingTools.

(** ** Notions used to state the properties *)

(** The shell metacharacters as the specification lists them:
    ; & | ` $ ( ) { } ! # ~ < > * ? [ ] newline carriage-return backslash
    quote double-quote. *)
Definition shell_metacharacters : list ascii :=
  map ascii_of_nat
    [59; 38; 124; 96; 36; 40; 41; 123; 125; 33; 35; 126; 60; 62; 42; 63; 91;
     93; 10; 13; 92; 39; 34]%nat.

(** The subcommands as the specification lists them. *)
Definition listed_subcommands : list string :=
  ["status"; "diff"; "log"; "branch"; "add"; "commit"; "push"; "pull";
   "stash"; "blame"; "rev-parse"; "symbolic-ref"; "remote"; "checkout";
   "switch"; "fetch"; "merge"; "rebase"; "tag"; "show"; "config"].

(** The characters of a string. *)
Definition chars (s : string) : list ascii := list_ascii_of_string s.

(** A run that leads from [w] to [w'] added the effects [new]. *)
Definition ran (w w' : World) (new : list Effect) : Prop :=
  log w' = (log w ++ new)%list.

(** The call [runGit(args, cwd)] makes of [execFile]. *)
Definition gitSpawn (args : list string) (cwd : string) : Spawn :=
  {| prog := "git"; argv := args; opt_cwd := Some cwd;
     opt_timeout := 30000; opt_maxBuffer := Some (10 * 1024 * 1024) |}.

Definition gitExec (args : list string) (cwd : string) : Effect :=
  Exec (gitSpawn args cwd).

(** The first argument is on the allowlist. *)
Definition allowed_head (args : list string) : bool :=
  truthy (head args) &&
  bool_decide (default "" (head args) ∈ ALLOWED_SUBCOMMANDS).

(** The read-only queries [git rev-parse] and [git symbolic-ref], by which
    the tools ask whether they are in a repository and on which branch. *)
Definition is_probe (e : Effect) : bool :=
  match e with
  | Exec s =>
      String.eqb (prog s) "git" &&
      match argv s with
      | sub :: _ => String.eqb sub "rev-parse" || String.eqb sub "symbolic-ref"
      | [] => false
      end
  | _ => false
  end.

(** A run from [w] to [w'] made nothing but read-only queries and left the
    files as they were. *)
Definition only_probes (w w' : World) : Prop :=
  (∃ new, ran w w' new ∧ Forall (fun e => is_probe e = true) new) ∧
  files w' = files w.

(** A host for the examples: a repository whose current branch is [branch]
    and in which every command succeeds without output; files can be
    written and unlinked. *)
Definition silent (out : string) : Outcome :=
  Called {| cb_err := None; cb_stdout := Some out; cb_stderr := Some "" |}.

Definition repoHost (branch : string) : Host :=
  {| execFile := fun _ s =>
       match argv s with
       | ["rev-parse"; "--is-inside-work-tree"] => silent ("true" +:+ chr 10)
       | ["symbolic-ref"; "--short"; "HEAD"] => silent (branch +:+ chr 10)
       | _ => silent ""
       end;
     writeFile := fun _ _ _ => WriteDone;
     unlink := fun _ _ => UnlinkDone;
     randomUUID := fun _ => "123e4567-e89b-42d3-a456-426614174000";
     tmpdir := "/tmp" |}.

Definition exits (n : Z) (message : string) : Outcome :=
  Called {| cb_err := Some {| code := Some n |};
            cb_stdout := Some "";
            cb_stderr := Some message |}.

(** A repository on branch [dev] whose commit hook refuses every commit. *)
Definition hookRejectsHost : Host :=
  {| execFile := fun w s =>
       match argv s with
       | "commit" :: _ => exits 1 "pre-commit hook failed"
       | _ => execFile (repoHost "dev") w s
       end;
     writeFile := fun _ _ _ => WriteDone;
     unlink := fun _ _ => UnlinkDone;
     randomUUID := fun _ => "123e4567-e89b-42d3-a456-426614174000";
     tmpdir := "/tmp" |}.

Definition emptyWorld : World := {| log := []; files := ∅ |}.

(** A run of [git_push] from [w] passes the repository check and the
    remote-name check, finds [branch] as its branch, passes the branch-name
    check and so arrives at the force gates, in world [w2]. *)
Definition reaches_push_gates (h : Host) (cfg : GitOpsConfig)
    (validateRemoteName : string -> option string) (cwd : string)
    (p : PushParams) (w : World) (branch : option string) (w2 : World) : Prop :=
  ∃ w1, repoGuard h cwd w = (Val None, w1) ∧
        rejected (validateRemoteName (default (defaultRemote cfg) (pu_remote p))) = None ∧
        pushBranch h cwd p w1 = (Val branch, w2) ∧
        pushBranchError branch = None.

(** An effect that is no call of [writeFileSync]. *)
Definition no_write (e : Effect) : Prop :=
  match e with
  | WroteFile _ _ => False
  | _ => True
  end.

(** A run from [w] to [w'] wrote no file and left the files as they were. *)
Definition quiet (w w' : World) : Prop :=
  (∃ new, ran w w' new ∧ Forall no_write new) ∧ files w' = files w.

(** [unlinkSync] on host [h] never throws for the existing file [path]. *)
Definition unlinks (h : Host) (path : string) : Prop :=
  ∀ w, unlink h w path = UnlinkDone.

(** A run from [w] to [w'] wrote the one file [path]; when it ended, every
    other file was as before, and [path] was gone if the host unlinks
    it. *)
Definition payload_cycle (h : Host) (path : string) (w w' : World) : Prop :=
  ∃ pre content post,
    ran w w' (pre ++ WroteFile path content :: post) ∧
    Forall no_write pre ∧ Forall no_write post ∧
    delete path (files w') = delete path (files w) ∧
    (unlinks h path → files w' !! path = None).

(** The world after [writeFileSync] has written [content] to [path]. *)
Definition wrote (path content : string) (w : World) : World :=
  {| log := (log w ++ [WroteFile path content])%list;
     files := <[path := content]> (files w) |}.

(** What the [finally] block of a payload file adds to the effects when it
    runs in world [w], where the file exists: the removal, or nothing when
    [unlinkSync] throws and the error is swallowed. *)
Definition unlinked (h : Host) (w : World) (path : string) : list Effect :=
  match unlink h w path with
  | UnlinkDone => [Unlinked path]
  | UnlinkThrew _ => []
  end.

(** The host [repoHost "dev"] with a temporary directory whose files cannot
    be removed. *)
Definition stickyTmpHost : Host :=
  {| execFile := execFile (repoHost "dev");
     writeFile := fun _ _ _ => WriteDone;
     unlink := fun _ path =>
       UnlinkThrew ("EPERM: operation not permitted, unlink '" +:+ path +:+ "'");
     randomUUID := fun _ => "123e4567-e89b-42d3-a456-426614174000";
     tmpdir := "/tmp" |}.

(** The tool answered with [err(reason)]. *)
Definition denied (r : Res ToolResult) : Prop := ∃ reason, r = Val (err reason).

(** The tool answered with [err(reason)] or threw. *)
Definition failed (r : Res ToolResult) : Prop :=
  match r with
  | Val t => ∃ reason, t = err reason
  | Exn _ => True
  end.

(** The notice [truncateOutput] appends, without the line feed it begins
    with. *)
Definition truncation_notice (dropped : Z) (label : string) : string :=
  "... truncated (" +:+ Number_toString dropped +:+ " more lines of " +:+
  label +:+ ")".

(** The number of lines of a text, as [split] counts them. *)
Definition line_count (text : string) : Z := Z.of_nat (length (split_lines text)).

(** A string of decimal digits. *)
Definition is_digit (c : ascii) : bool :=
  let n := nat_of_ascii c in ((48 <=? n) && (n <=? 57))%nat.

(** A run from [w] to [w'] added only effects that satisfy [P] and left
    the files as they were. *)
Definition confined (P : Effect -> Prop) (w w' : World) : Prop :=
  (∃ new, ran w w' new ∧ Forall P new) ∧ files w' = files w.

(** Every run of [m], from any world, is confined to [P]. *)
Definition confines {A} (P : Effect -> Prop) (m : M A) : Prop :=
  ∀ w, confined P w (m w).2.

(** A call [runGit] makes of [execFile], with one of the subcommands
    [subs]. *)
Definition git_call (subs : list string) (e : Effect) : Prop :=
  ∃ sub rest cwd, e = gitExec (sub :: rest) cwd ∧ sub ∈ subs.

(** Every argument of a child process that begins with a dash is one of
    [flags] or satisfies [other]. *)
Definition dash_args (flags : list string) (other : string -> Prop) (e : Effect)
  : Prop :=
  match e with
  | Exec s => ∀ a, a ∈ argv s → startsWith a "-" = true → a ∈ flags ∨ other a
  | _ => True
  end.

(** No argument other than the listed flags begins with a dash. *)
Definition flags_only (flags : list string) : Effect -> Prop :=
  dash_args flags (fun _ => False).

(** A call [runGit] makes of [execFile] in [cwd], with one of the argument
    vectors [cmds]. *)
Definition one_of (cmds : list (list string)) (cwd : string) (e : Effect) : Prop :=
  ∃ args, e = gitExec args cwd ∧ args ∈ cmds.

(** Every run of [m] that returns a value returns one that satisfies
    [Q]. *)
Definition answers {A} (Q : A -> Prop) (m : M A) : Prop :=
  ∀ w, match (m w).1 with
       | Val a => Q a
       | Exn _ => True
       end.

(** An answer of a tool: an error, or a text of at most [n] lines. *)
Definition error_or_within (n : Z) (t : ToolResult) : Prop :=
  (∃ reason, t = err reason) ∨ (∃ s, t = text s ∧ line_count s <= n).

(** The call by which [git_pr] asks whether [gh] is installed. *)
Definition ghVersion : Effect :=
  Exec {| prog := "gh"; argv := ["--version"]; opt_cwd := None;
          opt_timeout := 5000; opt_maxBuffer := None |}.

(** A checkout with a detached HEAD at commit [abc1234]. *)
Definition detachedHost : Host :=
  {| execFile := fun _ s =>
       match argv s with
       | ["rev-parse"; "--is-inside-work-tree"] => silent ("true" +:+ chr 10)
       | ["symbolic-ref"; "--short"; "HEAD"] =>
           exits 128 "fatal: ref HEAD is not a symbolic ref"
       | ["rev-parse"; "--short"; "HEAD"] => silent ("abc1234" +:+ chr 10)
       | _ => silent ""
       end;
     writeFile := fun _ _ _ => WriteDone;
     unlink := fun _ _ => UnlinkDone;
     randomUUID := fun _ => "123e4567-e89b-42d3-a456-426614174000";
     tmpdir := "/tmp" |}.

(** A directory outside any repository. *)
Definition outsideHost : Host :=
  {| execFile := fun _ _ =>
       exits 128 "fatal: not a git repository (or any of the parent directories): .git";
     writeFile := fun _ _ _ => WriteDone;
     unlink := fun _ _ => UnlinkDone;
     randomUUID := fun _ => "123e4567-e89b-42d3-a456-426614174000";
     tmpdir := "/tmp" |}.

(** The keys [resolveConfig] reads. *)
Definition config_keys : list string :=
  ["allowForcePush"; "allowMainCommit"; "defaultRemote"; "commitPrefix";
   "protectedBranches"].

(** The argument vector [git_pr] hands to [gh]. *)
Definition prArgs (bodyFile : string) (p : PrParams) : list string :=
  (["pr"; "create"; "--title"; pr_title p; "--body-file"; bodyFile] ++
   (if truthy (pr_base p) then ["--base"; default "" (pr_base p)] else []) ++
   (if pr_draft p then ["--draft"] else []) ++
   (match pr_labels p with
    | Some (l :: ls) => ["--label"; String.concat "," (l :: ls)]
    | _ => []
    end))%list.

(** The answer of every tool outside a repository, and the world it leaves:
    the repository check has run and nothing else. *)
Definition not_a_repository (cwd : string) (w : World) : Res ToolResult * World :=
  (Val (err "not a git repository (or any parent up to mount point)"),
   logged (gitExec ["rev-parse"; "--is-inside-work-tree"] cwd) w).

(** Every run of [m] returns a value: it does not throw. *)
Definition returns {A} (m : M A) : Prop := ∀ w, ∃ a, (m w).1 = Val a.

(** A host on which every command exits with 0 and prints [true], and every
    file can be written and unlinked. *)
Definition agreeingHost : Host :=
  {| execFile := fun _ _ => silent ("true" +:+ chr 10);
     writeFile := fun _ _ _ => WriteDone;
     unlink := fun _ _ => UnlinkDone;
     randomUUID := fun _ => "123e4567-e89b-42d3-a456-426614174000";
     tmpdir := "/tmp" |}.

(** * Properties *)


(** ** Strings *)

Lemma eqb_empty_false (s : string) : s ≠ "" → String.eqb s "" = false.
Proof. intros H. now apply String.eqb_neq. Qed.

Lemma truthy_Some (s : string) : s ≠ "" → truthy (Some s) = true.
Proof. intros H. unfold truthy. now rewrite eqb_empty_false. Qed.

Lemma startsWith_dash (s : string) :
  startsWith s "-" = true → ∃ t, s = String "-" t.
Proof.
  destruct s as [|c t]; cbn [startsWith]; [discriminate|].
  rewrite andb_true_r. intros ->%Ascii.eqb_eq. eauto.
Qed.

Lemma startsWith_dash_nonempty (s : string) :
  startsWith s "-" = true → String.eqb s "" = false.
Proof. intros [t ->]%startsWith_dash. reflexivity. Qed.

Lemma literal_meta (c : ascii) :
  c ∈ shell_metacharacters → shell_meta_char c = true.
Proof.
  unfold shell_metacharacters. intros H.
  repeat (apply elem_of_cons in H as [->|H]; [vm_compute; reflexivity|]).
  now apply elem_of_nil in H.
Qed.

Lemma SHELL_META_test_char (s : string) (c : ascii) :
  c ∈ chars s → shell_meta_char c = true → SHELL_META_test s = true.
Proof.
  intros Hin Hc. unfold SHELL_META_test. apply existsb_exists.
  exists c. split; [now apply list_elem_of_In | exact Hc].
Qed.

(** ** Validators *)

(** C3.  A string that holds a shell metacharacter is rejected by
    [validateRef] and by the three validators modelled from the
    specification, [validateRemoteName], [validateLabel] and
    [validateLogFilter] (whatever the field name). *)
Theorem metacharacters_rejected (s : string) (c : ascii) (fieldName : string) :
  c ∈ shell_metacharacters → c ∈ chars s →
  is_Some (validateRef s) ∧
  is_Some (Spec.validateRemoteName s) ∧
  is_Some (Spec.validateLabel s) ∧
  is_Some (Spec.validateLogFilter s fieldName).
Proof.
  intros Hc%literal_meta Hs.
  pose proof (SHELL_META_test_char s c Hs Hc) as Hmeta.
  unfold validateRef, Spec.validateRemoteName, Spec.validateLabel,
    Spec.validateLogFilter.
  rewrite Hmeta. simpl.
  repeat split; repeat case_match; eauto.
Qed.

Lemma metacharacters_rejected_witness :
  is_Some (validateRef "main; rm -rf /") ∧
  is_Some (Spec.validateRemoteName "main; rm -rf /") ∧
  is_Some (Spec.validateLabel "main; rm -rf /") ∧
  is_Some (Spec.validateLogFilter "main; rm -rf /" "author").
Proof.
  apply (metacharacters_rejected "main; rm -rf /" ";" "author").
  - unfold shell_metacharacters. apply elem_of_cons. left. reflexivity.
  - unfold chars. simpl. do 4 (apply elem_of_cons; right).
    apply elem_of_cons. left. reflexivity.
Defined.

(** C4.  A string that begins with a dash is rejected by every validator,
    and [validateFilePath] accepts every non-empty string that does not
    begin with one, blanks and shell metacharacters included. *)
Theorem dash_prefix_rejected (s : string) (fieldName : string) :
  (startsWith s "-" = true →
   is_Some (validateBranchName s) ∧ is_Some (validateRef s) ∧
   is_Some (Spec.validateRemoteName s) ∧
   is_Some (Spec.validateLogFilter s fieldName) ∧
   is_Some (Spec.validateLabel s) ∧ is_Some (validateFilePath s)) ∧
  (s ≠ "" → startsWith s "-" = false → validateFilePath s = None).
Proof.
  split.
  - intros Hdash. pose proof (startsWith_dash_nonempty s Hdash) as Hne.
    unfold validateBranchName, validateRef, Spec.validateRemoteName,
      Spec.validateLogFilter, Spec.validateLabel, validateFilePath.
    rewrite Hdash, Hne. repeat split; eauto.
  - intros Hne Hdash. unfold validateFilePath.
    now rewrite (eqb_empty_false s Hne), Hdash.
Qed.

Lemma dash_prefix_rejected_witness :
  (is_Some (validateBranchName "-rf") ∧ is_Some (validateRef "-rf") ∧
   is_Some (Spec.validateRemoteName "-rf") ∧
   is_Some (Spec.validateLogFilter "-rf" "grep") ∧
   is_Some (Spec.validateLabel "-rf") ∧ is_Some (validateFilePath "-rf")) ∧
  validateFilePath "my notes; $(draft).txt" = None.
Proof.
  split.
  - apply (proj1 (dash_prefix_rejected "-rf" "grep")). reflexivity.
  - apply (proj2 (dash_prefix_rejected "my notes; $(draft).txt" "grep")).
    + discriminate.
    + reflexivity.
Defined.

(** ** The runner *)

Lemma allowed_listed (sub : string) :
  sub ∈ ALLOWED_SUBCOMMANDS ↔ sub ∈ listed_subcommands.
Proof. unfold ALLOWED_SUBCOMMANDS. apply elem_of_list_to_set. Qed.

Lemma allowlist_size : size ALLOWED_SUBCOMMANDS = 21%nat.
Proof. vm_compute. reflexivity. Qed.

Lemma runGit_blocked (h : Host) (args : list string) (cwd : string)
    (timeoutMs : Z) (w : World) :
  negb (truthy (head args)) ||
  negb (bool_decide (default "" (head args) ∈ ALLOWED_SUBCOMMANDS)) = true →
  runGit h args cwd timeoutMs w =
  (Val {| stdout := "";
          stderr := "blocked: git subcommand '" +:+ template (head args) +:+
                    "' is not allowed";
          exitCode := 1 |}, w).
Proof. intros H. unfold runGit. rewrite H. reflexivity. Qed.

(** C5 (as amended: the allowlist has 21 members, not 20).  The allowlist
    is exactly the 21 listed subcommands, and for an argument vector whose
    first element is absent, empty or not one of them, [runGit] resolves
    with exit code 1 and a [blocked] message on stderr, and leaves the world
    as it was: [execFile] is never called. *)
Theorem runGit_blocks_unlisted (h : Host) (args : list string) (cwd : string)
    (timeoutMs : Z) (w : World) :
  head args = None ∨ head args = Some "" ∨
  (∃ sub, head args = Some sub ∧ sub ∉ listed_subcommands) →
  (∀ sub, sub ∈ ALLOWED_SUBCOMMANDS ↔ sub ∈ listed_subcommands) ∧
  size ALLOWED_SUBCOMMANDS = 21%nat ∧
  runGit h args cwd timeoutMs w =
  (Val {| stdout := "";
          stderr := "blocked: git subcommand '" +:+ template (head args) +:+
                    "' is not allowed";
          exitCode := 1 |}, w).
Proof.
  intros H. split; [exact allowed_listed|]. split; [exact allowlist_size|].
  apply runGit_blocked.
  destruct H as [-> | [-> | (sub & -> & Hsub)]]; [reflexivity..|].
  apply orb_true_iff. right. apply negb_true_iff, bool_decide_eq_false.
  simpl. now rewrite allowed_listed.
Qed.

Lemma runGit_blocks_unlisted_witness :
  (∀ sub, sub ∈ ALLOWED_SUBCOMMANDS ↔ sub ∈ listed_subcommands) ∧
  size ALLOWED_SUBCOMMANDS = 21%nat ∧
  runGit {| execFile := fun _ _ => Threw "unreachable";
            writeFile := fun _ _ _ => WriteDone;
            unlink := fun _ _ => UnlinkDone;
            randomUUID := fun _ => "0";
            tmpdir := "/tmp" |}
         ["clone"; "https://example.org/x.git"] "/repo" 30000
         {| log := []; files := ∅ |} =
  (Val {| stdout := "";
          stderr := "blocked: git subcommand 'clone' is not allowed";
          exitCode := 1 |},
   {| log := []; files := ∅ |}).
Proof.
  apply (runGit_blocks_unlisted _ ["clone"; "https://example.org/x.git"]).
  right. right. exists "clone". split; [reflexivity|].
  unfold listed_subcommands. intros H.
  repeat (apply elem_of_cons in H as [H|H]; [discriminate H|]).
  now apply elem_of_nil in H.
Defined.

(** C5, the claim as stated: the allowlist does not have 20 members. *)
Lemma allowlist_not_20_members : size ALLOWED_SUBCOMMANDS ≠ 20%nat.
Proof. rewrite allowlist_size. discriminate. Qed.

(** ** Lines *)

Lemma chars_cons (c : ascii) (s : string) : chars (String c s) = c :: chars s.
Proof. reflexivity. Qed.

Lemma append_cons (c : ascii) (a b : string) :
  String c a +:+ b = String c (a +:+ b).
Proof. reflexivity. Qed.

Lemma chars_app (a b : string) : chars (a +:+ b) = (chars a ++ chars b)%list.
Proof.
  induction a as [|c a IH]; [reflexivity|].
  now rewrite append_cons, !chars_cons, IH.
Qed.

Lemma split_lines_cons_LF (s : string) :
  split_lines (String LF s) = "" :: split_lines s.
Proof. reflexivity. Qed.

Lemma split_lines_cons_other (c : ascii) (s : string) :
  c ≠ LF →
  split_lines (String c s) =
  match split_lines s with
  | [] => [String c ""]
  | l :: ls => String c l :: ls
  end.
Proof.
  intros Hc. cbn [split_lines].
  destruct (Ascii.eqb_spec c LF) as [->|_]; [contradiction | reflexivity].
Qed.

Lemma split_lines_not_nil (s : string) : split_lines s ≠ [].
Proof.
  destruct s as [|c s]; [discriminate|].
  destruct (Ascii.eqb_spec c LF) as [->|Hc].
  - discriminate.
  - rewrite split_lines_cons_other by exact Hc. now destruct (split_lines s).
Qed.

(** A text without line feed is one line. *)
Lemma split_lines_one (a : string) : LF ∉ chars a → split_lines a = [a].
Proof.
  induction a as [|c a IH]; [reflexivity|].
  rewrite chars_cons. intros [Hc Ha]%not_elem_of_cons.
  rewrite split_lines_cons_other by congruence. now rewrite IH.
Qed.

Lemma split_lines_app (a s : string) :
  LF ∉ chars a → split_lines (a +:+ String LF s) = a :: split_lines s.
Proof.
  induction a as [|c a IH]; [reflexivity|].
  rewrite chars_cons. intros [Hc Ha]%not_elem_of_cons.
  rewrite append_cons, split_lines_cons_other by congruence.
  now rewrite IH.
Qed.

(** The pieces [split] returns hold no line feed. *)
Lemma split_lines_no_LF (s : string) : Forall (fun l => LF ∉ chars l) (split_lines s).
Proof.
  induction s as [|c s IH].
  - constructor; [|constructor]. apply not_elem_of_nil.
  - destruct (Ascii.eqb_spec c LF) as [->|Hc].
    + rewrite split_lines_cons_LF. constructor; [apply not_elem_of_nil | exact IH].
    + rewrite split_lines_cons_other by exact Hc.
      destruct (split_lines s) as [|l ls].
      * constructor; [|constructor]. rewrite chars_cons.
        apply not_elem_of_cons. split; [congruence | apply not_elem_of_nil].
      * inversion IH as [|? ? Hl Hls]; subst. constructor; [|exact Hls].
        rewrite chars_cons. apply not_elem_of_cons. split; [congruence | exact Hl].
Qed.

Lemma join_lines_cons (x y : string) (ls : list string) :
  join_lines (x :: y :: ls) = x +:+ String LF (join_lines (y :: ls)).
Proof. reflexivity. Qed.

(** [split] undoes [join] on lines that hold no line feed. *)
Lemma split_join_lines (ls : list string) :
  ls ≠ [] → Forall (fun l => LF ∉ chars l) ls →
  split_lines (join_lines ls) = ls.
Proof.
  induction ls as [|x [|y ls] IH]; [contradiction| |].
  - intros _ Hx. inversion Hx; subst. now apply split_lines_one.
  - intros _ H. inversion H as [|? ? Hx Hrest]; subst.
    rewrite join_lines_cons, split_lines_app by exact Hx.
    now rewrite IH.
Qed.

(** [join] undoes [split]. *)
Lemma join_split_lines (s : string) : join_lines (split_lines s) = s.
Proof.
  induction s as [|c s IH]; [reflexivity|].
  destruct (Ascii.eqb_spec c LF) as [->|Hc].
  - rewrite split_lines_cons_LF.
    pose proof (split_lines_not_nil s) as Hs.
    destruct (split_lines s) as [|l ls] eqn:E; [contradiction|].
    rewrite join_lines_cons, IH. reflexivity.
  - rewrite split_lines_cons_other by exact Hc.
    pose proof (split_lines_not_nil s) as Hs.
    destruct (split_lines s) as [|l [|l' ls]] eqn:E; [contradiction| |].
    + cbn in IH |- *. now rewrite IH.
    + rewrite join_lines_cons in IH |- *. now rewrite append_cons, IH.
Qed.

(** An element that begins with a line feed joins like an empty line
    followed by the rest. *)
Lemma join_lines_snoc_LF (ls : list string) (m : string) :
  join_lines (ls ++ [String LF m]) = join_lines (ls ++ [""; m]).
Proof.
  induction ls as [|x [|y ls] IH]; [reflexivity| reflexivity |].
  change ((x :: y :: ls) ++ [String LF m])%list
    with (x :: y :: (ls ++ [String LF m]))%list.
  change ((x :: y :: ls) ++ [""; m])%list with (x :: y :: (ls ++ [""; m]))%list.
  rewrite !join_lines_cons. f_equal. f_equal. exact IH.
Qed.

Lemma append_inj_l (x a b : string) : x +:+ a = x +:+ b → a = b.
Proof. induction x as [|c x IH]; [trivial|]. rewrite !append_cons. intros [= H]. auto. Qed.

Lemma append_inj_r (a b r : string) : a +:+ r = b +:+ r → a = b.
Proof.
  intros H. apply (f_equal chars) in H. rewrite !chars_app in H.
  apply app_inv_tail in H.
  rewrite <- (string_of_list_ascii_of_string a), <- (string_of_list_ascii_of_string b).
  unfold chars in H. now rewrite H.
Qed.

Lemma join_lines_snoc_inj (ls : list string) (a b : string) :
  join_lines (ls ++ [a]) = join_lines (ls ++ [b]) → a = b.
Proof.
  induction ls as [|x [|y ls] IH]; [trivial| |].
  - cbn. intros H%append_inj_l. now injection H.
  - change ((x :: y :: ls) ++ [a])%list with (x :: y :: (ls ++ [a]))%list.
    change ((x :: y :: ls) ++ [b])%list with (x :: y :: (ls ++ [b]))%list.
    rewrite !join_lines_cons. intros H%append_inj_l. injection H as H. auto.
Qed.

(** ** Decimal numerals *)

Lemma Number_toString_read (z : Z) :
  NilZero.int_of_string (Number_toString z) = Some (Z.to_int z).
Proof.
  unfold Number_toString. apply NilZero.isi; destruct z; cbn; try discriminate.
  all: intros [= E]; now apply DecimalPos.Unsigned.to_uint_nonnil in E.
Qed.

Lemma Number_toString_inj (a b : Z) :
  Number_toString a = Number_toString b → a = b.
Proof.
  intros H. apply DecimalZ.to_int_inj.
  pose proof (Number_toString_read a) as Ha. rewrite H, Number_toString_read in Ha.
  now injection Ha.
Qed.

Lemma uint_digits (d : Decimal.uint) :
  Forall (fun c => is_digit c = true) (chars (NilEmpty.string_of_uint d)).
Proof.
  induction d; cbn [NilEmpty.string_of_uint]; rewrite ?chars_cons;
    constructor; trivial.
Qed.

Lemma Number_toString_digits (z : Z) :
  0 <= z → Forall (fun c => is_digit c = true) (chars (Number_toString z)).
Proof.
  intros Hz. unfold Number_toString.
  destruct z as [|p|p]; [| |lia]; cbn [Z.to_int NilZero.string_of_int].
  - repeat constructor.
  - unfold NilZero.string_of_uint.
    destruct (Pos.to_uint p); try apply uint_digits. repeat constructor.
Qed.

Lemma digits_no_LF (s : string) :
  Forall (fun c => is_digit c = true) (chars s) → LF ∉ chars s.
Proof.
  intros H Hin. rewrite Forall_forall in H. now specialize (H LF Hin).
Qed.

Lemma truncation_notice_no_LF (k : Z) (label : string) :
  0 <= k → LF ∉ chars label → LF ∉ chars (truncation_notice k label).
Proof.
  intros Hk Hlabel. unfold truncation_notice. rewrite !chars_app.
  pose proof (digits_no_LF _ (Number_toString_digits k Hk)) as Hd.
  rewrite !not_elem_of_app. repeat split; trivial.
  - vm_compute. intros H. repeat (apply elem_of_cons in H as [H|H]; [discriminate H|]).
    now apply elem_of_nil in H.
  - vm_compute. intros H. repeat (apply elem_of_cons in H as [H|H]; [discriminate H|]).
    now apply elem_of_nil in H.
  - vm_compute. intros H. repeat (apply elem_of_cons in H as [H|H]; [discriminate H|]).
    now apply elem_of_nil in H.
Qed.

Lemma truncation_notice_inj (a b : Z) (label : string) :
  truncation_notice a label = truncation_notice b label → a = b.
Proof.
  unfold truncation_notice. intros H%append_inj_l.
  apply Number_toString_inj. eapply append_inj_r. exact H.
Qed.

(** ** The output governor *)

Lemma truncateOutput_short (text label : string) (n : Z) :
  line_count text <= n → truncateOutput text n label = text.
Proof.
  unfold line_count, truncateOutput. intros H.
  now rewrite (proj2 (Z.leb_le _ _) H).
Qed.

Lemma truncateOutput_long (text label : string) (n : Z) :
  0 <= n < line_count text →
  truncateOutput text n label =
  join_lines (take (Z.to_nat n) (split_lines text) ++
              [""; truncation_notice (line_count text - n) label]).
Proof.
  unfold line_count, truncateOutput. intros [H0 H].
  rewrite (proj2 (Z.leb_gt _ _) H). unfold slice0.
  rewrite (proj2 (Z.ltb_ge _ _) H0).
  apply join_lines_snoc_LF.
Qed.

(** The lines of a truncated text: the first [n], an empty one and the
    notice. *)
Lemma truncateOutput_lines (text label : string) (n : Z) :
  0 <= n < line_count text → LF ∉ chars label →
  split_lines (truncateOutput text n label) =
  (take (Z.to_nat n) (split_lines text) ++
   [""; truncation_notice (line_count text - n) label])%list.
Proof.
  intros Hn Hlabel. rewrite truncateOutput_long by exact Hn.
  apply split_join_lines.
  - now destruct (take (Z.to_nat n) (split_lines text)).
  - apply Forall_app. split.
    + apply Forall_take, split_lines_no_LF.
    + constructor; [apply not_elem_of_nil|].
      constructor; [|constructor].
      apply truncation_notice_no_LF; [lia | exact Hlabel].
Qed.

Lemma truncateOutput_line_count (text label : string) (n : Z) :
  0 <= n < line_count text → LF ∉ chars label →
  line_count (truncateOutput text n label) = n + 2.
Proof.
  intros Hn Hlabel. unfold line_count at 1.
  rewrite truncateOutput_lines by assumption.
  rewrite length_app, length_take. cbn [length]. unfold line_count in Hn. lia.
Qed.

(** Truncating a truncated text keeps the same [n] lines and announces two
    dropped lines. *)
Lemma truncateOutput_twice (text label : string) (n : Z) :
  0 <= n < line_count text → LF ∉ chars label →
  truncateOutput (truncateOutput text n label) n label =
  join_lines (take (Z.to_nat n) (split_lines text) ++
              [""; truncation_notice 2 label]).
Proof.
  intros Hn Hlabel.
  pose proof (truncateOutput_line_count text label n Hn Hlabel) as Hcount.
  rewrite (truncateOutput_long (truncateOutput text n label)) by lia.
  rewrite Hcount, truncateOutput_lines by assumption.
  replace (n + 2 - n) with 2 by lia.
  rewrite take_app_le.
  - rewrite take_take. now rewrite Nat.min_id.
  - rewrite length_take. unfold line_count in Hn. lia.
Qed.

(** C7 (as amended).  For a limit [n >= 0] and a label without line feed:
    a text of at most [n] lines is returned as it is, and truncating twice
    equals truncating once exactly for the texts of at most [n] lines and
    those of [n + 2] lines. *)
Theorem truncateOutput_idempotent_iff (text label : string) (n : Z) :
  0 <= n → LF ∉ chars label →
  (line_count text <= n → truncateOutput text n label = text) ∧
  (truncateOutput (truncateOutput text n label) n label =
   truncateOutput text n label
   ↔ line_count text <= n ∨ line_count text = n + 2).
Proof.
  intros Hn Hlabel. split; [apply truncateOutput_short|].
  destruct (Z.le_gt_cases (line_count text) n) as [Hshort|Hlong].
  - split; [auto|]. intros _.
    now rewrite !(truncateOutput_short text label n Hshort).
  - rewrite truncateOutput_twice, (truncateOutput_long text) by (trivial; lia).
    set (kept := take (Z.to_nat n) (split_lines text)).
    change [""; truncation_notice 2 label]
      with ([""] ++ [truncation_notice 2 label])%list.
    change [""; truncation_notice (line_count text - n) label]
      with ([""] ++ [truncation_notice (line_count text - n) label])%list.
    rewrite !app_assoc. split.
    + intros H%join_lines_snoc_inj%truncation_notice_inj. lia.
    + intros [H|H]; [lia|]. now replace (line_count text - n) with 2 by lia.
Qed.

Lemma truncateOutput_idempotent_iff_witness :
  (line_count "one line" <= 200 →
   truncateOutput "one line" 200 "log" = "one line") ∧
  (truncateOutput (truncateOutput "one line" 200 "log") 200 "log" =
   truncateOutput "one line" 200 "log"
   ↔ line_count "one line" <= 200 ∨ line_count "one line" = 200 + 2).
Proof.
  apply (truncateOutput_idempotent_iff "one line" "log" 200).
  - lia.
  - vm_compute. intros H.
    repeat (apply elem_of_cons in H as [H|H]; [discriminate H|]).
    now apply elem_of_nil in H.
Defined.

(** C7, the claim as stated: truncating the two lines [a], [b] to one line
    twice differs from truncating them once. *)
Lemma truncateOutput_not_idempotent :
  truncateOutput_default
    (truncateOutput_default (join_lines ["a"; "b"]) 1) 1 ≠
  truncateOutput_default (join_lines ["a"; "b"]) 1.
Proof. apply String.eqb_neq. vm_compute. reflexivity. Qed.

(** C8 (as amended).  250 lines truncated to [MAX_LOG_ENTRIES] = 200 with
    the label [log] give the first 200 lines, then an empty line, then the
    line [... truncated (50 more lines of log)] with three full stops. *)
Theorem truncateOutput_250_lines (ls : list string) :
  length ls = 250%nat → Forall (fun l => LF ∉ chars l) ls →
  truncateOutput (join_lines ls) MAX_LOG_ENTRIES "log" =
  join_lines (take 200 ls ++ [""; "... truncated (50 more lines of log)"]).
Proof.
  intros Hlen Hls.
  assert (split_lines (join_lines ls) = ls) as Hsplit.
  { apply split_join_lines; [|exact Hls]. now destruct ls. }
  assert (line_count (join_lines ls) = 250) as Hcount.
  { unfold line_count. rewrite Hsplit, Hlen. reflexivity. }
  unfold MAX_LOG_ENTRIES. rewrite truncateOutput_long by lia.
  rewrite Hsplit, Hcount. reflexivity.
Qed.

Lemma truncateOutput_250_lines_witness :
  truncateOutput (join_lines (replicate 250 "c0ffee1 fix")) MAX_LOG_ENTRIES "log" =
  join_lines (take 200 (replicate 250 "c0ffee1 fix") ++
              [""; "... truncated (50 more lines of log)"]).
Proof.
  apply (truncateOutput_250_lines (replicate 250 "c0ffee1 fix")).
  - apply length_replicate.
  - apply Forall_replicate. vm_compute. intros H.
    repeat (apply elem_of_cons in H as [H|H]; [discriminate H|]).
    now apply elem_of_nil in H.
Defined.

(** C8, the claim as stated: the result is not the first 200 lines followed
    by the single line that begins with U+2026, nor by that line spelled
    with three full stops. *)
Lemma truncateOutput_250_lines_not_as_stated :
  truncateOutput (join_lines (replicate 250 "c0ffee1 fix")) 200 "log" ≠
  join_lines (take 200 (replicate 250 "c0ffee1 fix") ++
              [utf8 [226; 128; 166]%nat +:+ " truncated (50 more lines of log)"]) ∧
  truncateOutput (join_lines (replicate 250 "c0ffee1 fix")) 200 "log" ≠
  join_lines (take 200 (replicate 250 "c0ffee1 fix") ++
              ["... truncated (50 more lines of log)"]).
Proof. split; apply String.eqb_neq; vm_compute; reflexivity. Qed.

(** ** Runs of the helpers *)

Lemma ran_refl (w : World) : ran w w [].
Proof. unfold ran. now rewrite app_nil_r. Qed.

Lemma ran_trans (w1 w2 w3 : World) (a b : list Effect) :
  ran w1 w2 a → ran w2 w3 b → ran w1 w3 (a ++ b).
Proof. unfold ran. intros H1 H2. now rewrite H2, H1, app_assoc. Qed.

Lemma ran_logged (e : Effect) (w : World) : ran w (logged e w) [e].
Proof. reflexivity. Qed.

Lemma only_probes_refl (w : World) : only_probes w w.
Proof. split; [|reflexivity]. exists []. split; [apply ran_refl | constructor]. Qed.

Lemma only_probes_trans (w1 w2 w3 : World) :
  only_probes w1 w2 → only_probes w2 w3 → only_probes w1 w3.
Proof.
  intros [(a & Ha & Pa) Fa] [(b & Hb & Pb) Fb]. split; [|congruence].
  exists (a ++ b)%list. split; [eapply ran_trans; eassumption|].
  apply Forall_app. now split.
Qed.

Lemma only_probes_logged (e : Effect) (w : World) :
  is_probe e = true → only_probes w (logged e w).
Proof.
  intros He. split; [|reflexivity].
  exists [e]. split; [apply ran_logged | now repeat constructor].
Qed.

(** A call of the runner with an allowed subcommand is one call of
    [execFile]. *)
Lemma git_run (h : Host) (args : list string) (cwd : string) (w : World) :
  allowed_head args = true →
  git h args cwd w =
  match execFile h w (gitSpawn args cwd) with
  | Called c => (Val (resultOf c), logged (gitExec args cwd) w)
  | Threw e => (Exn e, logged (gitExec args cwd) w)
  end.
Proof.
  unfold allowed_head. intros [Ht Ha]%andb_true_iff.
  unfold git, runGit. rewrite Ht, Ha. cbn [negb orb].
  unfold bind, spawn, gitExec, gitSpawn.
  now destruct (execFile h w _).
Qed.

(** The repository guard never throws; it makes the one query. *)
Lemma repoGuard_run (h : Host) (cwd : string) (w : World) :
  ∃ g, repoGuard h cwd w =
       (Val g, logged (gitExec ["rev-parse"; "--is-inside-work-tree"] cwd) w) ∧
       (g = None ∨ ∃ e, g = Some (err e)).
Proof.
  unfold repoGuard, try_catch, requireRepo, isGitRepo, bind.
  rewrite git_run by (vm_compute; reflexivity).
  destruct (execFile h w _) as [c|e].
  - destruct (_ && _); cbn; eauto.
  - cbn. eauto.
Qed.

Lemma repoGuard_probes (h : Host) (cwd : string) (w : World) :
  only_probes w (repoGuard h cwd w).2.
Proof.
  destruct (repoGuard_run h cwd w) as (g & -> & _). now apply only_probes_logged.
Qed.

Lemma only_probes_step (e : Effect) (w w' : World) :
  is_probe e = true → only_probes (logged e w) w' → only_probes w w'.
Proof.
  intros He H. eapply only_probes_trans; [|exact H]. now apply only_probes_logged.
Qed.

Lemma getCurrentBranch_probes (h : Host) (cwd : string) (w : World) :
  only_probes w (getCurrentBranch h cwd w).2.
Proof.
  unfold getCurrentBranch, bind. rewrite git_run by (vm_compute; reflexivity).
  destruct (execFile h w _) as [c|e]; [|now apply only_probes_logged].
  apply (only_probes_step (gitExec ["symbolic-ref"; "--short"; "HEAD"] cwd));
    [reflexivity|].
  destruct (exitCode (resultOf c) =? 0); [apply only_probes_refl|].
  rewrite git_run by (vm_compute; reflexivity).
  apply (only_probes_step (gitExec ["rev-parse"; "--short"; "HEAD"] cwd));
    [reflexivity|].
  destruct (execFile h _ _) as [c'|e']; [|apply only_probes_refl].
  destruct (exitCode (resultOf c') =? 0); apply only_probes_refl.
Qed.

Lemma pushBranch_probes (h : Host) (cwd : string) (p : PushParams) (w : World) :
  only_probes w (pushBranch h cwd p w).2.
Proof.
  unfold pushBranch. destruct (pu_branch p); [apply only_probes_refl|].
  apply getCurrentBranch_probes.
Qed.

(** ** The protected-branch gate *)

(** In the proofs about the tools, [simpl] leaves the validators, the
    runner and the string functions folded. *)
#[local] Arguments validateBranchName : simpl never.
#[local] Arguments validateRef : simpl never.
#[local] Arguments validateFilePath : simpl never.
#[local] Arguments git : simpl never.
#[local] Arguments repoGuard : simpl never.
#[local] Arguments getCurrentBranch : simpl never.
#[local] Arguments pushBranch : simpl never.
#[local] Arguments err : simpl never.
#[local] Arguments text : simpl never.
#[local] Arguments startsWith : simpl never.
#[local] Arguments strip_detached : simpl never.
#[local] Arguments truncateOutput : simpl never.
#[local] Arguments filterBinaryDiffs : simpl never.
#[local] Arguments Number_toString : simpl never.
#[local] Arguments Number_toString_js : simpl never.
#[local] Arguments logged : simpl never.

Lemma isProtected_elem (cfg : GitOpsConfig) (b : string) :
  b ∈ protectedBranches cfg → isProtected cfg b = true.
Proof. intros H. unfold isProtected. now apply bool_decide_eq_true. Qed.

Lemma denied_err (reason : string) (w : World) : denied (ret (err reason) w).1.
Proof. now exists reason. Qed.

Lemma git_branch_delete_protected (h : Host) (cfg : GitOpsConfig) (cwd b : string)
    (p : BranchParams) (w : World) :
  b ∈ protectedBranches cfg →
  br_action p = Some "delete" → br_name p = Some b →
  denied (git_branch h cfg cwd p w).1 ∧ only_probes w (git_branch h cfg cwd p w).2.
Proof.
  intros Hb Hact Hname. unfold git_branch, bind.
  destruct (repoGuard_run h cwd w) as (g & -> & Hg).
  destruct Hg as [-> | (e & ->)].
  2:{ split; [now exists e | now apply only_probes_logged]. }
  rewrite Hact, Hname. simpl. rewrite (isProtected_elem cfg b Hb).
  destruct (negb (negb (b =? "")%string));
    [|destruct (rejected (validateBranchName b))];
    (split; [apply denied_err | now apply only_probes_logged]).
Qed.

Lemma git_push_protected (h : Host) (cfg : GitOpsConfig)
    (validateRemoteName : string → option string) (cwd b : string)
    (p : PushParams) (w w2 : World) :
  b ∈ protectedBranches cfg → b ≠ "" → pu_force p = true →
  pushBranch h cwd p (repoGuard h cwd w).2 = (Val (Some b), w2) →
  denied (git_push h cfg validateRemoteName cwd p w).1 ∧
  only_probes w (git_push h cfg validateRemoteName cwd p w).2.
Proof.
  intros Hb Hne Hforce Hbranch. unfold git_push, bind.
  pose proof (pushBranch_probes h cwd p (repoGuard h cwd w).2) as Hprobes.
  rewrite Hbranch in Hprobes. cbn [snd] in Hprobes.
  destruct (repoGuard_run h cwd w) as (g & Hg & Hcases).
  rewrite Hg in *. cbn [snd] in *.
  assert (only_probes w w2) as Hw2.
  { eapply only_probes_trans; [|exact Hprobes]. now apply only_probes_logged. }
  destruct Hcases as [-> | (e & ->)].
  2:{ split; [now exists e | now apply only_probes_logged]. }
  destruct (rejected (validateRemoteName _)).
  { split; [apply denied_err | now apply only_probes_logged]. }
  rewrite Hbranch.
  destruct (pushBranchError (Some b)).
  { split; [apply denied_err | exact Hw2]. }
  rewrite Hforce. unfold forcePushDenied.
  rewrite (truthy_Some b Hne). simpl. rewrite (isProtected_elem cfg b Hb).
  destruct (negb (allowForcePush cfg)); (split; [apply denied_err | exact Hw2]).
Qed.

(** What the two gates do refuse.  For a branch name in
    [protectedBranches], whatever the rest of the configuration:
    [git_branch] with action [delete] answers with an error, and a forced
    [git_push] whose branch string (given, or else the current one) is that
    name, if it is not the empty string, answers with an error; in both
    cases the tool runs nothing but the read-only queries [git rev-parse]
    and [git symbolic-ref], so neither [git branch -d] nor [git push]. *)
Theorem protected_branch_denied (h : Host) (cfg : GitOpsConfig)
    (validateRemoteName : string → option string) (cwd b : string) :
  b ∈ protectedBranches cfg →
  (∀ (p : BranchParams) (w : World),
     br_action p = Some "delete" → br_name p = Some b →
     denied (git_branch h cfg cwd p w).1 ∧
     only_probes w (git_branch h cfg cwd p w).2) ∧
  (b ≠ "" →
   ∀ (p : PushParams) (w w2 : World),
     pu_force p = true →
     pushBranch h cwd p (repoGuard h cwd w).2 = (Val (Some b), w2) →
     denied (git_push h cfg validateRemoteName cwd p w).1 ∧
     only_probes w (git_push h cfg validateRemoteName cwd p w).2).
Proof.
  intros Hb. split.
  - intros p w. now apply git_branch_delete_protected.
  - intros Hne p w w2. now apply git_push_protected.
Qed.

Lemma protected_branch_denied_witness :
  (denied (git_branch (repoHost "dev") DEFAULTS "/repo"
             {| br_action := Some "delete"; br_name := Some "main";
                br_startPoint := None; br_all := false |} emptyWorld).1 ∧
   only_probes emptyWorld
     (git_branch (repoHost "dev") DEFAULTS "/repo"
        {| br_action := Some "delete"; br_name := Some "main";
           br_startPoint := None; br_all := false |} emptyWorld).2) ∧
  (denied (git_push (repoHost "main")
             {| allowForcePush := true; allowMainCommit := true;
                defaultRemote := "origin"; commitPrefix := "";
                protectedBranches := ["main"] |}
             Spec.validateRemoteName "/repo"
             {| pu_remote := None; pu_branch := None; pu_force := true;
                pu_setUpstream := false; pu_dryRun := false |} emptyWorld).1 ∧
   only_probes emptyWorld
     (git_push (repoHost "main")
        {| allowForcePush := true; allowMainCommit := true;
           defaultRemote := "origin"; commitPrefix := "";
           protectedBranches := ["main"] |}
        Spec.validateRemoteName "/repo"
        {| pu_remote := None; pu_branch := None; pu_force := true;
           pu_setUpstream := false; pu_dryRun := false |} emptyWorld).2).
Proof.
  split.
  - apply (protected_branch_denied (repoHost "dev") DEFAULTS
             Spec.validateRemoteName "/repo" "main");
      [apply elem_of_cons; now left | reflexivity | reflexivity].
  - eapply (protected_branch_denied (repoHost "main") _
              Spec.validateRemoteName "/repo" "main").
    + apply elem_of_cons. now left.
    + discriminate.
    + reflexivity.
    + vm_compute. reflexivity.
Defined.

(** C1, the defect.  The repository is on [main], [main] is protected and
    [allowForcePush] is on.  A forced push whose [branch] is the empty
    string is not refused: [??] keeps the empty string, the two tests
    [if (branch)] skip both the name check and the protected-branch gate,
    no refspec is added, and [git push --force-with-lease origin] runs,
    which pushes the current branch, [main].  The gate compares the string
    it was given with the list, so [HEAD] and [refs/heads/main], which
    [validateBranchName] accepts and which name the very same branch, pass
    it as well.  The sibling path, [delete], refuses an empty name, and a
    forced push that names [main] itself is refused. *)
Lemma protected_main_force_pushed :
  isProtected
    {| allowForcePush := true; allowMainCommit := false;
       defaultRemote := "origin"; commitPrefix := "";
       protectedBranches := ["main"; "master"] |} "main" = true ∧
  (getCurrentBranch (repoHost "main") "/repo" emptyWorld).1 = Val (Some "main") ∧
  git_push (repoHost "main")
    {| allowForcePush := true; allowMainCommit := false;
       defaultRemote := "origin"; commitPrefix := "";
       protectedBranches := ["main"; "master"] |}
    Spec.validateRemoteName "/repo"
    {| pu_remote := None; pu_branch := Some ""; pu_force := true;
       pu_setUpstream := false; pu_dryRun := false |} emptyWorld =
  (Val (text "pushed successfully"),
   {| log := [gitExec ["rev-parse"; "--is-inside-work-tree"] "/repo";
              gitExec ["push"; "--force-with-lease"; "origin"] "/repo"];
      files := ∅ |}) ∧
  git_push (repoHost "main")
    {| allowForcePush := true; allowMainCommit := false;
       defaultRemote := "origin"; commitPrefix := "";
       protectedBranches := ["main"; "master"] |}
    Spec.validateRemoteName "/repo"
    {| pu_remote := None; pu_branch := Some "HEAD"; pu_force := true;
       pu_setUpstream := false; pu_dryRun := false |} emptyWorld =
  (Val (text "pushed successfully"),
   {| log := [gitExec ["rev-parse"; "--is-inside-work-tree"] "/repo";
              gitExec ["push"; "--force-with-lease"; "origin"; "HEAD"] "/repo"];
      files := ∅ |}) ∧
  git_push (repoHost "main")
    {| allowForcePush := true; allowMainCommit := false;
       defaultRemote := "origin"; commitPrefix := "";
       protectedBranches := ["main"; "master"] |}
    Spec.validateRemoteName "/repo"
    {| pu_remote := None; pu_branch := Some "refs/heads/main"; pu_force := true;
       pu_setUpstream := false; pu_dryRun := false |} emptyWorld =
  (Val (text "pushed successfully"),
   {| log := [gitExec ["rev-parse"; "--is-inside-work-tree"] "/repo";
              gitExec ["push"; "--force-with-lease"; "origin"; "refs/heads/main"]
                "/repo"];
      files := ∅ |}) ∧
  git_push (repoHost "main")
    {| allowForcePush := true; allowMainCommit := false;
       defaultRemote := "origin"; commitPrefix := "";
       protectedBranches := ["main"; "master"] |}
    Spec.validateRemoteName "/repo"
    {| pu_remote := None; pu_branch := Some "main"; pu_force := true;
       pu_setUpstream := false; pu_dryRun := false |} emptyWorld =
  (Val (err "force push to protected branch 'main' is always blocked."),
   {| log := [gitExec ["rev-parse"; "--is-inside-work-tree"] "/repo"];
      files := ∅ |}) ∧
  git_branch (repoHost "main")
    {| allowForcePush := true; allowMainCommit := false;
       defaultRemote := "origin"; commitPrefix := "";
       protectedBranches := ["main"; "master"] |}
    "/repo"
    {| br_action := Some "delete"; br_name := Some ""; br_startPoint := None;
       br_all := false |} emptyWorld =
  (Val (err "branch name required for 'delete'"),
   {| log := [gitExec ["rev-parse"; "--is-inside-work-tree"] "/repo"];
      files := ∅ |}).
Proof. repeat split; vm_compute; reflexivity. Qed.

(** ** The force-push gate *)

Lemma git_push_force_disabled (h : Host) (cfg : GitOpsConfig)
    (validateRemoteName : string → option string) (cwd : string)
    (p : PushParams) (w : World) :
  pu_force p = true → allowForcePush cfg = false →
  failed (git_push h cfg validateRemoteName cwd p w).1 ∧
  only_probes w (git_push h cfg validateRemoteName cwd p w).2.
Proof.
  intros Hforce Hallow. unfold git_push, bind.
  destruct (repoGuard_run h cwd w) as (g & -> & Hcases).
  destruct Hcases as [-> | (e & ->)].
  2:{ split; [now exists e | now apply only_probes_logged]. }
  destruct (rejected (validateRemoteName _)).
  { split; [now eexists | now apply only_probes_logged]. }
  pose proof (pushBranch_probes h cwd p
    (logged (gitExec ["rev-parse"; "--is-inside-work-tree"] cwd) w)) as Hprobes.
  destruct (pushBranch h cwd p _) as [[branch|e] w2]; cbn [snd] in Hprobes.
  2:{ split; [exact I|]. eapply only_probes_step; [|exact Hprobes]. reflexivity. }
  assert (only_probes w w2) as Hw2.
  { eapply only_probes_step; [|exact Hprobes]. reflexivity. }
  destruct (pushBranchError branch).
  { split; [now eexists | exact Hw2]. }
  rewrite Hforce. unfold forcePushDenied. rewrite Hallow. simpl.
  split; [now eexists | exact Hw2].
Qed.

Lemma git_push_at_gates (h : Host) (cfg : GitOpsConfig)
    (validateRemoteName : string → option string) (cwd : string)
    (p : PushParams) (w w2 : World) (branch : option string) :
  reaches_push_gates h cfg validateRemoteName cwd p w branch w2 →
  git_push h cfg validateRemoteName cwd p w =
  match (if pu_force p then forcePushDenied cfg branch else None) with
  | Some refusal => (Val refusal, w2)
  | None =>
      (result <- git h (pushArgs (default (defaultRemote cfg) (pu_remote p))
                          branch p) cwd ;;
       if negb (exitCode result =? 0) then ret (err (stderr result))
       else ret (text (or_else (stderr result)
                         (or_else (stdout result) "pushed successfully")))) w2
  end.
Proof.
  intros (w1 & Hguard & Hremote & Hbranch & Hname).
  unfold git_push, bind at 1. rewrite Hguard, Hremote.
  unfold bind at 1. rewrite Hbranch, Hname.
  now destruct (if pu_force p then forcePushDenied cfg branch else None).
Qed.

Lemma rejected_None_truthy (v : option string) :
  rejected v = None → truthy v = false.
Proof.
  unfold rejected. destruct (truthy v) eqn:E; [|trivial].
  intros ->. discriminate E.
Qed.

Lemma push_remote_not_force (validateRemoteName : string → option string)
    (remote : string) :
  (∀ s, startsWith s "-" = true → truthy (validateRemoteName s) = true) →
  rejected (validateRemoteName remote) = None → remote ≠ "--force".
Proof.
  intros Hdash Hrej%rejected_None_truthy ->.
  rewrite Hdash in Hrej by reflexivity. discriminate.
Qed.

Lemma push_branch_not_force (branch : option string) :
  pushBranchError branch = None →
  truthy branch && negb (startsWith (default "" branch) "(detached") = true →
  default "" branch ≠ "--force".
Proof.
  unfold pushBranchError. intros Herr [Ht Hd]%andb_true_iff Heq.
  rewrite Ht in Herr. rewrite Heq in Herr, Hd. vm_compute in Herr. discriminate.
Qed.

Lemma pushArgs_lease (cfg : GitOpsConfig)
    (validateRemoteName : string → option string)
    (p : PushParams) (branch : option string) :
  pu_force p = true →
  (∀ s, startsWith s "-" = true → truthy (validateRemoteName s) = true) →
  rejected (validateRemoteName (default (defaultRemote cfg) (pu_remote p))) = None →
  pushBranchError branch = None →
  "--force-with-lease" ∈ pushArgs (default (defaultRemote cfg) (pu_remote p)) branch p ∧
  "--force" ∉ pushArgs (default (defaultRemote cfg) (pu_remote p)) branch p.
Proof.
  intros Hforce Hdash Hremote Hbranch. unfold pushArgs. rewrite Hforce. split.
  - apply elem_of_app. right. apply elem_of_app. left. apply list_elem_of_singleton.
    reflexivity.
  - pose proof (push_remote_not_force _ _ Hdash Hremote) as Hr.
    pose proof (push_branch_not_force branch Hbranch) as Hb.
    rewrite !elem_of_app, !list_elem_of_singleton.
    intros [H|[H|[H|[H|[H|H]]]]]; try discriminate H.
    + destruct (pu_setUpstream p); [apply list_elem_of_singleton in H|apply elem_of_nil in H];
        [discriminate H | exact H].
    + destruct (pu_dryRun p); [apply list_elem_of_singleton in H|apply elem_of_nil in H];
        [discriminate H | exact H].
    + congruence.
    + destruct (truthy branch && negb (startsWith (default "" branch) "(detached"));
        [apply list_elem_of_singleton in H|now apply elem_of_nil in H].
      now apply Hb.
Qed.

Lemma allowed_head_pushArgs (remote : string) (branch : option string)
    (p : PushParams) :
  allowed_head (pushArgs remote branch p) = true.
Proof. unfold pushArgs. vm_compute. reflexivity. Qed.

Lemma forcePushDenied_unprotected (cfg : GitOpsConfig) (branch : option string) :
  allowForcePush cfg = true →
  (∀ b, branch = Some b → b ∉ protectedBranches cfg) →
  forcePushDenied cfg branch = None.
Proof.
  intros Hallow Hfree. unfold forcePushDenied. rewrite Hallow. simpl.
  destruct branch as [b|]; [|reflexivity].
  unfold isProtected. simpl.
  rewrite bool_decide_eq_false_2 by now apply Hfree.
  now rewrite andb_false_r.
Qed.

(** C2 (as amended).  For a [git_push] with [force = true], given that the
    remote-name validator rejects dash-prefixed names:
    - if [allowForcePush] is false, the request fails (an error answer, or
      the exception of a failed branch query), the tool runs nothing but the
      read-only queries [git rev-parse] and [git symbolic-ref], so no
      [git push]; and once the request has passed the repository check and
      the remote- and branch-name checks, the answer is the error that names
      [allowForcePush];
    - if [allowForcePush] is true, the request has passed those checks and
      its branch is not protected, the runner is called once more, with an
      argument vector that holds [--force-with-lease] and not [--force]. *)
Theorem force_push_gated (h : Host) (cfg : GitOpsConfig)
    (validateRemoteName : string → option string) (cwd : string)
    (p : PushParams) (w : World) :
  pu_force p = true →
  (∀ s, startsWith s "-" = true → truthy (validateRemoteName s) = true) →
  (allowForcePush cfg = false →
   failed (git_push h cfg validateRemoteName cwd p w).1 ∧
   only_probes w (git_push h cfg validateRemoteName cwd p w).2 ∧
   ∀ branch w2,
     reaches_push_gates h cfg validateRemoteName cwd p w branch w2 →
     git_push h cfg validateRemoteName cwd p w =
     (Val (err "force push is disabled. set allowForcePush: true in config to enable."),
      w2)) ∧
  (allowForcePush cfg = true →
   ∀ branch w2,
     reaches_push_gates h cfg validateRemoteName cwd p w branch w2 →
     (∀ b, branch = Some b → b ∉ protectedBranches cfg) →
     ran w2 (git_push h cfg validateRemoteName cwd p w).2
       [gitExec (pushArgs (default (defaultRemote cfg) (pu_remote p)) branch p) cwd] ∧
     "--force-with-lease" ∈
       pushArgs (default (defaultRemote cfg) (pu_remote p)) branch p ∧
     "--force" ∉ pushArgs (default (defaultRemote cfg) (pu_remote p)) branch p).
Proof.
  intros Hforce Hdash. split.
  - intros Hallow.
    destruct (git_push_force_disabled h cfg validateRemoteName cwd p w Hforce Hallow)
      as [Hfailed Hprobes].
    split; [exact Hfailed|]. split; [exact Hprobes|].
    intros branch w2 Hgates. rewrite (git_push_at_gates _ _ _ _ _ _ _ _ Hgates).
    rewrite Hforce. unfold forcePushDenied. now rewrite Hallow.
  - intros Hallow branch w2 Hgates Hfree.
    rewrite (git_push_at_gates _ _ _ _ _ _ _ _ Hgates).
    rewrite Hforce, (forcePushDenied_unprotected cfg branch Hallow Hfree).
    destruct Hgates as (w1 & _ & Hremote & _ & Hname). split.
    + unfold bind. rewrite git_run by apply allowed_head_pushArgs.
      destruct (execFile h w2 _) as [c|e]; [|apply ran_logged].
      destruct (negb (exitCode (resultOf c) =? 0)); apply ran_logged.
    + now apply (pushArgs_lease cfg validateRemoteName).
Qed.

Lemma force_push_gated_witness :
  git_push (repoHost "feature-x") DEFAULTS Spec.validateRemoteName "/repo"
    {| pu_remote := None; pu_branch := Some "feature-x"; pu_force := true;
       pu_setUpstream := false; pu_dryRun := false |} emptyWorld =
  (Val (err "force push is disabled. set allowForcePush: true in config to enable."),
   logged (gitExec ["rev-parse"; "--is-inside-work-tree"] "/repo") emptyWorld) ∧
  ran (logged (gitExec ["rev-parse"; "--is-inside-work-tree"] "/repo") emptyWorld)
    (git_push (repoHost "feature-x")
       {| allowForcePush := true; allowMainCommit := false;
          defaultRemote := "origin"; commitPrefix := "";
          protectedBranches := ["main"; "master"] |}
       Spec.validateRemoteName "/repo"
       {| pu_remote := None; pu_branch := Some "feature-x"; pu_force := true;
          pu_setUpstream := false; pu_dryRun := false |} emptyWorld).2
    [gitExec ["push"; "--force-with-lease"; "origin"; "feature-x"] "/repo"].
Proof.
  assert (∀ s, startsWith s "-" = true →
               truthy (Spec.validateRemoteName s) = true) as Hdash.
  { intros s Hs. unfold Spec.validateRemoteName. now rewrite Hs. }
  pose proof (force_push_gated (repoHost "feature-x") DEFAULTS
                Spec.validateRemoteName "/repo"
                {| pu_remote := None; pu_branch := Some "feature-x";
                   pu_force := true; pu_setUpstream := false;
                   pu_dryRun := false |} emptyWorld eq_refl Hdash) as [Hoff _].
  pose proof (force_push_gated (repoHost "feature-x")
                {| allowForcePush := true; allowMainCommit := false;
                   defaultRemote := "origin"; commitPrefix := "";
                   protectedBranches := ["main"; "master"] |}
                Spec.validateRemoteName "/repo"
                {| pu_remote := None; pu_branch := Some "feature-x";
                   pu_force := true; pu_setUpstream := false;
                   pu_dryRun := false |} emptyWorld eq_refl Hdash) as [_ Hon].
  split.
  - destruct (Hoff eq_refl) as (_ & _ & Hexact).
    apply (Hexact (Some "feature-x")).
    eexists. repeat split; vm_compute; reflexivity.
  - apply (Hon eq_refl (Some "feature-x")).
    + eexists. repeat split; vm_compute; reflexivity.
    + intros b [= <-] Hin.
      repeat (apply elem_of_cons in Hin as [Hin|Hin]; [discriminate Hin|]).
      now apply elem_of_nil in Hin.
Defined.

(** C2, the claim as stated.  With [allowForcePush] false and [force]
    requested on branch [feature-x], the tool does call [execFile]: it runs
    [git rev-parse] before it answers.  And the answer names the override
    flag only when the earlier checks pass: for the branch [-x] it is the
    branch-name error, which does not mention [allowForcePush]. *)
Lemma force_push_denial_not_as_stated :
  log (git_push (repoHost "feature-x") DEFAULTS Spec.validateRemoteName "/repo"
         {| pu_remote := None; pu_branch := Some "feature-x"; pu_force := true;
            pu_setUpstream := false; pu_dryRun := false |} emptyWorld).2 =
  [gitExec ["rev-parse"; "--is-inside-work-tree"] "/repo"] ∧
  (git_push (repoHost "feature-x") DEFAULTS Spec.validateRemoteName "/repo"
     {| pu_remote := None; pu_branch := Some "-x"; pu_force := true;
        pu_setUpstream := false; pu_dryRun := false |} emptyWorld).1 =
  Val (err "branch name cannot start with a dash (looks like a flag)") ∧
  includes "branch name cannot start with a dash (looks like a flag)"
    "allowForcePush" = false.
Proof. repeat split; vm_compute; reflexivity. Qed.

(** ** The main-commit gate *)




(** ** The payload file *)

Lemma quiet_refl (w : World) : quiet w w.
Proof. split; [|reflexivity]. exists []. split; [apply ran_refl | constructor]. Qed.

Lemma quiet_trans (w1 w2 w3 : World) : quiet w1 w2 → quiet w2 w3 → quiet w1 w3.
Proof.
  intros [(a & Ha & Pa) Fa] [(b & Hb & Pb) Fb]. split; [|congruence].
  exists (a ++ b)%list. split; [eapply ran_trans; eassumption|].
  apply Forall_app. now split.
Qed.

Lemma quiet_exec (s : Spawn) (w : World) : quiet w (logged (Exec s) w).
Proof.
  split; [|reflexivity]. exists [Exec s]. split; [apply ran_logged|].
  now repeat constructor.
Qed.

Lemma only_probes_quiet (w w' : World) : only_probes w w' → quiet w w'.
Proof.
  intros [(new & Hran & Hnew) Hfiles]. split; [|exact Hfiles].
  exists new. split; [exact Hran|].
  eapply Forall_impl; [exact Hnew|]. intros [s|path content|path]; now cbn.
Qed.

Lemma git_quiet (h : Host) (args : list string) (cwd : string) (w : World) :
  quiet w (git h args cwd w).2.
Proof.
  unfold git, runGit.
  destruct (negb _ || negb _); [apply quiet_refl|].
  unfold bind, spawn. destruct (execFile h w _); apply quiet_exec.
Qed.

Lemma spawn_quiet (h : Host) (s : Spawn) (w : World) : quiet w (spawn h s w).2.
Proof. unfold spawn. destruct (execFile h w s); apply quiet_exec. Qed.

Lemma payload_after_quiet (h : Host) (path : string) (w w1 w2 : World) :
  quiet w w1 → payload_cycle h path w1 w2 → payload_cycle h path w w2.
Proof.
  intros [(a & Ha & Pa) Fa]
    (pre & content & post & Hran & Ppre & Ppost & Hfiles & Hgone).
  exists (a ++ pre)%list, content, post.
  split; [unfold ran in *; now rewrite Hran, Ha, !app_assoc|].
  split; [apply Forall_app; now split|].
  split; [exact Ppost|]. split; [now rewrite Hfiles, Fa | exact Hgone].
Qed.

(** The [finally] block: whatever the body did and whether or not
    [unlinkSync] throws, the body's outcome is kept and the files other
    than [path] are untouched; [path] is gone afterwards if the host
    unlinks it. *)
Lemma try_finally_unlink {A} (h : Host) (m : M A) (path : string) (w : World) :
  (try_finally m (try_catch (unlinkSync h path) (fun _ => ret tt)) w).1 = (m w).1 ∧
  delete path
    (files (try_finally m (try_catch (unlinkSync h path) (fun _ => ret tt)) w).2) =
    delete path (files (m w).2) ∧
  (unlinks h path →
   files (try_finally m (try_catch (unlinkSync h path) (fun _ => ret tt)) w).2 =
     delete path (files (m w).2)) ∧
  ∃ post, ran (m w).2
            (try_finally m (try_catch (unlinkSync h path) (fun _ => ret tt)) w).2
            post ∧
          Forall no_write post.
Proof.
  unfold try_finally, try_catch, unlinkSync.
  destruct (m w) as [r w1]. cbn [fst snd].
  destruct (files w1 !! path) as [c|] eqn:E; [destruct (unlink h w1 path) eqn:U|];
    cbn [fst snd files log].
  - split; [reflexivity|]. split; [apply delete_delete_eq|].
    split; [reflexivity|]. exists [Unlinked path]. split; [reflexivity|].
    now repeat constructor.
  - split; [reflexivity|]. split; [reflexivity|].
    split; [intros Hok; now rewrite Hok in U|].
    exists []. split; [apply ran_refl | constructor].
  - split; [reflexivity|]. split; [reflexivity|].
    split; [intros _; now rewrite delete_id|].
    exists []. split; [apply ran_refl | constructor].
Qed.

(** Writing the payload: the write is logged, and apart from [path] the
    files are as before, whether the write succeeds or throws. *)
Lemma writeFileSync_run (h : Host) (path content : string) (w : World) :
  ran w (writeFileSync h path content w).2 [WroteFile path content] ∧
  delete path (files (writeFileSync h path content w).2) = delete path (files w).
Proof.
  unfold writeFileSync.
  destruct (writeFile h w path content) as [|[c|] msg]; cbn [fst snd files log logged];
    split; try reflexivity; apply delete_insert_eq.
Qed.

(** A body that writes [path] and then stays quiet, wrapped in the
    [finally] that unlinks [path], is a payload cycle. *)
Lemma payload_cycle_finally {A} (h : Host) (path content : string)
    (k : M A) (w : World) :
  (∀ w1, quiet w1 (k w1).2) →
  payload_cycle h path w
    (try_finally (_ <- writeFileSync h path content ;; k)
       (try_catch (unlinkSync h path) (fun _ => ret tt)) w).2.
Proof.
  intros Hk.
  destruct (try_finally_unlink h (_ <- writeFileSync h path content ;; k) path w)
    as (_ & Hfiles & Hgone & post & Hpost & Ppost).
  destruct (writeFileSync_run h path content w) as [Hw Hdel].
  assert (quiet (writeFileSync h path content w).2
            ((_ <- writeFileSync h path content ;; k) w).2) as Hbody.
  { unfold bind. destruct (writeFileSync h path content w) as [[[]|e] w1];
      [apply Hk | apply quiet_refl]. }
  destruct Hbody as [(mid & Hmid & Pmid) Fmid].
  exists [], content, (mid ++ post)%list.
  split; [unfold ran in *; rewrite Hpost, Hmid, Hw; now rewrite <- !app_assoc|].
  split; [constructor|]. split; [apply Forall_app; now split|].
  split; [now rewrite Hfiles, Fmid|].
  intros Hok. rewrite (Hgone Hok). apply lookup_delete_eq.
Qed.

Lemma commit_with_file_cycle (h : Host) (cwd msgFile message : string)
    (all : bool) (w : World) :
  payload_cycle h msgFile w (commit_with_file h cwd msgFile message all w).2.
Proof.
  unfold commit_with_file. apply payload_cycle_finally. intros w1.
  unfold bind.
  pose proof (git_quiet h (if all then ["commit"; "-a"; "--file"; msgFile]
                           else ["commit"; "--file"; msgFile]) cwd w1) as Hgit.
  destruct (git h _ cwd w1) as [[result|e] w2]; cbn [snd] in *; [|exact Hgit].
  now destruct (negb (exitCode result =? 0)).
Qed.

Lemma pr_with_file_cycle (h : Host) (cwd bodyFile body : string)
    (p : PrParams) (w : World) :
  payload_cycle h bodyFile w (pr_with_file h cwd bodyFile body p w).2.
Proof.
  unfold pr_with_file. apply payload_cycle_finally. intros w1.
  destruct (if truthy (pr_base p) then _ else None); [apply quiet_refl|].
  unfold bind.
  match goal with |- context [spawn h ?s w1] =>
    pose proof (spawn_quiet h s w1) as Hgh; destruct (spawn h s w1) as [[c|e] w2]
  end; cbn [snd] in *; [|exact Hgh].
  now destruct (negb (exitCode (resultOf c) =? 0)).
Qed.

Lemma stage_and_commit_cases (h : Host) (cfg : GitOpsConfig) (cwd : string)
    (p : CommitParams) (w : World) :
  quiet w (stage_and_commit h cfg cwd p w).2 ∨
  ∃ path, payload_cycle h path w (stage_and_commit h cfg cwd p w).2.
Proof.
  unfold stage_and_commit, bind, newUUID.
  destruct (ci_files p) as [[|f fs]|]; unfold ret at 1.
  - right. eexists. apply commit_with_file_cycle.
  - destruct (first_bad_path (f :: fs)) as [[bad v]|].
    + left. apply quiet_refl.
    + pose proof (git_quiet h ("add" :: "--" :: f :: fs) cwd w) as Hadd.
      destruct (git h _ cwd w) as [[addResult|e] w1]; cbn [snd] in Hadd;
        [|now left].
      destruct (negb (exitCode addResult =? 0)); [now left|].
      right. eexists. eapply payload_after_quiet; [exact Hadd|].
      apply commit_with_file_cycle.
  - right. eexists. apply commit_with_file_cycle.
Qed.

Lemma git_commit_cases (h : Host) (cfg : GitOpsConfig) (cwd : string)
    (p : CommitParams) (w : World) :
  quiet w (git_commit h cfg cwd p w).2 ∨
  ∃ path, payload_cycle h path w (git_commit h cfg cwd p w).2.
Proof.
  unfold git_commit, bind.
  pose proof (only_probes_quiet _ _ (repoGuard_probes h cwd w)) as Hguard.
  destruct (repoGuard_run h cwd w) as (g & Hg & Hcases). rewrite Hg in *.
  cbn [snd] in Hguard.
  destruct Hcases as [-> | (e & ->)]; [|now left].
  match goal with |- context [getCurrentBranch h cwd ?w1] =>
    pose proof (only_probes_quiet _ _ (getCurrentBranch_probes h cwd w1)) as Hbranch;
    destruct (getCurrentBranch h cwd w1) as [[branch|e] w2]
  end; cbn [snd] in Hbranch.
  2:{ left. eapply quiet_trans; eassumption. }
  assert (quiet w w2) as Hw2 by (eapply quiet_trans; eassumption).
  destruct (mainCommitDenied cfg branch); [now left|].
  destruct (stage_and_commit_cases h cfg cwd p w2) as [Hq | (path & Hc)].
  - left. eapply quiet_trans; eassumption.
  - right. exists path. eapply payload_after_quiet; eassumption.
Qed.

Lemma git_pr_cases (h : Host) (validateLabel : string → option string)
    (cwd : string) (p : PrParams) (w : World) :
  quiet w (git_pr h validateLabel cwd p w).2 ∨
  ∃ path, payload_cycle h path w (git_pr h validateLabel cwd p w).2.
Proof.
  unfold git_pr, bind, newUUID.
  pose proof (only_probes_quiet _ _ (repoGuard_probes h cwd w)) as Hguard.
  destruct (repoGuard_run h cwd w) as (g & Hg & Hcases).
  rewrite Hg in Hguard |- *. cbn [snd] in Hguard.
  destruct Hcases as [-> | (e & ->)]; [|now left].
  match goal with |- context [spawn h ?s ?w1] =>
    pose proof (spawn_quiet h s w1) as Hgh; destruct (spawn h s w1) as [[c|e] w2]
  end; cbn [snd] in Hgh.
  2:{ left. eapply quiet_trans; eassumption. }
  assert (quiet w w2) as Hw2 by (eapply quiet_trans; eassumption).
  unfold ret. cbv beta iota.
  destruct (negb (negb _)); [now left|].
  destruct (startsWith (pr_title p) "-"); [now left|].
  destruct (match pr_labels p with Some (l :: ls) => _ | _ => None end);
    [now left|].
  right. eexists. eapply payload_after_quiet; [exact Hw2|].
  apply pr_with_file_cycle.
Qed.

Lemma cycle_or_quiet_files (h : Host) (w w' : World) (new : list Effect) :
  quiet w w' ∨ (∃ path, payload_cycle h path w w') →
  ran w w' new →
  (∀ path content, WroteFile path content ∈ new →
     delete path (files w') = delete path (files w) ∧
     (unlinks h path →
      files w' !! path = None ∧ files w' = delete path (files w))) ∧
  ((∀ path content, WroteFile path content ∉ new) → files w' = files w).
Proof.
  intros Hcases Hnew. unfold ran in Hnew.
  destruct Hcases as [[(a & Ha & Pa) Fa] |
                      (path & pre & content & post & Hran & Ppre & Ppost &
                       Hfiles & Hgone)].
  - unfold ran in Ha. rewrite Ha in Hnew. apply app_inv_head in Hnew as <-.
    split; [|trivial]. intros path content Hin.
    rewrite Forall_forall in Pa. now apply Pa in Hin.
  - unfold ran in Hran. rewrite Hran in Hnew. apply app_inv_head in Hnew as <-.
    rewrite Forall_forall in Ppre, Ppost. split.
    + intros path' content' [Hin|Hin]%elem_of_app; [now apply Ppre in Hin|].
      apply elem_of_cons in Hin as [[= -> ->]|Hin]; [|now apply Ppost in Hin].
      split; [exact Hfiles|]. intros Hok. split; [now apply Hgone|].
      rewrite <- Hfiles. symmetry. apply delete_id. now apply Hgone.
    + intros Hnone. exfalso. apply (Hnone path content).
      apply elem_of_app. right. apply elem_of_cons. now left.
Qed.

(** C6 (as amended: the file is gone when [unlinkSync] does not throw).
    Take any run of [git_commit] or [git_pr] and the effects it added.  If
    a temporary file was written during the run, then on return every
    other file is as it was before the run, however the run ended (an
    answer, an error answer or an exception) and whatever [unlinkSync] did;
    and if [unlinkSync] does not throw for that file, the file is gone.  If
    no file was written, the files are untouched. *)
Theorem payload_file_removed (h : Host) (cfg : GitOpsConfig)
    (validateLabel : string → option string) (cwd : string) (w : World)
    (new : list Effect) :
  (∀ p : CommitParams,
     ran w (git_commit h cfg cwd p w).2 new →
     (∀ path content, WroteFile path content ∈ new →
        delete path (files (git_commit h cfg cwd p w).2) = delete path (files w) ∧
        (unlinks h path →
         files (git_commit h cfg cwd p w).2 !! path = None ∧
         files (git_commit h cfg cwd p w).2 = delete path (files w))) ∧
     ((∀ path content, WroteFile path content ∉ new) →
      files (git_commit h cfg cwd p w).2 = files w)) ∧
  (∀ p : PrParams,
     ran w (git_pr h validateLabel cwd p w).2 new →
     (∀ path content, WroteFile path content ∈ new →
        delete path (files (git_pr h validateLabel cwd p w).2) =
          delete path (files w) ∧
        (unlinks h path →
         files (git_pr h validateLabel cwd p w).2 !! path = None ∧
         files (git_pr h validateLabel cwd p w).2 = delete path (files w))) ∧
     ((∀ path content, WroteFile path content ∉ new) →
      files (git_pr h validateLabel cwd p w).2 = files w)).
Proof.
  split; intros p Hnew.
  - exact (cycle_or_quiet_files h _ _ _ (git_commit_cases h cfg cwd p w) Hnew).
  - exact (cycle_or_quiet_files h _ _ _ (git_pr_cases h validateLabel cwd p w) Hnew).
Qed.

Lemma payload_file_removed_witness :
  files (git_commit hookRejectsHost DEFAULTS "/repo"
           {| ci_message := "fix bug"; ci_files := None; ci_all := true |}
           emptyWorld).2
    !! "/tmp/openclaw-git-msg-123e4567-e89b-42d3-a456-426614174000.txt" = None ∧
  files (git_commit hookRejectsHost DEFAULTS "/repo"
           {| ci_message := "fix bug"; ci_files := None; ci_all := true |}
           emptyWorld).2 =
  delete "/tmp/openclaw-git-msg-123e4567-e89b-42d3-a456-426614174000.txt"
    (files emptyWorld).
Proof.
  apply (proj1 (payload_file_removed hookRejectsHost DEFAULTS Spec.validateLabel
                  "/repo" emptyWorld
                  [gitExec ["rev-parse"; "--is-inside-work-tree"] "/repo";
                   gitExec ["symbolic-ref"; "--short"; "HEAD"] "/repo";
                   WroteFile
                     "/tmp/openclaw-git-msg-123e4567-e89b-42d3-a456-426614174000.txt"
                     "fix bug";
                   gitExec ["commit"; "-a"; "--file";
                            "/tmp/openclaw-git-msg-123e4567-e89b-42d3-a456-426614174000.txt"]
                     "/repo";
                   Unlinked
                     "/tmp/openclaw-git-msg-123e4567-e89b-42d3-a456-426614174000.txt"])
          {| ci_message := "fix bug"; ci_files := None; ci_all := true |})
    with (content := "fix bug").
  - vm_compute. reflexivity.
  - do 2 (apply elem_of_cons; right). apply elem_of_cons. now left.
  - intros w. reflexivity.
Defined.

(** C6, the claim as stated: where the temporary directory does not let its
    files be removed, [unlinkSync] throws in the [finally] block, the tool
    swallows the error and answers as if nothing had happened, and the
    payload file is still there on return; for [git_commit] and for
    [git_pr] alike. *)
Lemma payload_file_left_behind :
  (git_commit stickyTmpHost DEFAULTS "/repo"
     {| ci_message := "fix bug"; ci_files := None; ci_all := false |}
     emptyWorld).1 = Val (text "") ∧
  files (git_commit stickyTmpHost DEFAULTS "/repo"
           {| ci_message := "fix bug"; ci_files := None; ci_all := false |}
           emptyWorld).2
    !! "/tmp/openclaw-git-msg-123e4567-e89b-42d3-a456-426614174000.txt" =
  Some "fix bug" ∧
  (git_pr stickyTmpHost Spec.validateLabel "/repo"
     {| pr_title := "Add login"; pr_body := Some "Fixes the login";
        pr_base := None; pr_draft := false; pr_labels := None |}
     emptyWorld).1 = Val (text "") ∧
  files (git_pr stickyTmpHost Spec.validateLabel "/repo"
           {| pr_title := "Add login"; pr_body := Some "Fixes the login";
              pr_base := None; pr_draft := false; pr_labels := None |}
           emptyWorld).2
    !! "/tmp/openclaw-pr-body-123e4567-e89b-42d3-a456-426614174000.md" =
  Some "Fixes the login".
Proof. repeat split; vm_compute; reflexivity. Qed.

(** ** The stash reference *)







(** ** Further properties *)

(** X1.  For an argument vector whose first element is on the allowlist,
    [runGit] calls [execFile] exactly once, with the program [git], the
    argument vector as it was given, the working directory, the timeout and
    a buffer limit of 10 MiB: no shell, no rewriting of arguments. *)
Theorem runGit_allowed_executes (h : Host) (args : list string) (cwd : string)
    (timeoutMs : Z) (w : World) :
  allowed_head args = true →
  ∃ r, runGit h args cwd timeoutMs w =
       (r, logged (Exec {| prog := "git"; argv := args; opt_cwd := Some cwd;
                           opt_timeout := timeoutMs;
                           opt_maxBuffer := Some 10485760 |}) w).
Proof.
  unfold allowed_head. intros [Ht Ha]%andb_true_iff.
  unfold runGit. rewrite Ht, Ha. cbn [negb orb]. unfold bind, spawn.
  destruct (execFile h w _); eexists; reflexivity.
Qed.

Lemma runGit_allowed_executes_witness :
  ∃ r, runGit (repoHost "dev") ["log"; "-5"; "--oneline"] "/repo" 30000 emptyWorld =
       (r, logged (Exec {| prog := "git"; argv := ["log"; "-5"; "--oneline"];
                           opt_cwd := Some "/repo"; opt_timeout := 30000;
                           opt_maxBuffer := Some 10485760 |}) emptyWorld).
Proof.
  apply (runGit_allowed_executes (repoHost "dev") ["log"; "-5"; "--oneline"]).
  vm_compute. reflexivity.
Defined.

(** X2.  A commit with no files to stage (none given, or an empty list),
    when the payload file can be written: the message, with the configured
    prefix in front, goes into the payload file; [git commit] is given the
    file by [--file] and never the message; the file is unlinked
    afterwards, unless [unlinkSync] throws, which adds nothing.  These are
    the only effects. *)
Theorem commit_message_by_file (h : Host) (cfg : GitOpsConfig) (cwd : string)
    (p : CommitParams) (w : World) :
  ci_files p = None ∨ ci_files p = Some [] →
  writeFile h w
    (join (tmpdir h) ("openclaw-git-msg-" +:+ randomUUID h w +:+ ".txt"))
    (if String.eqb (commitPrefix cfg) "" then ci_message p
     else commitPrefix cfg +:+ ci_message p) = WriteDone →
  ran w (stage_and_commit h cfg cwd p w).2
    ([WroteFile
        (join (tmpdir h) ("openclaw-git-msg-" +:+ randomUUID h w +:+ ".txt"))
        (if String.eqb (commitPrefix cfg) "" then ci_message p
         else commitPrefix cfg +:+ ci_message p);
      gitExec (["commit"] ++ (if ci_all p then ["-a"] else []) ++
               ["--file";
                join (tmpdir h) ("openclaw-git-msg-" +:+ randomUUID h w +:+ ".txt")])
        cwd] ++
     unlinked h
       (logged
          (gitExec (["commit"] ++ (if ci_all p then ["-a"] else []) ++
                    ["--file";
                     join (tmpdir h)
                       ("openclaw-git-msg-" +:+ randomUUID h w +:+ ".txt")])
             cwd)
          (wrote
             (join (tmpdir h) ("openclaw-git-msg-" +:+ randomUUID h w +:+ ".txt"))
             (if String.eqb (commitPrefix cfg) "" then ci_message p
              else commitPrefix cfg +:+ ci_message p)
             w))
       (join (tmpdir h) ("openclaw-git-msg-" +:+ randomUUID h w +:+ ".txt"))).
Proof.
  intros Hfiles Hwrite.
  assert (stage_and_commit h cfg cwd p w =
          (uuid <- newUUID h ;;
           commit_with_file h cwd
             (join (tmpdir h) ("openclaw-git-msg-" +:+ uuid +:+ ".txt"))
             (if truthy (Some (commitPrefix cfg))
              then commitPrefix cfg +:+ ci_message p else ci_message p)
             (ci_all p)) w) as ->.
  { unfold stage_and_commit, bind at 1. now destruct Hfiles as [-> | ->]. }
  unfold commit_with_file, bind, newUUID, try_finally, try_catch,
    writeFileSync, unlinkSync, unlinked, wrote, ran.
  replace (if truthy (Some (commitPrefix cfg))
           then commitPrefix cfg +:+ ci_message p else ci_message p)
    with (if String.eqb (commitPrefix cfg) "" then ci_message p
          else commitPrefix cfg +:+ ci_message p)
    by (unfold truthy; now destruct (String.eqb (commitPrefix cfg) "")).
  rewrite Hwrite.
  assert ((if ci_all p
           then ["commit"; "-a"; "--file";
                 join (tmpdir h) ("openclaw-git-msg-" +:+ randomUUID h w +:+ ".txt")]
           else ["commit"; "--file";
                 join (tmpdir h) ("openclaw-git-msg-" +:+ randomUUID h w +:+ ".txt")]) =
          (["commit"] ++ (if ci_all p then ["-a"] else []) ++
           ["--file";
            join (tmpdir h) ("openclaw-git-msg-" +:+ randomUUID h w +:+ ".txt")])%list)
    as -> by (now destruct (ci_all p)).
  rewrite git_run by (now destruct (ci_all p)).
  unfold gitExec, logged. cbn [fst snd files log].
  destruct (execFile h _ _) as [c|e];
    [destruct (negb (exitCode (resultOf c) =? 0))|];
    unfold ret; cbn [fst snd files log];
    rewrite lookup_insert_eq;
    destruct (unlink h _ _); cbn [fst snd files log];
    now rewrite <- ?app_assoc, ?app_nil_r.
Qed.

Lemma commit_message_by_file_witness :
  ran emptyWorld
    (stage_and_commit (repoHost "dev")
       {| allowForcePush := false; allowMainCommit := false;
          defaultRemote := "origin"; commitPrefix := "[bot] ";
          protectedBranches := ["main"; "master"] |}
       "/repo" {| ci_message := "fix bug"; ci_files := None; ci_all := false |}
       emptyWorld).2
    [WroteFile "/tmp/openclaw-git-msg-123e4567-e89b-42d3-a456-426614174000.txt"
       "[bot] fix bug";
     gitExec ["commit"; "--file";
              "/tmp/openclaw-git-msg-123e4567-e89b-42d3-a456-426614174000.txt"]
       "/repo";
     Unlinked "/tmp/openclaw-git-msg-123e4567-e89b-42d3-a456-426614174000.txt"].
Proof.
  apply (commit_message_by_file (repoHost "dev")
           {| allowForcePush := false; allowMainCommit := false;
              defaultRemote := "origin"; commitPrefix := "[bot] ";
              protectedBranches := ["main"; "master"] |}
           "/repo" {| ci_message := "fix bug"; ci_files := None; ci_all := false |}
           emptyWorld); [now left | reflexivity].
Defined.

Lemma binary_suffix_no_LF (line : string) :
  LF ∉ chars line → LF ∉ chars (line +:+ " [binary — skipped]").
Proof.
  intros Hline. rewrite chars_app. apply not_elem_of_app. split; [exact Hline|].
  vm_compute. intros H.
  repeat (apply elem_of_cons in H as [H|H]; [discriminate H|]).
  now apply elem_of_nil in H.
Qed.

(** X3.  [filterBinaryDiffs] works line by line: the output has the lines
    of the input, in order, each line that begins with [Binary files] and
    holds [differ] extended by the suffix [ [binary — skipped]] and every
    other line unchanged; no line is dropped. *)
Theorem filterBinaryDiffs_lines (text : string) :
  split_lines (filterBinaryDiffs text) =
  map (fun line =>
         if startsWith line "Binary files" && includes line "differ"
         then line +:+ " [binary — skipped]"
         else line)
      (split_lines text).
Proof.
  unfold filterBinaryDiffs. apply split_join_lines.
  - pose proof (split_lines_not_nil text). now destruct (split_lines text).
  - apply Forall_map. eapply Forall_impl; [apply split_lines_no_LF|].
    intros line Hline. cbn beta.
    destruct (startsWith line "Binary files" && includes line "differ");
      [now apply binary_suffix_no_LF | exact Hline].
Qed.

(** ** The validators of [git.ts] *)

Lemma startsWith_cons (s : string) (c : ascii) (p : string) :
  startsWith s (String c p) = true → ∃ s', s = String c s'.
Proof.
  destruct s as [|b s']; cbn [startsWith]; [discriminate|].
  intros [Hc _]%andb_true_iff. apply Ascii.eqb_eq in Hc. subst. now eexists.
Qed.

Lemma includes_char (s : string) (c : ascii) (p : string) :
  includes s (String c p) = true → c ∈ chars s.
Proof.
  induction s as [|b s IH]; cbn [includes].
  - rewrite orb_false_r. intros [s' [=]]%startsWith_cons.
  - intros [H|H]%orb_true_iff.
    + apply startsWith_cons in H as [s' [= -> _]]. rewrite chars_cons. left.
    + rewrite chars_cons. right. now apply IH.
Qed.

Lemma branch_chars_exclude (s : string) (c : ascii) (p : string) :
  Forall (fun c => branch_char c = true) (chars s) → branch_char c = false →
  includes s (String c p) = false.
Proof.
  intros Hall Hc. destruct (includes s (String c p)) eqn:E; [|reflexivity].
  apply includes_char in E. rewrite Forall_forall in Hall.
  apply Hall in E. congruence.
Qed.

Lemma BRANCH_RE_test_chars (s : string) :
  BRANCH_RE_test s = true ↔ s ≠ "" ∧ Forall (fun c => branch_char c = true) (chars s).
Proof.
  unfold BRANCH_RE_test, chars.
  rewrite andb_true_iff, negb_true_iff, String.eqb_neq, forallb_forall, Forall_forall.
  split; intros [H1 H2]; (split; [exact H1|]); intros c Hc; apply H2.
  - now apply list_elem_of_In.
  - now apply list_elem_of_In.
Qed.

(** X4.  [validateBranchName] accepts exactly the non-empty names over the
    class of [BRANCH_RE] that neither begin with a dash or a dot, nor end
    with a dot or with [.lock], nor hold two dots in a row.  The tests for
    [@{], the tilde, the caret and the blank refuse nothing the class would
    let through. *)
Theorem validateBranchName_accepts (name : string) :
  validateBranchName name = None ↔
  name ≠ "" ∧ Forall (fun c => branch_char c = true) (chars name) ∧
  startsWith name "-" = false ∧ startsWith name "." = false ∧
  endsWith name "." = false ∧ endsWith name ".lock" = false ∧
  includes name ".." = false.
Proof.
  unfold validateBranchName. split.
  - destruct (String.eqb name "") eqn:E0; [discriminate|].
    destruct (startsWith name "-") eqn:E1; [discriminate|].
    destruct (startsWith name ".") eqn:E2; [discriminate|].
    destruct (endsWith name ".") eqn:E3; [discriminate|].
    destruct (endsWith name ".lock") eqn:E4; [discriminate|].
    destruct (includes name "..") eqn:E5; [discriminate|].
    cbn [orb].
    destruct (_ || _); [discriminate|].
    destruct (BRANCH_RE_test name) eqn:E6; [|discriminate].
    intros _. apply BRANCH_RE_test_chars in E6 as [H1 H2]. repeat split; assumption.
  - intros (H0 & Hall & -> & -> & -> & -> & ->).
    rewrite eqb_empty_false by exact H0. cbn [orb].
    rewrite !branch_chars_exclude by (exact Hall || reflexivity). cbn [orb].
    now rewrite (proj2 (BRANCH_RE_test_chars name)).
Qed.

Lemma branch_char_not_meta (c : ascii) :
  branch_char c = true → shell_meta_char c = false.
Proof.
  destruct c as [[] [] [] [] [] [] [] []]; vm_compute; congruence.
Qed.

Lemma branch_chars_no_meta (s : string) :
  forallb branch_char (list_ascii_of_string s) = true → SHELL_META_test s = false.
Proof.
  unfold SHELL_META_test.
  induction (list_ascii_of_string s) as [|c l IH]; [reflexivity|].
  cbn [forallb existsb]. intros [Hc Hl]%andb_true_iff.
  now rewrite branch_char_not_meta, IH.
Qed.

(** X5.  A name [validateBranchName] accepts holds no shell metacharacter,
    and [validateRef] and [validateFilePath] accept it as well: an accepted
    branch name can stand wherever a ref or a path is asked for. *)
Theorem branch_name_is_ref (name : string) :
  validateBranchName name = None →
  SHELL_META_test name = false ∧
  validateRef name = None ∧ validateFilePath name = None.
Proof.
  unfold validateBranchName, validateRef, validateFilePath.
  destruct (String.eqb name ""); [discriminate|].
  destruct (startsWith name "-"); [discriminate|].
  destruct (_ || _); [discriminate|].
  destruct (_ || _); [discriminate|].
  unfold BRANCH_RE_test.
  destruct (forallb branch_char _) eqn:E; [|now rewrite andb_false_r].
  intros _. now rewrite (branch_chars_no_meta name E).
Qed.

Lemma branch_name_is_ref_witness :
  SHELL_META_test "feature/login-2" = false ∧
  validateRef "feature/login-2" = None ∧ validateFilePath "feature/login-2" = None.
Proof.
  apply (branch_name_is_ref "feature/login-2"). vm_compute. reflexivity.
Defined.

Lemma rejected_validateBranchName (s : string) :
  rejected (validateBranchName s) = validateBranchName s.
Proof.
  unfold validateBranchName.
  repeat match goal with
         | |- context [if ?b then _ else _] => destruct b
         end; reflexivity.
Qed.

Lemma rejected_validateRef (s : string) : rejected (validateRef s) = validateRef s.
Proof.
  unfold validateRef.
  repeat match goal with
         | |- context [if ?b then _ else _] => destruct b
         end; reflexivity.
Qed.

Lemma rejected_validateFilePath (s : string) :
  rejected (validateFilePath s) = validateFilePath s.
Proof.
  unfold validateFilePath.
  repeat match goal with
         | |- context [if ?b then _ else _] => destruct b
         end; reflexivity.
Qed.

(** X6.  Every reason the three validators give is a non-empty string, so
    the test [if (v) return err(v)] of the tools lets no refusal pass. *)
Theorem validator_reasons_truthy (s : string) :
  rejected (validateBranchName s) = validateBranchName s ∧
  rejected (validateRef s) = validateRef s ∧
  rejected (validateFilePath s) = validateFilePath s.
Proof.
  split; [apply rejected_validateBranchName|].
  split; [apply rejected_validateRef | apply rejected_validateFilePath].
Qed.

(** ** The output governor, further *)

(** X7.  For a limit [n] that is not negative, the answer of
    [truncateOutput] has at most [n + 2] lines, its first [n] lines are
    the first [n] lines of the text, and when the text is longer its last
    line announces how many lines were dropped. *)
Theorem truncateOutput_bounded (text label : string) (n : Z) :
  0 <= n → LF ∉ chars label →
  line_count (truncateOutput text n label) <= n + 2 ∧
  take (Z.to_nat n) (split_lines (truncateOutput text n label)) =
  take (Z.to_nat n) (split_lines text) ∧
  (n < line_count text →
   last (split_lines (truncateOutput text n label)) =
   Some (truncation_notice (line_count text - n) label)).
Proof.
  intros Hn Hlabel. destruct (Z.le_gt_cases (line_count text) n) as [Hle|Hgt].
  - rewrite truncateOutput_short by exact Hle.
    split; [lia|]. split; [reflexivity|]. intros H. exfalso. lia.
  - rewrite truncateOutput_line_count, truncateOutput_lines by (lia || assumption).
    split; [lia|]. split.
    + unfold line_count in Hgt.
      rewrite take_app_le by (rewrite length_take; lia).
      rewrite take_take. f_equal. lia.
    + intros _.
      change [""; truncation_notice (line_count text - n) label]
        with ([""] ++ [truncation_notice (line_count text - n) label])%list.
      now rewrite app_assoc, last_snoc.
Qed.

Lemma truncateOutput_bounded_witness :
  line_count (truncateOutput ("a" +:+ chr 10 +:+ "b" +:+ chr 10 +:+ "c") 1 "diff") <= 1 + 2 ∧
  take (Z.to_nat 1)
    (split_lines (truncateOutput ("a" +:+ chr 10 +:+ "b" +:+ chr 10 +:+ "c") 1 "diff")) =
  take (Z.to_nat 1) (split_lines ("a" +:+ chr 10 +:+ "b" +:+ chr 10 +:+ "c")) ∧
  (1 < line_count ("a" +:+ chr 10 +:+ "b" +:+ chr 10 +:+ "c") →
   last (split_lines (truncateOutput ("a" +:+ chr 10 +:+ "b" +:+ chr 10 +:+ "c") 1 "diff")) =
   Some (truncation_notice (line_count ("a" +:+ chr 10 +:+ "b" +:+ chr 10 +:+ "c") - 1) "diff")).
Proof.
  apply (truncateOutput_bounded ("a" +:+ chr 10 +:+ "b" +:+ chr 10 +:+ "c") "diff" 1).
  - lia.
  - vm_compute. intros H.
    repeat (apply elem_of_cons in H as [H|H]; [discriminate H|]).
    now apply elem_of_nil in H.
Defined.

Lemma startsWith_step (a b : ascii) (s p : string) :
  startsWith (String b s) (String a p) = Ascii.eqb a b && startsWith s p.
Proof. reflexivity. Qed.

Lemma startsWith_app (a b p : string) :
  startsWith a p = true → startsWith (a +:+ b) p = true.
Proof.
  revert a. induction p as [|c p IH]; intros a; [reflexivity|].
  destruct a as [|d a]; [discriminate|].
  rewrite append_cons, !startsWith_step.
  intros [-> H]%andb_true_iff. now rewrite IH.
Qed.

Lemma includes_app_r (a b p : string) :
  includes a p = true → includes (a +:+ b) p = true.
Proof.
  induction a as [|c a IH].
  - destruct p as [|c p]; [intros _; now destruct b|].
    cbn [includes]. rewrite orb_false_r. discriminate.
  - rewrite append_cons. cbn [includes].
    intros [H|H]%orb_true_iff.
    + apply (startsWith_app _ b) in H. rewrite append_cons in H. now rewrite H.
    + rewrite IH by exact H. apply orb_true_r.
Qed.

Lemma includes_app_l (a b p : string) :
  includes b p = true → includes (a +:+ b) p = true.
Proof.
  intros H. induction a as [|c a IH]; [exact H|].
  rewrite append_cons. cbn [includes]. rewrite IH. apply orb_true_r.
Qed.

Lemma append_assoc (a b c : string) : (a +:+ b) +:+ c = a +:+ (b +:+ c).
Proof. induction a as [|x a IH]; [reflexivity|]. now rewrite !append_cons, IH. Qed.

Lemma append_empty_r (a : string) : a +:+ "" = a.
Proof. induction a as [|x a IH]; [reflexivity|]. now rewrite append_cons, IH. Qed.

(** A line of a text is a piece of it. *)
Lemma join_lines_piece (ls : list string) (line : string) :
  line ∈ ls → ∃ a b, join_lines ls = a +:+ line +:+ b.
Proof.
  induction ls as [|x [|y ls] IH].
  - intros H. now apply elem_of_nil in H.
  - intros ->%list_elem_of_singleton. exists "", "". cbn.
    now rewrite append_empty_r.
  - rewrite join_lines_cons. intros [->|H]%elem_of_cons.
    + now exists "", (String LF (join_lines (y :: ls))).
    + destruct (IH H) as (a & b & ->). exists (x +:+ String LF a), b.
      now rewrite append_assoc, append_cons.
Qed.

Lemma includes_line (text line p : string) :
  line ∈ split_lines text → includes line p = true → includes text p = true.
Proof.
  intros Hline Hp. rewrite <- (join_split_lines text).
  destruct (join_lines_piece _ _ Hline) as (a & b & ->).
  now apply includes_app_l, includes_app_r.
Qed.

Lemma startsWith_includes (s p : string) :
  startsWith s p = true → includes s p = true.
Proof. intros H. destruct s; cbn [includes]; now rewrite H. Qed.

(** X8.  A text that [isBinaryDiff] does not take for a binary diff passes
    through [filterBinaryDiffs] unchanged. *)
Theorem filterBinaryDiffs_unmarked (text : string) :
  isBinaryDiff text = false → filterBinaryDiffs text = text.
Proof.
  unfold isBinaryDiff, filterBinaryDiffs. intros Hno.
  rewrite <- (join_split_lines text) at 2. f_equal.
  rewrite <- (map_id (split_lines text)) at 2.
  apply map_ext_in. intros line Hline%list_elem_of_In.
  destruct (startsWith line "Binary files") eqn:E1; [|reflexivity].
  destruct (includes line "differ") eqn:E2; [|reflexivity].
  apply startsWith_includes in E1.
  rewrite (includes_line text line "Binary files"),
    (includes_line text line "differ") in Hno by assumption.
  discriminate Hno.
Qed.

Lemma filterBinaryDiffs_unmarked_witness :
  filterBinaryDiffs ("diff --git a/x b/x" +:+ chr 10 +:+ "+differ") =
  "diff --git a/x b/x" +:+ chr 10 +:+ "+differ".
Proof.
  apply (filterBinaryDiffs_unmarked ("diff --git a/x b/x" +:+ chr 10 +:+ "+differ")).
  vm_compute. reflexivity.
Defined.

(** ** Footprints *)

Lemma confined_refl (P : Effect → Prop) (w : World) : confined P w w.
Proof. split; [|reflexivity]. exists []. split; [apply ran_refl | constructor]. Qed.

Lemma confined_trans (P : Effect → Prop) (w1 w2 w3 : World) :
  confined P w1 w2 → confined P w2 w3 → confined P w1 w3.
Proof.
  intros [(a & Ha & Pa) Fa] [(b & Hb & Pb) Fb]. split; [|congruence].
  exists (a ++ b)%list. split; [now apply (ran_trans w1 w2 w3) | now apply Forall_app].
Qed.

Lemma confined_logged (P : Effect → Prop) (e : Effect) (w : World) :
  P e → confined P w (logged e w).
Proof.
  intros He. split; [|reflexivity].
  exists [e]. split; [apply ran_logged | now repeat constructor].
Qed.

Lemma confines_ret {A} (P : Effect → Prop) (a : A) : confines P (ret a).
Proof. intros w. apply confined_refl. Qed.

Lemma confines_throw {A} (P : Effect → Prop) (msg : string) :
  confines P (throw (A := A) msg).
Proof. intros w. apply confined_refl. Qed.

Lemma confines_bind {A B} (P : Effect → Prop) (m : M A) (k : A → M B) :
  confines P m → (∀ a, confines P (k a)) → confines P (bind m k).
Proof.
  intros Hm Hk w. unfold bind. specialize (Hm w).
  destruct (m w) as [[a|e] w1]; cbn [snd] in *; [|exact Hm].
  eapply confined_trans; [exact Hm | apply Hk].
Qed.

Lemma confines_try_catch {A} (P : Effect → Prop) (m : M A) (k : string → M A) :
  confines P m → (∀ e, confines P (k e)) → confines P (try_catch m k).
Proof.
  intros Hm Hk w. unfold try_catch. specialize (Hm w).
  destruct (m w) as [[a|e] w1]; cbn [snd] in *; [exact Hm|].
  eapply confined_trans; [exact Hm | apply Hk].
Qed.

Lemma confines_git (P : Effect → Prop) (h : Host) (args : list string) (cwd : string) :
  P (gitExec args cwd) → confines P (git h args cwd).
Proof.
  intros HP w. destruct (allowed_head args) eqn:E.
  - rewrite git_run by exact E.
    destruct (execFile h w _); now apply confined_logged.
  - unfold git. rewrite runGit_blocked; [apply confined_refl|].
    unfold allowed_head in E. now destruct (truthy (head args)), (bool_decide _).
Qed.

(** Walks through a monadic term; what is left are the conditions on the
    calls of git. *)
Ltac confine :=
  repeat match goal with
         | |- confines _ (ret _) => apply confines_ret
         | |- confines _ (throw _) => apply confines_throw
         | |- confines _ (git _ _ _) => apply confines_git
         | |- confines _ (bind _ _) => apply confines_bind; [|intros ?]
         | |- confines _ (try_catch _ _) => apply confines_try_catch; [|intros ?]
         | |- confines _ (match ?x with _ => _ end) => destruct x eqn:?
         end.

Lemma git_call_intro (subs : list string) (sub : string) (rest : list string)
    (cwd : string) :
  bool_decide (sub ∈ subs) = true → git_call subs (gitExec (sub :: rest) cwd).
Proof. intros H%bool_decide_eq_true. now exists sub, rest, cwd. Qed.

Lemma flags_only_intro (flags : list string) (args : list string) (cwd : string) :
  (∀ a, a ∈ args → startsWith a "-" = true → a ∈ flags) →
  flags_only flags (gitExec args cwd).
Proof. intros H a Ha Hd. left. now apply H. Qed.

Lemma literal_args (flags : list string) (args : list string) (cwd : string) :
  forallb (fun a => negb (startsWith a "-") || bool_decide (a ∈ flags)) args = true →
  flags_only flags (gitExec args cwd).
Proof.
  intros H. apply flags_only_intro. intros a Ha Hd.
  rewrite forallb_forall in H. apply list_elem_of_In, H in Ha.
  rewrite Hd in Ha. now apply bool_decide_eq_true in Ha.
Qed.

Lemma confines_isGitRepo (P : Effect → Prop) (h : Host) (cwd : string) :
  P (gitExec ["rev-parse"; "--is-inside-work-tree"] cwd) →
  confines P (isGitRepo h cwd).
Proof. intros HP. unfold isGitRepo. confine. exact HP. Qed.

Lemma confines_repoGuard (P : Effect → Prop) (h : Host) (cwd : string) :
  P (gitExec ["rev-parse"; "--is-inside-work-tree"] cwd) →
  confines P (repoGuard h cwd).
Proof.
  intros HP. unfold repoGuard, requireRepo. confine.
  now apply confines_isGitRepo.
Qed.

Lemma confines_getCurrentBranch (P : Effect → Prop) (h : Host) (cwd : string) :
  P (gitExec ["symbolic-ref"; "--short"; "HEAD"] cwd) →
  P (gitExec ["rev-parse"; "--short"; "HEAD"] cwd) →
  confines P (getCurrentBranch h cwd).
Proof. intros H1 H2. unfold getCurrentBranch. confine; assumption. Qed.

Ltac confine_tool :=
  repeat match goal with
         | |- confines _ (ret _) => apply confines_ret
         | |- confines _ (throw _) => apply confines_throw
         | |- confines _ (git _ _ _) => apply confines_git
         | |- confines _ (repoGuard _ _) => apply confines_repoGuard
         | |- confines _ (isGitRepo _ _) => apply confines_isGitRepo
         | |- confines _ (getCurrentBranch _ _) => apply confines_getCurrentBranch
         | |- confines _ (bind _ _) => apply confines_bind; [|intros ?]
         | |- confines _ (try_catch _ _) => apply confines_try_catch; [|intros ?]
         | |- confines _ (match ?x with _ => _ end) => destruct x eqn:?
         end.

(** Membership in a list of literals. *)
Ltac listed := apply (bool_decide_unpack _); reflexivity.

(** A call of git with literal arguments. *)
Ltac literal_call :=
  split; [apply git_call_intro; reflexivity | apply literal_args; reflexivity].

(** ** What the validators keep out of an argument vector *)

Lemma branch_not_dash (s : string) :
  rejected (validateBranchName s) = None → startsWith s "-" = false.
Proof.
  rewrite rejected_validateBranchName. unfold validateBranchName.
  destruct (String.eqb s ""); [discriminate|].
  now destruct (startsWith s "-").
Qed.

Lemma ref_not_dash (s : string) :
  rejected (validateRef s) = None → startsWith s "-" = false.
Proof.
  rewrite rejected_validateRef. unfold validateRef.
  destruct (String.eqb s ""); [discriminate|].
  now destruct (startsWith s "-").
Qed.

Lemma path_not_dash (s : string) :
  rejected (validateFilePath s) = None → startsWith s "-" = false.
Proof.
  rewrite rejected_validateFilePath. unfold validateFilePath.
  destruct (String.eqb s ""); [discriminate|].
  now destruct (startsWith s "-").
Qed.

Lemma first_bad_path_None (paths : list string) :
  first_bad_path paths = None → ∀ p, p ∈ paths → rejected (validateFilePath p) = None.
Proof.
  induction paths as [|q paths IH]; cbn [first_bad_path].
  - intros _ p Hp. now apply elem_of_nil in Hp.
  - destruct (rejected (validateFilePath q)) eqn:E; [discriminate|].
    intros H p [->|Hp]%elem_of_cons; auto.
Qed.

Lemma pathArgs_dash (paths : option (list string)) (a : string) :
  pathError paths = None → a ∈ pathArgs paths → startsWith a "-" = true → a = "--".
Proof.
  unfold pathError, pathArgs. destruct paths as [[|p ps]|].
  - intros _ Ha. now apply elem_of_nil in Ha.
  - destruct (first_bad_path (p :: ps)) as [[bad v]|] eqn:E; [discriminate|].
    intros _ [->|Ha]%elem_of_cons Hd; [reflexivity|].
    rewrite path_not_dash in Hd; [discriminate|].
    now apply (first_bad_path_None (p :: ps)).
  - intros _ Ha. now apply elem_of_nil in Ha.
Qed.

Lemma pushed_checked (validate : string → option string)
    (render : string → string) (x : option string) (a : string) :
  checked validate x = None → a ∈ pushed render x →
  ∃ v, x = Some v ∧ a = render v ∧ rejected (validate v) = None.
Proof.
  unfold checked, pushed. destruct (truthy x) eqn:E.
  - intros Hv ->%list_elem_of_singleton. destruct x as [v|]; [|discriminate E].
    now exists v.
  - intros _ Ha. now apply elem_of_nil in Ha.
Qed.

(** ** The reading tools *)

Lemma diffArgs_dash (p : DiffParams) (a : string) :
  diffError p = None → a ∈ diffArgs p → startsWith a "-" = true →
  a ∈ ["--is-inside-work-tree"; "--cached"; "--name-only"; "--"].
Proof.
  unfold diffError, diffArgs. intros Herr Ha Hd.
  destruct (checked validateRef (df_ref1 p)) eqn:E1; [discriminate|].
  destruct (checked validateRef (df_ref2 p)) eqn:E2; [discriminate|].
  rewrite !elem_of_app in Ha.
  destruct Ha as [Ha|[Ha|[Ha|[Ha|[Ha|Ha]]]]].
  - apply list_elem_of_singleton in Ha as ->. discriminate Hd.
  - destruct (df_staged p); [|now apply elem_of_nil in Ha].
    apply list_elem_of_singleton in Ha as ->. listed.
  - destruct (df_nameOnly p); [|now apply elem_of_nil in Ha].
    apply list_elem_of_singleton in Ha as ->. listed.
  - destruct (pushed_checked _ _ _ _ E1 Ha) as (v & _ & -> & Hv).
    apply ref_not_dash in Hv. cbn [id] in Hd. congruence.
  - destruct (pushed_checked _ _ _ _ E2 Ha) as (v & _ & -> & Hv).
    apply ref_not_dash in Hv. cbn [id] in Hd. congruence.
  - rewrite (pathArgs_dash _ _ Herr Ha Hd). listed.
Qed.

(** X9.  Whatever its parameters and whatever git answers, [git_diff]
    calls git only with [rev-parse] and [diff], changes no file, and hands
    git no argument that begins with a dash other than the four it writes
    itself: refs and paths of the caller cannot be read as options. *)
Theorem git_diff_calls (h : Host) (cwd : string) (p : DiffParams) :
  confines
    (fun e => git_call ["rev-parse"; "diff"] e ∧
              flags_only ["--is-inside-work-tree"; "--cached"; "--name-only"; "--"] e)
    (git_diff h cwd p).
Proof.
  unfold git_diff. confine_tool; [literal_call|].
  split; [apply git_call_intro; reflexivity|].
  apply flags_only_intro. intros arg. now apply diffArgs_dash.
Qed.

(** Splits the membership of an argument in a literal vector into its
    cases. *)
Ltac each_arg H :=
  repeat (apply elem_of_cons in H as [->|H]); [..|now apply elem_of_nil in H].

Lemma logArgs_dash (validateLogFilter : string → string → option string)
    (p : LogParams) (a : string) :
  logError validateLogFilter p = None → a ∈ logArgs p → startsWith a "-" = true →
  a ∈ ["--is-inside-work-tree"; "--oneline"; "--format=%h %an %ad %s";
       "--date=short"; "--"] ∨
  (a = "-" +:+ Number_toString (logCount p) ∨
   (∃ v, lg_author p = Some v ∧ a = "--author=" +:+ v) ∨
   (∃ v, lg_since p = Some v ∧ a = "--since=" +:+ v) ∨
   (∃ v, lg_grep p = Some v ∧ a = "--grep=" +:+ v)).
Proof.
  unfold logError, logArgs. intros Herr Ha Hd.
  destruct (checked validateRef (lg_ref p)) eqn:E1; [discriminate|].
  destruct (checked _ (lg_author p)) eqn:E2; [discriminate|].
  destruct (checked _ (lg_since p)) eqn:E3; [discriminate|].
  destruct (checked _ (lg_grep p)) eqn:E4; [discriminate|].
  rewrite !elem_of_app in Ha.
  destruct Ha as [Ha|[Ha|[Ha|[Ha|[Ha|[Ha|Ha]]]]]].
  - each_arg Ha; [discriminate Hd|]. right. now left.
  - left. destruct (lg_oneline p); each_arg Ha; listed.
  - destruct (pushed_checked _ _ _ _ E1 Ha) as (v & _ & -> & Hv).
    apply ref_not_dash in Hv. cbn [id] in Hd. congruence.
  - destruct (pushed_checked _ _ _ _ E2 Ha) as (v & Hp & -> & _). right. eauto 6.
  - destruct (pushed_checked _ _ _ _ E3 Ha) as (v & Hp & -> & _). right. eauto 6.
  - destruct (pushed_checked _ _ _ _ E4 Ha) as (v & Hp & -> & _). right. eauto 7.
  - left. rewrite (pathArgs_dash _ _ Herr Ha Hd). listed.
Qed.

(** X10.  Whatever its parameters, the validator of the log filters and
    the answers of git, [git_log] calls git only with [rev-parse] and
    [log] and changes no file.  An argument that begins with a dash is one
    of the five the tool writes itself, the entry count, or a filter of the
    caller behind its own [--author=], [--since=] or [--grep=]: the ref and
    the paths of the caller cannot be read as options.  The entry count is
    at most 200; it is 20 when the caller gives none, and a count of the
    caller of at most 200 is passed on as it is, also when it is 0 or
    negative. *)
Theorem git_log_calls (h : Host) (validateLogFilter : string → string → option string)
    (cwd : string) (p : LogParams) :
  confines
    (fun e =>
       git_call ["rev-parse"; "log"] e ∧
       dash_args ["--is-inside-work-tree"; "--oneline"; "--format=%h %an %ad %s";
                  "--date=short"; "--"]
         (fun a => a = "-" +:+ Number_toString (logCount p) ∨
                   (∃ v, lg_author p = Some v ∧ a = "--author=" +:+ v) ∨
                   (∃ v, lg_since p = Some v ∧ a = "--since=" +:+ v) ∨
                   (∃ v, lg_grep p = Some v ∧ a = "--grep=" +:+ v)) e)
    (git_log h validateLogFilter cwd p) ∧
  logCount p <= 200 ∧
  (lg_count p = None → logCount p = 20) ∧
  (∀ n, lg_count p = Some n → n <= 200 → logCount p = n).
Proof.
  split.
  2:{ unfold logCount, MAX_LOG_ENTRIES. split; [lia|]. split.
      - now intros ->.
      - intros n -> Hn. cbn. lia. }
  unfold git_log. confine_tool.
  - split; [apply git_call_intro; reflexivity|].
    intros arg Harg Hdash. left. cbn [argv gitSpawn] in Harg.
    each_arg Harg; [discriminate Hdash | listed].
  - split; [apply git_call_intro; reflexivity|].
    intros arg. now apply (logArgs_dash validateLogFilter).
Qed.

(** X11.  [git_blame] calls git only with [rev-parse] and [blame] and
    changes no file.  Every [git blame] it runs has the file as its last
    argument, directly behind [--], and only for a file [validateFilePath]
    accepts; what stands between [blame] and [--] is at most one range
    option [-L...]. *)
Theorem git_blame_calls (h : Host) (cwd : string) (p : BlameParams) :
  confines
    (fun e =>
       e = gitExec ["rev-parse"; "--is-inside-work-tree"] cwd ∨
       ∃ range,
         e = gitExec ("blame" :: range ++ ["--"; bl_file p]) cwd ∧
         validateFilePath (bl_file p) = None ∧
         (length range <= 1)%nat ∧
         Forall (fun a => startsWith a "-L" = true) range)
    (git_blame h cwd p).
Proof.
  unfold git_blame. cbv zeta. confine_tool; [now left|]. right.
  match goal with
  | H : rejected (validateFilePath _) = None |- _ =>
      rewrite rejected_validateFilePath in H; rename H into Hfile
  end.
  unfold blameArgs.
  destruct (truthyZ (bl_startLine p)), (truthyZ (bl_endLine p)); cbn [andb];
    eexists; (split; [reflexivity|]); (split; [exact Hfile|]);
    (split; [cbn; lia|]); repeat constructor.
Qed.

Lemma pullArgs_dash (validateRemoteName : string → option string)
    (p : PullParams) (a : string) :
  (∀ s, startsWith s "-" = true → truthy (validateRemoteName s) = true) →
  pullError validateRemoteName p = None → a ∈ pullArgs p →
  startsWith a "-" = true →
  a ∈ ["--is-inside-work-tree"; "--rebase"].
Proof.
  unfold pullError, pullArgs. intros Hdash Herr Ha Hd.
  destruct (checked validateRemoteName (pl_remote p)) eqn:E1; [discriminate|].
  destruct (checked validateRef (pl_branch p)) eqn:E2; [discriminate|].
  rewrite !elem_of_app in Ha.
  destruct Ha as [Ha|[Ha|[Ha|Ha]]].
  - each_arg Ha. discriminate Hd.
  - destruct (pl_rebase p); each_arg Ha. listed.
  - destruct (pushed_checked _ _ _ _ E1 Ha) as (v & _ & -> & Hv).
    apply rejected_None_truthy in Hv. cbn [id] in Hd.
    rewrite Hdash in Hv by exact Hd. discriminate.
  - destruct (pushed_checked _ _ _ _ E2 Ha) as (v & _ & -> & Hv).
    apply ref_not_dash in Hv. cbn [id] in Hd. congruence.
Qed.

(** X12.  With a remote-name validator that refuses a leading dash,
    [git_pull] calls git only with [rev-parse] and [pull], changes no file
    itself, and hands git no argument that begins with a dash other than
    [--rebase]: the remote and the branch of the caller cannot be read as
    options. *)
Theorem git_pull_calls (h : Host) (validateRemoteName : string → option string)
    (cwd : string) (p : PullParams) :
  (∀ s, startsWith s "-" = true → truthy (validateRemoteName s) = true) →
  confines
    (fun e => git_call ["rev-parse"; "pull"] e ∧
              flags_only ["--is-inside-work-tree"; "--rebase"] e)
    (git_pull h validateRemoteName cwd p).
Proof.
  intros Hdash. unfold git_pull. confine_tool; [literal_call|].
  split; [apply git_call_intro; reflexivity|].
  apply flags_only_intro. intros arg. now apply (pullArgs_dash validateRemoteName).
Qed.

Lemma git_pull_calls_witness :
  confines
    (fun e => git_call ["rev-parse"; "pull"] e ∧
              flags_only ["--is-inside-work-tree"; "--rebase"] e)
    (git_pull (repoHost "dev") Spec.validateRemoteName "/repo"
       {| pl_remote := Some "origin"; pl_branch := Some "dev"; pl_rebase := true |}).
Proof.
  apply (git_pull_calls (repoHost "dev") Spec.validateRemoteName "/repo"
           {| pl_remote := Some "origin"; pl_branch := Some "dev"; pl_rebase := true |}).
  intros s Hs. unfold Spec.validateRemoteName. now rewrite Hs.
Defined.

Lemma one_of_intro (cmds : list (list string)) (cwd : string) (args : list string) :
  bool_decide (args ∈ cmds) = true → one_of cmds cwd (gitExec args cwd).
Proof. intros H%bool_decide_eq_true. now exists args. Qed.

(** X13.  [git_status], the slash command [/git] and the CLI action
    [status] take nothing from the caller into a command: every call they
    make of git is one of a fixed set of argument vectors, all of them
    queries, and they change no file. *)
Theorem status_commands_fixed (h : Host) (cwd : string) (p : StatusParams) :
  confines
    (one_of [["rev-parse"; "--is-inside-work-tree"];
             ["symbolic-ref"; "--short"; "HEAD"]; ["rev-parse"; "--short"; "HEAD"];
             ["status"; "--short"]; ["status"; "--long"];
             ["diff"; "--name-only"; "--diff-filter=U"]] cwd)
    (git_status h cwd p) ∧
  confines
    (one_of [["rev-parse"; "--is-inside-work-tree"];
             ["symbolic-ref"; "--short"; "HEAD"]; ["rev-parse"; "--short"; "HEAD"];
             ["status"; "--short"]; ["log"; "-5"; "--oneline"]] cwd)
    (git_command h cwd) ∧
  confines
    (one_of [["rev-parse"; "--is-inside-work-tree"];
             ["symbolic-ref"; "--short"; "HEAD"]; ["rev-parse"; "--short"; "HEAD"];
             ["status"; "--short"]] cwd)
    (cli_status h cwd).
Proof.
  split; [|split].
  - unfold git_status. cbv zeta. confine_tool;
      try (apply one_of_intro; reflexivity).
    destruct (sp_short p); apply one_of_intro; reflexivity.
  - unfold git_command. cbv zeta. confine_tool; apply one_of_intro; reflexivity.
  - unfold cli_status. confine_tool; apply one_of_intro; reflexivity.
Qed.

Lemma cliCount_range (opt : string) : 1 <= cliCount opt <= 200.
Proof. unfold cliCount. lia. Qed.

Lemma cliCount_decimal_upto (k : nat) :
  forallb (fun n => cliCount (Number_toString (Z.of_nat n)) =? Z.of_nat n)
          (seq 1 k) = true →
  ∀ n, 1 <= n <= Z.of_nat k → cliCount (Number_toString n) = n.
Proof.
  intros H n Hn. rewrite forallb_forall in H.
  specialize (H (Z.to_nat n)). rewrite Z2Nat.id in H by lia.
  apply Z.eqb_eq, H, in_seq. lia.
Qed.

(** X14.  The entry count of the CLI action [log]: whatever text the
    option [--count] holds, [git log] is asked for between 1 and 200
    entries; the decimal numeral of a number from 1 to 200 asks for exactly
    that many, and a text [parseInt] cannot read, or one that reads as 0,
    for 20.  The action calls git for nothing else but the repository check
    and changes no file. *)
Theorem cli_log_count (h : Host) (cwd opt : string) :
  confines
    (fun e => e = gitExec ["rev-parse"; "--is-inside-work-tree"] cwd ∨
              e = gitExec ["log"; "-" +:+ Number_toString (cliCount opt); "--oneline"] cwd)
    (cli_log h cwd opt) ∧
  1 <= cliCount opt <= 200 ∧
  (∀ n, 1 <= n <= 200 → cliCount (Number_toString n) = n) ∧
  (parseInt opt = None ∨ parseInt opt = Some 0 → cliCount opt = 20).
Proof.
  split; [|split; [apply cliCount_range|split]].
  - unfold cli_log. cbv zeta. confine_tool; [now left | now right].
  - apply (cliCount_decimal_upto 200). vm_compute. reflexivity.
  - unfold cliCount. now intros [->| ->].
Qed.

(** ** The branch and push tools *)

(** X15.  Whatever its parameters, [git_branch] calls git only with
    [rev-parse], [branch] and [switch], changes no file, and hands git no
    argument that begins with a dash other than [-v], [-a] and [-d], which
    it writes itself: neither the name nor the start point of the caller can
    be read as an option. *)
Theorem git_branch_calls (h : Host) (cfg : GitOpsConfig) (cwd : string)
    (p : BranchParams) :
  confines
    (fun e => git_call ["rev-parse"; "branch"; "switch"] e ∧
              flags_only ["--is-inside-work-tree"; "-v"; "-a"; "-d"] e)
    (git_branch h cfg cwd p).
Proof.
  unfold git_branch. cbv zeta. confine_tool;
    try literal_call;
    try match goal with
        | H : rejected (validateBranchName _) = None |- _ =>
            apply branch_not_dash in H; rename H into Hname
        end.
  - destruct (br_all p); literal_call.
  - split; [apply git_call_intro; reflexivity|].
    apply flags_only_intro. intros arg Harg Hdash.
    destruct (truthy (br_startPoint p)) eqn:Esp; cbn [app] in Harg;
      each_arg Harg; try discriminate Hdash; try congruence.
    match goal with
    | H : rejected (validateRef _) = None |- _ => apply ref_not_dash in H
    end. congruence.
  - split; [apply git_call_intro; reflexivity|].
    apply flags_only_intro. intros arg Harg Hdash.
    each_arg Harg; try discriminate Hdash; congruence.
  - split; [apply git_call_intro; reflexivity|].
    apply flags_only_intro. intros arg Harg Hdash.
    each_arg Harg; try discriminate Hdash; try congruence. listed.
Qed.

Lemma strip_detached_named (b : string) :
  startsWith b "(detached" = false → strip_detached b = b.
Proof.
  intros H. unfold strip_detached, detached_re_test, drop_prefix. now rewrite H.
Qed.

Lemma pushArgs_dash (validateRemoteName : string → option string)
    (remote : string) (branch : option string) (p : PushParams) (a : string) :
  (∀ s, startsWith s "-" = true → truthy (validateRemoteName s) = true) →
  rejected (validateRemoteName remote) = None →
  pushBranchError branch = None →
  a ∈ pushArgs remote branch p → startsWith a "-" = true →
  a ∈ ["--is-inside-work-tree"; "--short"; "--force-with-lease"; "-u"; "--dry-run"].
Proof.
  unfold pushArgs. intros Hdash Hremote Hbranch Ha Hd.
  rewrite !elem_of_app in Ha.
  destruct Ha as [Ha|[Ha|[Ha|[Ha|[Ha|Ha]]]]].
  - each_arg Ha. discriminate Hd.
  - destruct (pu_force p); each_arg Ha. listed.
  - destruct (pu_setUpstream p); each_arg Ha. listed.
  - destruct (pu_dryRun p); each_arg Ha. listed.
  - each_arg Ha. apply rejected_None_truthy in Hremote.
    rewrite Hdash in Hremote by exact Hd. discriminate.
  - destruct (truthy branch) eqn:Et; [|now apply elem_of_nil in Ha].
    destruct (startsWith (default "" branch) "(detached") eqn:Edet;
      [now apply elem_of_nil in Ha|].
    cbn [andb negb] in Ha. each_arg Ha.
    unfold pushBranchError in Hbranch. rewrite Et, Edet in Hbranch.
    rewrite strip_detached_named in Hbranch by exact Edet.
    destruct (rejected (validateBranchName (default "" branch))) eqn:E;
      [discriminate|].
    apply branch_not_dash in E. congruence.
Qed.

(** X16.  With a remote-name validator that refuses a leading dash,
    [git_push] calls git only with [rev-parse], [symbolic-ref] and [push],
    changes no file, and hands git no argument that begins with a dash
    other than those it writes itself; [--force] is not among them. *)
Theorem git_push_calls (h : Host) (cfg : GitOpsConfig)
    (validateRemoteName : string → option string) (cwd : string) (p : PushParams) :
  (∀ s, startsWith s "-" = true → truthy (validateRemoteName s) = true) →
  confines
    (fun e => git_call ["rev-parse"; "symbolic-ref"; "push"] e ∧
              flags_only ["--is-inside-work-tree"; "--short"; "--force-with-lease";
                          "-u"; "--dry-run"] e)
    (git_push h cfg validateRemoteName cwd p).
Proof.
  intros Hdash. unfold git_push. cbv zeta. confine_tool; try literal_call.
  - unfold pushBranch. confine_tool; literal_call.
  - split; [apply git_call_intro; reflexivity|].
    apply flags_only_intro. intros arg.
    now apply (pushArgs_dash validateRemoteName).
Qed.

Lemma git_push_calls_witness :
  confines
    (fun e => git_call ["rev-parse"; "symbolic-ref"; "push"] e ∧
              flags_only ["--is-inside-work-tree"; "--short"; "--force-with-lease";
                          "-u"; "--dry-run"] e)
    (git_push (repoHost "dev") DEFAULTS Spec.validateRemoteName "/repo"
       {| pu_remote := None; pu_branch := None; pu_force := false;
          pu_setUpstream := true; pu_dryRun := false |}).
Proof.
  apply (git_push_calls (repoHost "dev") DEFAULTS Spec.validateRemoteName "/repo"
           {| pu_remote := None; pu_branch := None; pu_force := false;
              pu_setUpstream := true; pu_dryRun := false |}).
  intros s Hs. unfold Spec.validateRemoteName. now rewrite Hs.
Defined.

(** ** Answers *)

Lemma answers_ret {A} (Q : A → Prop) (a : A) : Q a → answers Q (ret a).
Proof. intros H w. exact H. Qed.

Lemma answers_bind {A B} (R : A → Prop) (Q : B → Prop) (m : M A) (k : A → M B) :
  answers R m → (∀ a, R a → answers Q (k a)) → answers Q (bind m k).
Proof.
  intros Hm Hk w. unfold bind. specialize (Hm w).
  destruct (m w) as [[a|e] w1]; cbn [fst] in *; [|exact I].
  now apply Hk.
Qed.

Lemma answers_any {A} (m : M A) : answers (fun _ => True) m.
Proof. intros w. now destruct (m w).1. Qed.

Lemma answers_repoGuard (h : Host) (cwd : string) :
  answers (fun g => g = None ∨ ∃ e, g = Some (err e)) (repoGuard h cwd).
Proof. intros w. destruct (repoGuard_run h cwd w) as (g & -> & Hg). exact Hg. Qed.

(** Walks through a tool; what is left are the conditions on the values it
    returns. *)
Ltac answer_tool :=
  repeat match goal with
         | |- answers _ (ret _) => apply answers_ret
         | |- answers _ (bind (repoGuard _ _) _) =>
             apply (answers_bind _ _ _ _ (answers_repoGuard _ _));
             intros ? [->|[? ->]]
         | |- answers _ (bind _ _) =>
             apply (answers_bind _ _ _ _ (answers_any _)); intros ? _
         | |- answers _ (match ?x with _ => _ end) => destruct x eqn:?
         end.

Lemma truncateOutput_at_most (text label : string) (n : Z) :
  0 <= n → LF ∉ chars label → line_count text <= n ∨
  line_count (truncateOutput text n label) = n + 2.
Proof.
  intros Hn Hlabel. destruct (Z.le_gt_cases (line_count text) n) as [Hle|Hgt].
  - now left.
  - right. apply truncateOutput_line_count; [lia | exact Hlabel].
Qed.

Lemma truncated_within (s label : string) (n : Z) :
  0 <= n → LF ∉ chars label →
  error_or_within (n + 2) (text (truncateOutput s n label)).
Proof.
  intros Hn Hlabel. right. eexists. split; [reflexivity|].
  destruct (truncateOutput_at_most s label n Hn Hlabel) as [H|H]; [|lia].
  rewrite truncateOutput_short by exact H. lia.
Qed.

Lemma label_no_LF (label : string) :
  forallb (fun c => negb (Ascii.eqb c LF)) (list_ascii_of_string label) = true →
  LF ∉ chars label.
Proof.
  intros H Hin. rewrite forallb_forall in H.
  apply list_elem_of_In, H in Hin. now rewrite Ascii.eqb_refl in Hin.
Qed.

Lemma pathError_err (paths : option (list string)) (e : ToolResult) :
  pathError paths = Some e → ∃ reason, e = err reason.
Proof.
  unfold pathError. destruct paths as [[|q qs]|]; try discriminate.
  destruct (first_bad_path (q :: qs)) as [[bad v]|]; [|discriminate].
  intros [= <-]. eauto.
Qed.

Lemma diffError_err (p : DiffParams) (e : ToolResult) :
  diffError p = Some e → ∃ reason, e = err reason.
Proof.
  unfold diffError.
  destruct (checked validateRef (df_ref1 p)); [intros [= <-]; eauto|].
  destruct (checked validateRef (df_ref2 p)); [intros [= <-]; eauto|].
  apply pathError_err.
Qed.

Lemma logError_err (validateLogFilter : string → string → option string)
    (p : LogParams) (e : ToolResult) :
  logError validateLogFilter p = Some e → ∃ reason, e = err reason.
Proof.
  unfold logError.
  repeat (destruct (checked _ _); [intros [= <-]; eauto|]).
  apply pathError_err.
Qed.

(** X17.  The answers of the tools that show what git printed are
    bounded: an answer of [git_diff], [git_blame] or [git_stash] with the
    action [show] is an error or a text of at most 502 lines, and an answer
    of [git_log] an error or a text of at most 202 lines. *)
Theorem shown_output_bounded (h : Host)
    (validateLogFilter : string → string → option string) (cwd : string) :
  (∀ p, answers (error_or_within 502) (git_diff h cwd p)) ∧
  (∀ p, answers (error_or_within 202) (git_log h validateLogFilter cwd p)) ∧
  (∀ p, answers (error_or_within 502) (git_blame h cwd p)) ∧
  (∀ p, st_action p = Some "show" → answers (error_or_within 502) (git_stash h cwd p)).
Proof.
  assert (∀ reason, error_or_within 502 (err reason)) as Herr5 by (left; eauto).
  assert (∀ reason, error_or_within 202 (err reason)) as Herr2 by (left; eauto).
  repeat split; intros p.
  - unfold git_diff. cbv zeta. answer_tool; auto.
    + match goal with H : diffError _ = Some _ |- _ =>
        apply diffError_err in H as [reason ->] end. auto.
    + right. eexists. split; [reflexivity|]. vm_compute. discriminate.
    + apply (truncated_within _ "diff" 500); [lia|]. now apply label_no_LF.
  - unfold git_log. answer_tool; auto.
    + match goal with H : logError _ _ = Some _ |- _ =>
        apply logError_err in H as [reason ->] end. auto.
    + right. eexists. split; [reflexivity|]. vm_compute. discriminate.
    + right. eexists. split; [reflexivity|]. vm_compute. discriminate.
    + apply (truncated_within _ "log" 200); [lia|]. now apply label_no_LF.
  - unfold git_blame. cbv zeta. answer_tool; auto.
    apply (truncated_within _ "blame" 500); [lia|]. now apply label_no_LF.
  - intros Hshow. unfold git_stash. rewrite Hshow. cbv zeta.
    answer_tool; auto;
      try match goal with
          | H : String.eqb _ _ = _ |- _ => now vm_compute in H
          end.
    apply (truncated_within _ "stash diff" 500); [lia|]. now apply label_no_LF.
Qed.

(** ** Refusals *)

Lemma only_probes_guard_ret {A} (h : Host) (cwd : string) (w : World)
    (k : option ToolResult → M A) :
  (∀ g w1, repoGuard h cwd w = (Val g, w1) → only_probes w1 (k g w1).2) →
  only_probes w (bind (repoGuard h cwd) k w).2.
Proof.
  intros Hk. unfold bind. pose proof (repoGuard_probes h cwd w) as Hg.
  destruct (repoGuard_run h cwd w) as (g & Hrun & _). rewrite Hrun in Hg |- *.
  eapply only_probes_trans; [exact Hg | now apply Hk].
Qed.

(** X18.  For every action of [git_branch] other than [list], also one the
    tool does not know, a missing name or one [validateBranchName] refuses
    ends the tool with an error before any command but the repository
    check has run. *)
Theorem git_branch_needs_name (h : Host) (cfg : GitOpsConfig) (cwd : string)
    (p : BranchParams) (w : World) :
  default "list" (br_action p) ≠ "list" →
  validateBranchName (default "" (br_name p)) ≠ None →
  denied (git_branch h cfg cwd p w).1 ∧ only_probes w (git_branch h cfg cwd p w).2.
Proof.
  intros Haction Hname. unfold git_branch.
  apply String.eqb_neq in Haction.
  split.
  - unfold bind. destruct (repoGuard_run h cwd w) as (g & -> & [->|[e ->]]);
      [|apply denied_err].
    cbv zeta. rewrite Haction.
    destruct (negb (truthy (br_name p))); [apply denied_err|].
    rewrite rejected_validateBranchName.
    destruct (validateBranchName (default "" (br_name p))); [apply denied_err|].
    contradiction.
  - apply only_probes_guard_ret. intros g w1 _.
    destruct g; [apply only_probes_refl|].
    cbv zeta. rewrite Haction.
    destruct (negb (truthy (br_name p))); [apply only_probes_refl|].
    rewrite rejected_validateBranchName.
    destruct (validateBranchName (default "" (br_name p))); [apply only_probes_refl|].
    contradiction.
Qed.

Lemma git_branch_needs_name_witness :
  denied (git_branch (repoHost "dev") DEFAULTS "/repo"
            {| br_action := Some "rename"; br_name := Some "a..b";
               br_startPoint := None; br_all := false |} emptyWorld).1 ∧
  only_probes emptyWorld
    (git_branch (repoHost "dev") DEFAULTS "/repo"
       {| br_action := Some "rename"; br_name := Some "a..b";
          br_startPoint := None; br_all := false |} emptyWorld).2.
Proof.
  apply (git_branch_needs_name (repoHost "dev") DEFAULTS "/repo"
           {| br_action := Some "rename"; br_name := Some "a..b";
              br_startPoint := None; br_all := false |} emptyWorld).
  - apply String.eqb_neq. vm_compute. reflexivity.
  - vm_compute. discriminate.
Defined.

Lemma first_bad_path_Some (paths : list string) (q : string) :
  q ∈ paths → validateFilePath q ≠ None →
  ∃ bad v, first_bad_path paths = Some (bad, v) ∧ bad ∈ paths ∧
           validateFilePath bad = Some v.
Proof.
  induction paths as [|x paths IH]; [intros H; now apply elem_of_nil in H|].
  intros Hq Hbad. cbn [first_bad_path]. rewrite rejected_validateFilePath.
  destruct (validateFilePath x) as [v|] eqn:E.
  - exists x, v. repeat split; [left | exact E].
  - apply elem_of_cons in Hq as [->|Hq]; [contradiction|].
    destruct (IH Hq Hbad) as (bad & v & H1 & H2 & H3).
    exists bad, v. repeat split; [exact H1 | now right | exact H3].
Qed.

Lemma checked_refused (validate : string → option string) (x : option string)
    (r : string) :
  x = Some r → r ≠ "" → rejected (validate r) = validate r → validate r ≠ None →
  ∃ v, checked validate x = Some v.
Proof.
  intros -> Hr Hrej Hv. unfold checked. rewrite truthy_Some by exact Hr.
  change (default "" (Some r)) with r.
  rewrite Hrej. destruct (validate r); [eauto | contradiction].
Qed.

(** X19.  A ref of the caller that [validateRef] refuses, or a path among
    the caller's paths that [validateFilePath] refuses, wherever it stands
    in the list, ends [git_diff] with an error before [git diff] runs:
    nothing but the repository check has been executed. *)
Theorem git_diff_refuses (h : Host) (cwd : string) (p : DiffParams) (w : World) :
  (∃ r, (df_ref1 p = Some r ∨ df_ref2 p = Some r) ∧ r ≠ "" ∧ validateRef r ≠ None) ∨
  (∃ paths q, df_paths p = Some paths ∧ q ∈ paths ∧ validateFilePath q ≠ None) →
  denied (git_diff h cwd p w).1 ∧ only_probes w (git_diff h cwd p w).2.
Proof.
  intros Hbad.
  assert (∃ reason, diffError p = Some (err reason)) as [reason Herr].
  { unfold diffError.
    destruct (checked validateRef (df_ref1 p)) as [v1|] eqn:E1; [eauto|].
    destruct (checked validateRef (df_ref2 p)) as [v2|] eqn:E2; [eauto|].
    destruct Hbad as [(r & [Hr|Hr] & Hne & Hv) | (paths & q & Hp & Hq & Hv)].
    - destruct (checked_refused validateRef _ r Hr Hne (rejected_validateRef r) Hv).
      congruence.
    - destruct (checked_refused validateRef _ r Hr Hne (rejected_validateRef r) Hv).
      congruence.
    - unfold pathError. rewrite Hp.
      destruct (first_bad_path_Some paths q Hq Hv) as (bad & v & Hfirst & _).
      destruct paths as [|x xs]; [now apply elem_of_nil in Hq|].
      rewrite Hfirst. eauto. }
  unfold git_diff. rewrite Herr. split.
  - unfold bind. destruct (repoGuard_run h cwd w) as (g & -> & [->|[e ->]]);
      apply denied_err.
  - apply only_probes_guard_ret. intros g w1 _. destruct g; apply only_probes_refl.
Qed.

Lemma git_diff_refuses_witness :
  denied (git_diff (repoHost "dev") "/repo"
            {| df_staged := false; df_ref1 := None; df_ref2 := None;
               df_paths := Some ["src/a.ts"; "--output=/etc/passwd"];
               df_nameOnly := false |} emptyWorld).1 ∧
  only_probes emptyWorld
    (git_diff (repoHost "dev") "/repo"
       {| df_staged := false; df_ref1 := None; df_ref2 := None;
          df_paths := Some ["src/a.ts"; "--output=/etc/passwd"];
          df_nameOnly := false |} emptyWorld).2.
Proof.
  apply (git_diff_refuses (repoHost "dev") "/repo"
           {| df_staged := false; df_ref1 := None; df_ref2 := None;
              df_paths := Some ["src/a.ts"; "--output=/etc/passwd"];
              df_nameOnly := false |} emptyWorld).
  right. exists ["src/a.ts"; "--output=/etc/passwd"], "--output=/etc/passwd".
  split; [reflexivity|]. split; [right; left|]. vm_compute. discriminate.
Defined.

Lemma first_bad_path_first (paths : list string) (q : string) :
  q ∈ paths → validateFilePath q ≠ None →
  ∃ before bad after v,
    paths = (before ++ bad :: after)%list ∧
    Forall (fun f => validateFilePath f = None) before ∧
    validateFilePath bad = Some v ∧
    first_bad_path paths = Some (bad, v).
Proof.
  induction paths as [|x paths IH]; [intros H; now apply elem_of_nil in H|].
  intros Hq Hbad. cbn [first_bad_path]. rewrite rejected_validateFilePath.
  destruct (validateFilePath x) as [v|] eqn:E.
  - exists [], x, paths, v. repeat split; [constructor | exact E].
  - apply elem_of_cons in Hq as [->|Hq]; [contradiction|].
    destruct (IH Hq Hbad) as (before & bad & after & v & -> & Hall & Hv & Hfirst).
    exists (x :: before), bad, after, v.
    repeat split; [now constructor | exact Hv | exact Hfirst].
Qed.

(** X20.  When one of the files to stage is refused by [validateFilePath],
    [git_commit] past its branch gate answers with the error that names the
    first refused file, the one before which every file is accepted, and
    has done nothing: no file is staged, none of the other files either,
    and no payload file is written. *)
Theorem commit_refuses_bad_path (h : Host) (cfg : GitOpsConfig) (cwd : string)
    (p : CommitParams) (w : World) (files : list string) (q : string) :
  ci_files p = Some files → q ∈ files → validateFilePath q ≠ None →
  ∃ bad v,
    stage_and_commit h cfg cwd p w =
    (Val (err ("invalid path '" +:+ bad +:+ "': " +:+ v)), w) ∧
    bad ∈ files ∧ validateFilePath bad = Some v ∧
    ∃ before after,
      files = (before ++ bad :: after)%list ∧
      Forall (fun f => validateFilePath f = None) before.
Proof.
  intros Hfiles Hq Hbad.
  destruct (first_bad_path_first files q Hq Hbad)
    as (before & bad & after & v & Hsplit & Hall & Hv & Hfirst).
  exists bad, v. split; [|split; [|split; [exact Hv|]]].
  - unfold stage_and_commit, bind. rewrite Hfiles.
    destruct files as [|f fs]; [now apply elem_of_nil in Hq|].
    now rewrite Hfirst.
  - rewrite Hsplit. apply elem_of_app. right. left.
  - now exists before, after.
Qed.

Lemma commit_refuses_bad_path_witness :
  ∃ bad v,
    stage_and_commit (repoHost "dev") DEFAULTS "/repo"
      {| ci_message := "wip"; ci_files := Some ["a.txt"; "-rf"; "b.txt"];
         ci_all := false |} emptyWorld =
    (Val (err ("invalid path '" +:+ bad +:+ "': " +:+ v)), emptyWorld) ∧
    bad ∈ ["a.txt"; "-rf"; "b.txt"] ∧ validateFilePath bad = Some v ∧
    ∃ before after,
      ["a.txt"; "-rf"; "b.txt"] = (before ++ bad :: after)%list ∧
      Forall (fun f => validateFilePath f = None) before.
Proof.
  apply (commit_refuses_bad_path (repoHost "dev") DEFAULTS "/repo"
           {| ci_message := "wip"; ci_files := Some ["a.txt"; "-rf"; "b.txt"];
              ci_all := false |} emptyWorld ["a.txt"; "-rf"; "b.txt"] "-rf").
  - reflexivity.
  - right. left.
  - vm_compute. discriminate.
Defined.

(** X21.  [git_stash] calls git only with [rev-parse] and [stash] and
    changes no file itself.  The only argument of the caller that can begin
    with a dash is the stash message, which stands behind [-m] as its
    value; the stash reference never does. *)
Theorem git_stash_calls (h : Host) (cwd : string) (p : StashParams) :
  confines
    (fun e => git_call ["rev-parse"; "stash"] e ∧
              dash_args ["--is-inside-work-tree"; "-m"; "-p"]
                (fun a => st_message p = Some a) e)
    (git_stash h cwd p).
Proof.
  unfold git_stash. cbv zeta. confine_tool;
    try (split; [apply git_call_intro; reflexivity|];
         intros arg Harg Hdash; cbn [argv gitSpawn] in Harg).
  - each_arg Harg; try discriminate Hdash. left. listed.
  - each_arg Harg; discriminate Hdash.
  - destruct (truthy (st_message p)) eqn:Em; cbn [app] in Harg; each_arg Harg;
      try discriminate Hdash.
    + left. listed.
    + right. now destruct (st_message p).
  - each_arg Harg; discriminate Hdash.
  - each_arg Harg; discriminate Hdash.
  - each_arg Harg; try discriminate Hdash. left. listed.
Qed.

(** ** The pull-request tool *)

Lemma confines_spawn (P : Effect → Prop) (h : Host) (s : Spawn) :
  P (Exec s) → confines P (spawn h s).
Proof.
  intros HP w. unfold spawn. destruct (execFile h w s); now apply confined_logged.
Qed.

Lemma first_bad_label_Some (validateLabel : string → option string)
    (labels : list string) (l : string) :
  l ∈ labels → truthy (validateLabel l) = true →
  ∃ lv, first_bad_label validateLabel labels = Some lv.
Proof.
  induction labels as [|x labels IH]; [intros H; now apply elem_of_nil in H|].
  intros Hl Hbad. cbn [first_bad_label].
  destruct (rejected (validateLabel x)) as [lv|] eqn:E; [eauto|].
  apply elem_of_cons in Hl as [->|Hl]; [|auto].
  apply rejected_None_truthy in E. congruence.
Qed.

(** X22.  A title that begins with a dash, or a label [validateLabel]
    refuses, wherever it stands among the labels, ends [git_pr] with an
    error before the body file exists: the tool has made the repository
    check and asked for the version of [gh], written no file and run no
    [gh pr create]. *)
Theorem git_pr_refused_early (h : Host) (validateLabel : string → option string)
    (cwd : string) (p : PrParams) :
  startsWith (pr_title p) "-" = true ∨
  (∃ labels l, pr_labels p = Some labels ∧ l ∈ labels ∧
               truthy (validateLabel l) = true) →
  confines
    (fun e => e = gitExec ["rev-parse"; "--is-inside-work-tree"] cwd ∨ e = ghVersion)
    (git_pr h validateLabel cwd p) ∧
  answers (fun t => ∃ reason, t = err reason) (git_pr h validateLabel cwd p).
Proof.
  intros Hbad.
  assert (startsWith (pr_title p) "-" = true ∨
          ∃ lv, match pr_labels p with
                | Some (l :: ls) => first_bad_label validateLabel (l :: ls)
                | _ => None
                end = Some lv) as Hstop.
  { destruct Hbad as [Ht|(labels & l & Hp & Hl & Hv)]; [now left|]. right.
    rewrite Hp. destruct labels as [|x xs]; [now apply elem_of_nil in Hl|].
    now apply (first_bad_label_Some validateLabel (x :: xs) l). }
  clear Hbad. unfold git_pr. cbv zeta. split.
  - apply confines_bind; [apply confines_repoGuard; now left|].
    intros [e|]; [apply confines_ret|].
    apply confines_bind.
    { apply confines_bind; [apply confines_spawn; now right|].
      intros c. apply confines_ret. }
    intros ghCheck. destruct (negb ghCheck); [apply confines_ret|].
    destruct (startsWith (pr_title p) "-"); [apply confines_ret|].
    destruct Hstop as [[=]|[lv ->]]. apply confines_ret.
  - apply (answers_bind _ _ _ _ (answers_repoGuard _ _)).
    intros g [->|[e ->]]; [|apply answers_ret; eauto].
    apply (answers_bind _ _ _ _ (answers_any _)). intros ghCheck _.
    destruct (negb ghCheck); [apply answers_ret; eauto|].
    destruct (startsWith (pr_title p) "-"); [apply answers_ret; eauto|].
    destruct Hstop as [[=]|[lv ->]]. apply answers_ret. eauto.
Qed.

Lemma git_pr_refused_early_witness :
  confines
    (fun e => e = gitExec ["rev-parse"; "--is-inside-work-tree"] "/repo" ∨ e = ghVersion)
    (git_pr (repoHost "dev") Spec.validateLabel "/repo"
       {| pr_title := "Add login"; pr_body := Some "text"; pr_base := None;
          pr_draft := false; pr_labels := Some ["bug"; "--repo=evil/x"] |}) ∧
  answers (fun t => ∃ reason, t = err reason)
    (git_pr (repoHost "dev") Spec.validateLabel "/repo"
       {| pr_title := "Add login"; pr_body := Some "text"; pr_base := None;
          pr_draft := false; pr_labels := Some ["bug"; "--repo=evil/x"] |}).
Proof.
  apply (git_pr_refused_early (repoHost "dev") Spec.validateLabel "/repo"
           {| pr_title := "Add login"; pr_body := Some "text"; pr_base := None;
              pr_draft := false; pr_labels := Some ["bug"; "--repo=evil/x"] |}).
  right. exists ["bug"; "--repo=evil/x"], "--repo=evil/x".
  split; [reflexivity|]. split; [right; left|]. vm_compute. reflexivity.
Defined.

(** X23.  Once [git_pr] has the name of its body file, and the file can
    be written: with a base the check lets through, the body goes into the
    file, [gh pr create] is given the file by [--body-file] and never the
    body, and the file is unlinked; with a base [validateRef] refuses, the
    answer is that error, [gh pr create] is not run, and the file, which
    was written before the check, is unlinked all the same.  Where
    [unlinkSync] throws, the removal is missing from the effects and
    nothing else changes. *)
Theorem pr_body_by_file (h : Host) (cwd bodyFile body : string) (p : PrParams)
    (w : World) :
  writeFile h w bodyFile body = WriteDone →
  (checked validateRef (pr_base p) = None →
   ran w (pr_with_file h cwd bodyFile body p w).2
     ([WroteFile bodyFile body;
       Exec {| prog := "gh"; argv := prArgs bodyFile p; opt_cwd := Some cwd;
               opt_timeout := 30000; opt_maxBuffer := None |}] ++
      unlinked h
        (logged
           (Exec {| prog := "gh"; argv := prArgs bodyFile p; opt_cwd := Some cwd;
                    opt_timeout := 30000; opt_maxBuffer := None |})
           (wrote bodyFile body w))
        bodyFile)) ∧
  (∀ v, checked validateRef (pr_base p) = Some v →
        (pr_with_file h cwd bodyFile body p w).1 = Val (err v) ∧
        ran w (pr_with_file h cwd bodyFile body p w).2
          ([WroteFile bodyFile body] ++ unlinked h (wrote bodyFile body w) bodyFile)).
Proof.
  intros Hwrite. unfold checked.
  unfold pr_with_file, try_finally, try_catch, bind, writeFileSync, unlinkSync,
    unlinked, wrote, ran.
  rewrite Hwrite. split.
  - intros ->. fold (prArgs bodyFile p). unfold spawn, logged.
    cbn [fst snd files log].
    destruct (execFile h _ _) as [c|e];
      [destruct (negb (exitCode (resultOf c) =? 0))|];
      unfold ret; cbn [fst snd files log];
      rewrite lookup_insert_eq;
      destruct (unlink h _ _); cbn [fst snd files log];
      now rewrite <- ?app_assoc, ?app_nil_r.
  - intros v ->. unfold ret, logged. cbn [fst snd files log].
    rewrite lookup_insert_eq.
    destruct (unlink h _ _); cbn [fst snd files log];
      (split; [reflexivity|]); now rewrite <- ?app_assoc, ?app_nil_r.
Qed.

Lemma pr_body_by_file_witness :
  ran emptyWorld
    (pr_with_file (repoHost "dev") "/repo" "/tmp/body.md" "Fixes the login"
       {| pr_title := "Add login"; pr_body := Some "Fixes the login";
          pr_base := Some "main"; pr_draft := true; pr_labels := Some ["bug"; "ui"] |}
       emptyWorld).2
    [WroteFile "/tmp/body.md" "Fixes the login";
     Exec {| prog := "gh";
             argv := ["pr"; "create"; "--title"; "Add login"; "--body-file";
                      "/tmp/body.md"; "--base"; "main"; "--draft"; "--label"; "bug,ui"];
             opt_cwd := Some "/repo"; opt_timeout := 30000; opt_maxBuffer := None |};
     Unlinked "/tmp/body.md"].
Proof.
  pose proof (pr_body_by_file (repoHost "dev") "/repo" "/tmp/body.md" "Fixes the login"
                {| pr_title := "Add login"; pr_body := Some "Fixes the login";
                   pr_base := Some "main"; pr_draft := true;
                   pr_labels := Some ["bug"; "ui"] |}
                emptyWorld eq_refl) as [Hrun _].
  apply Hrun. vm_compute. reflexivity.
Defined.

(** ** Pushing from a detached HEAD *)

Lemma pushBranchError_detached (b : string) :
  startsWith b "(detached" = true → pushBranchError (Some b) = None.
Proof.
  intros H. unfold pushBranchError. cbn [default from_option id].
  rewrite H. cbn [negb]. destruct (truthy (Some b)); [|reflexivity].
  now destruct (rejected _).
Qed.

(** X24.  When no branch is given and HEAD is detached, so that
    [getCurrentBranch] answers with a description that begins with
    [(detached], [git_push] neither refuses the description as a branch
    name nor passes it on: past the force gates it runs [git push] with the
    remote as its last argument and no refspec. *)
Theorem git_push_detached (h : Host) (cfg : GitOpsConfig)
    (validateRemoteName : string → option string) (cwd : string)
    (p : PushParams) (w w1 w2 : World) (b : string) :
  pu_branch p = None →
  repoGuard h cwd w = (Val None, w1) →
  rejected (validateRemoteName (default (defaultRemote cfg) (pu_remote p))) = None →
  getCurrentBranch h cwd w1 = (Val (Some b), w2) →
  startsWith b "(detached" = true →
  (if pu_force p then forcePushDenied cfg (Some b) else None) = None →
  ran w2 (git_push h cfg validateRemoteName cwd p w).2
    [gitExec (["push"] ++
              (if pu_force p then ["--force-with-lease"] else []) ++
              (if pu_setUpstream p then ["-u"] else []) ++
              (if pu_dryRun p then ["--dry-run"] else []) ++
              [default (defaultRemote cfg) (pu_remote p)]) cwd].
Proof.
  intros Hnone Hguard Hremote Hbranch Hdet Hforce.
  rewrite (git_push_at_gates h cfg validateRemoteName cwd p w w2 (Some b)).
  2:{ exists w1. repeat split; try assumption.
      - unfold pushBranch. now rewrite Hnone.
      - now apply pushBranchError_detached. }
  rewrite Hforce.
  assert (pushArgs (default (defaultRemote cfg) (pu_remote p)) (Some b) p =
          (["push"] ++
           (if pu_force p then ["--force-with-lease"] else []) ++
           (if pu_setUpstream p then ["-u"] else []) ++
           (if pu_dryRun p then ["--dry-run"] else []) ++
           [default (defaultRemote cfg) (pu_remote p)])%list) as <-.
  { unfold pushArgs. cbn [default from_option id]. rewrite Hdet.
    rewrite andb_false_r. now rewrite app_nil_r. }
  unfold bind. rewrite git_run by apply allowed_head_pushArgs.
  destruct (execFile h w2 _) as [c|e]; [|apply ran_logged].
  destruct (negb (exitCode (resultOf c) =? 0)); apply ran_logged.
Qed.

Lemma git_push_detached_witness :
  ran (logged (gitExec ["rev-parse"; "--short"; "HEAD"] "/repo")
         (logged (gitExec ["symbolic-ref"; "--short"; "HEAD"] "/repo")
            (logged (gitExec ["rev-parse"; "--is-inside-work-tree"] "/repo")
               emptyWorld)))
    (git_push detachedHost DEFAULTS Spec.validateRemoteName "/repo"
       {| pu_remote := None; pu_branch := None; pu_force := false;
          pu_setUpstream := false; pu_dryRun := true |} emptyWorld).2
    [gitExec ["push"; "--dry-run"; "origin"] "/repo"].
Proof.
  apply (git_push_detached detachedHost DEFAULTS Spec.validateRemoteName "/repo"
           {| pu_remote := None; pu_branch := None; pu_force := false;
              pu_setUpstream := false; pu_dryRun := true |}
           emptyWorld
           (logged (gitExec ["rev-parse"; "--is-inside-work-tree"] "/repo") emptyWorld)
           (logged (gitExec ["rev-parse"; "--short"; "HEAD"] "/repo")
              (logged (gitExec ["symbolic-ref"; "--short"; "HEAD"] "/repo")
                 (logged (gitExec ["rev-parse"; "--is-inside-work-tree"] "/repo")
                    emptyWorld)))
           "(detached at abc1234)"); vm_compute; reflexivity.
Defined.

(** ** The configuration *)

(** X25.  [resolveConfig] falls back to the defaults key by key: a raw
    configuration in which each of the five keys is missing or [null],
    whatever other keys it holds, resolves to [DEFAULTS], as the missing
    configuration does. *)
Theorem resolveConfig_fallback (raw : gmap string JsValue) :
  (∀ key, key ∈ config_keys → raw !! key = None ∨ raw !! key = Some JsNull) →
  resolveConfig (Some raw) = Some DEFAULTS ∧ resolveConfig None = Some DEFAULTS.
Proof.
  intros Hkeys. split; [|reflexivity].
  assert (∀ key, key ∈ config_keys →
                 prop raw key = JsUndefined ∨ prop raw key = JsNull) as Hprop.
  { intros key Hkey. unfold prop. destruct (Hkeys key Hkey) as [-> | ->]; auto. }
  unfold resolveConfig.
  destruct (Hprop "allowForcePush") as [-> | ->]; [listed|..];
    destruct (Hprop "allowMainCommit") as [-> | ->]; try listed;
    destruct (Hprop "defaultRemote") as [-> | ->]; try listed;
    destruct (Hprop "commitPrefix") as [-> | ->]; try listed;
    destruct (Hprop "protectedBranches") as [-> | ->]; try listed;
    reflexivity.
Qed.

Lemma resolveConfig_fallback_witness :
  resolveConfig (Some (<["path" := JsString "/opt/git-operations"]>
                         (<["allowForcePush" := JsNull]> ∅))) = Some DEFAULTS ∧
  resolveConfig None = Some DEFAULTS.
Proof.
  apply (resolveConfig_fallback
           (<["path" := JsString "/opt/git-operations"]>
              (<["allowForcePush" := JsNull]> ∅))).
  intros key Hkey. unfold config_keys in Hkey.
  repeat (apply elem_of_cons in Hkey as [->|Hkey]; [vm_compute; auto|]).
  now apply elem_of_nil in Hkey.
Defined.

(** ** Outside a repository *)

Lemma repoGuard_outside (h : Host) (cwd : string) (w : World) (c : Callback) :
  execFile h w (gitSpawn ["rev-parse"; "--is-inside-work-tree"] cwd) = Called c →
  exitCodeOf c ≠ 0 ∨ trim (default "" (cb_stdout c)) ≠ "true" →
  repoGuard h cwd w =
  (Val (Some (err "not a git repository (or any parent up to mount point)")),
   logged (gitExec ["rev-parse"; "--is-inside-work-tree"] cwd) w).
Proof.
  intros Hexec Hout.
  unfold repoGuard, try_catch, requireRepo, isGitRepo, bind.
  rewrite git_run by (vm_compute; reflexivity). rewrite Hexec.
  assert ((exitCode (resultOf c) =? 0) &&
          String.eqb (trim (stdout (resultOf c))) "true" = false) as ->.
  { apply andb_false_iff. destruct Hout as [H|H].
    - left. now apply Z.eqb_neq.
    - right. now apply String.eqb_neq. }
  reflexivity.
Qed.

Lemma isGitRepo_outside (h : Host) (cwd : string) (w : World) (c : Callback) :
  execFile h w (gitSpawn ["rev-parse"; "--is-inside-work-tree"] cwd) = Called c →
  exitCodeOf c ≠ 0 ∨ trim (default "" (cb_stdout c)) ≠ "true" →
  isGitRepo h cwd w =
  (Val false, logged (gitExec ["rev-parse"; "--is-inside-work-tree"] cwd) w).
Proof.
  intros Hexec Hout. unfold isGitRepo, bind.
  rewrite git_run by (vm_compute; reflexivity). rewrite Hexec.
  assert ((exitCode (resultOf c) =? 0) &&
          String.eqb (trim (stdout (resultOf c))) "true" = false) as ->.
  { apply andb_false_iff. destruct Hout as [H|H].
    - left. now apply Z.eqb_neq.
    - right. now apply String.eqb_neq. }
  reflexivity.
Qed.

(** X26.  Where [git rev-parse --is-inside-work-tree] exits with a code
    other than 0, or prints anything but [true], every one of the ten tools
    answers [error: not a git repository (or any parent up to mount point)]
    whatever its parameters, and the slash command and the CLI actions say
    [not a git repo]; that query is the only thing any of them has done. *)
Theorem outside_repository (h : Host) (cwd : string) (w : World) (c : Callback) :
  execFile h w (gitSpawn ["rev-parse"; "--is-inside-work-tree"] cwd) = Called c →
  exitCodeOf c ≠ 0 ∨ trim (default "" (cb_stdout c)) ≠ "true" →
  (∀ p, git_status h cwd p w = not_a_repository cwd w) ∧
  (∀ p, git_diff h cwd p w = not_a_repository cwd w) ∧
  (∀ validateLogFilter p,
     git_log h validateLogFilter cwd p w = not_a_repository cwd w) ∧
  (∀ cfg p, git_branch h cfg cwd p w = not_a_repository cwd w) ∧
  (∀ cfg p, git_commit h cfg cwd p w = not_a_repository cwd w) ∧
  (∀ cfg validateRemoteName p,
     git_push h cfg validateRemoteName cwd p w = not_a_repository cwd w) ∧
  (∀ validateRemoteName p,
     git_pull h validateRemoteName cwd p w = not_a_repository cwd w) ∧
  (∀ p, git_stash h cwd p w = not_a_repository cwd w) ∧
  (∀ p, git_blame h cwd p w = not_a_repository cwd w) ∧
  (∀ validateLabel p, git_pr h validateLabel cwd p w = not_a_repository cwd w) ∧
  git_command h cwd w = (Val "not a git repo", (not_a_repository cwd w).2) ∧
  cli_status h cwd w = (Val ["not a git repo"], (not_a_repository cwd w).2) ∧
  (∀ opt, cli_log h cwd opt w = (Val ["not a git repo"], (not_a_repository cwd w).2)).
Proof.
  intros Hexec Hout. unfold not_a_repository. cbn [snd].
  pose proof (repoGuard_outside h cwd w c Hexec Hout) as Hguard.
  pose proof (isGitRepo_outside h cwd w c Hexec Hout) as Hrepo.
  repeat split; intros;
    unfold git_status, git_diff, git_log, git_branch, git_commit, git_push,
      git_pull, git_stash, git_blame, git_pr, git_command, cli_status, cli_log,
      bind;
    rewrite ?Hguard, ?Hrepo; reflexivity.
Qed.

Lemma outside_repository_witness :
  (∀ p, git_status outsideHost "/home/u" p emptyWorld =
        not_a_repository "/home/u" emptyWorld) ∧
  (∀ p, git_diff outsideHost "/home/u" p emptyWorld =
        not_a_repository "/home/u" emptyWorld) ∧
  (∀ validateLogFilter p,
     git_log outsideHost validateLogFilter "/home/u" p emptyWorld =
     not_a_repository "/home/u" emptyWorld) ∧
  (∀ cfg p, git_branch outsideHost cfg "/home/u" p emptyWorld =
            not_a_repository "/home/u" emptyWorld) ∧
  (∀ cfg p, git_commit outsideHost cfg "/home/u" p emptyWorld =
            not_a_repository "/home/u" emptyWorld) ∧
  (∀ cfg validateRemoteName p,
     git_push outsideHost cfg validateRemoteName "/home/u" p emptyWorld =
     not_a_repository "/home/u" emptyWorld) ∧
  (∀ validateRemoteName p,
     git_pull outsideHost validateRemoteName "/home/u" p emptyWorld =
     not_a_repository "/home/u" emptyWorld) ∧
  (∀ p, git_stash outsideHost "/home/u" p emptyWorld =
        not_a_repository "/home/u" emptyWorld) ∧
  (∀ p, git_blame outsideHost "/home/u" p emptyWorld =
        not_a_repository "/home/u" emptyWorld) ∧
  (∀ validateLabel p,
     git_pr outsideHost validateLabel "/home/u" p emptyWorld =
     not_a_repository "/home/u" emptyWorld) ∧
  git_command outsideHost "/home/u" emptyWorld =
    (Val "not a git repo", (not_a_repository "/home/u" emptyWorld).2) ∧
  cli_status outsideHost "/home/u" emptyWorld =
    (Val ["not a git repo"], (not_a_repository "/home/u" emptyWorld).2) ∧
  (∀ opt, cli_log outsideHost "/home/u" opt emptyWorld =
          (Val ["not a git repo"], (not_a_repository "/home/u" emptyWorld).2)).
Proof.
  apply (outside_repository outsideHost "/home/u" emptyWorld
           {| cb_err := Some {| code := Some 128 |};
              cb_stdout := Some "";
              cb_stderr :=
                Some "fatal: not a git repository (or any of the parent directories): .git" |}).
  - reflexivity.
  - left. vm_compute. discriminate.
Defined.

(** ** The separator before the paths *)

(** A literal is not in a list of literals. *)
Ltac unlisted := refine (proj1 (bool_decide_eq_false _) _); reflexivity.

Lemma pushed_not_separator (validate : string → option string)
    (render : string → string) (x : option string) :
  (∀ v, rejected (validate v) = None → render v ≠ "--") →
  checked validate x = None → "--" ∉ pushed render x.
Proof.
  intros Hrender Hx Hin.
  destruct (pushed_checked validate render x "--" Hx Hin) as (v & _ & Heq & Hv).
  now apply (Hrender v).
Qed.

Lemma ref_not_separator (v : string) : rejected (validateRef v) = None → id v ≠ "--".
Proof. intros H%ref_not_dash Heq. unfold id in Heq. subst v. discriminate H. Qed.

Lemma Number_toString_not_dash (z : Z) : Number_toString z ≠ "-".
Proof.
  unfold Number_toString.
  destruct z as [|q|q]; cbn [Z.to_int NilZero.string_of_int]; [discriminate| |].
  - unfold NilZero.string_of_uint. now destruct (Pos.to_uint q).
  - intros [= H]. unfold NilZero.string_of_uint in H. now destruct (Pos.to_uint q).
Qed.

Lemma option_not_separator (c : ascii) (name v : string) :
  String "-" (String "-" (String c name)) +:+ v ≠ "--".
Proof. rewrite !append_cons. discriminate. Qed.

Lemma pathArgs_separator (paths : list string) :
  paths ≠ [] → pathArgs (Some paths) = "--" :: paths.
Proof. now destruct paths. Qed.

(** X27.  When [git_diff] or [git_log] runs git with paths of the caller,
    the paths are the last arguments, directly behind a [--], and no
    argument before that [--] is itself [--]: git reads every path as a
    path. *)
Theorem paths_behind_separator
    (validateLogFilter : string → string → option string)
    (paths : list string) :
  paths ≠ [] →
  (∀ p, df_paths p = Some paths → diffError p = None →
        ∃ before, diffArgs p = (before ++ "--" :: paths)%list ∧ "--" ∉ before) ∧
  (∀ p, lg_paths p = Some paths → logError validateLogFilter p = None →
        ∃ before, logArgs p = (before ++ "--" :: paths)%list ∧ "--" ∉ before).
Proof.
  intros Hpaths. split; intros p Hp Herr.
  - unfold diffError in Herr.
    destruct (checked validateRef (df_ref1 p)) eqn:E1; [discriminate|].
    destruct (checked validateRef (df_ref2 p)) eqn:E2; [discriminate|].
    unfold diffArgs. rewrite Hp, pathArgs_separator by exact Hpaths.
    eexists. split; [now rewrite !app_assoc|].
    rewrite !not_elem_of_app. repeat split.
    + unlisted.
    + destruct (df_staged p); unlisted.
    + destruct (df_nameOnly p); unlisted.
    + now apply (pushed_not_separator validateRef id _ ref_not_separator).
    + now apply (pushed_not_separator validateRef id _ ref_not_separator).
  - unfold logError in Herr.
    destruct (checked validateRef (lg_ref p)) eqn:E1; [discriminate|].
    destruct (checked _ (lg_author p)) eqn:E2; [discriminate|].
    destruct (checked _ (lg_since p)) eqn:E3; [discriminate|].
    destruct (checked _ (lg_grep p)) eqn:E4; [discriminate|].
    unfold logArgs. rewrite Hp, pathArgs_separator by exact Hpaths.
    eexists. split; [now rewrite !app_assoc|].
    rewrite !not_elem_of_app. repeat split.
    + intros H. apply elem_of_cons in H as [[=]|H].
      apply list_elem_of_singleton in H. symmetry in H.
      rewrite append_cons in H. injection H as H.
      now apply Number_toString_not_dash in H.
    + destruct (lg_oneline p); unlisted.
    + now apply (pushed_not_separator validateRef id _ ref_not_separator).
    + apply (pushed_not_separator _ _ _
               (fun v _ => option_not_separator "a" "uthor=" v) E2).
    + apply (pushed_not_separator _ _ _
               (fun v _ => option_not_separator "s" "ince=" v) E3).
    + apply (pushed_not_separator _ _ _
               (fun v _ => option_not_separator "g" "rep=" v) E4).
Qed.

Lemma paths_behind_separator_witness :
  (∀ p, df_paths p = Some ["src/a.ts"; "docs"] → diffError p = None →
        ∃ before, diffArgs p = (before ++ "--" :: ["src/a.ts"; "docs"])%list ∧
                  "--" ∉ before) ∧
  (∀ p, lg_paths p = Some ["src/a.ts"; "docs"] →
        logError Spec.validateLogFilter p = None →
        ∃ before, logArgs p = (before ++ "--" :: ["src/a.ts"; "docs"])%list ∧
                  "--" ∉ before).
Proof.
  apply (paths_behind_separator Spec.validateLogFilter ["src/a.ts"; "docs"]).
  discriminate.
Defined.

(** ** The tools return *)

Lemma returns_ret {A} (a : A) : returns (ret a).
Proof. intros w. now exists a. Qed.

Lemma returns_bind {A B} (m : M A) (k : A → M B) :
  returns m → (∀ a, returns (k a)) → returns (bind m k).
Proof.
  intros Hm Hk w. unfold bind. destruct (Hm w) as [a Ha].
  destruct (m w) as [r w1]. cbn [fst] in Ha. subst r. apply Hk.
Qed.

Lemma returns_try_catch {A} (m : M A) (k : string → M A) :
  (∀ e, returns (k e)) → returns (try_catch m k).
Proof.
  intros Hk w. unfold try_catch. destruct (m w) as [[a|e] w1]; [now exists a|].
  apply Hk.
Qed.

Lemma returns_try_finally {A} (m : M A) (fin : M unit) :
  returns m → returns fin → returns (try_finally m fin).
Proof.
  intros Hm Hfin w. unfold try_finally. destruct (Hm w) as [a Ha].
  destruct (m w) as [r w1]. cbn [fst] in Ha. subst r.
  destruct (Hfin w1) as [u Hu]. destruct (fin w1) as [r w2]. cbn [fst] in Hu.
  subst r. now exists a.
Qed.

Section Total.

Variable h : Host.
Hypothesis calls_back : ∀ w s, ∃ c, execFile h w s = Called c.
Hypothesis writes : ∀ w path content, writeFile h w path content = WriteDone.

Lemma returns_spawn (s : Spawn) : returns (spawn h s).
Proof.
  intros w. unfold spawn. destruct (calls_back w s) as [c ->]. now exists c.
Qed.

Lemma returns_git (args : list string) (cwd : string) : returns (git h args cwd).
Proof.
  unfold git, runGit. destruct (_ || _); [apply returns_ret|].
  apply returns_bind; [apply returns_spawn | intros c; apply returns_ret].
Qed.

Lemma returns_writeFileSync (path content : string) :
  returns (writeFileSync h path content).
Proof. intros w. unfold writeFileSync. rewrite writes. now exists tt. Qed.

Lemma returns_repoGuard (cwd : string) : returns (repoGuard h cwd).
Proof. intros w. destruct (repoGuard_run h cwd w) as (g & -> & _). now exists g. Qed.

Lemma returns_isGitRepo (cwd : string) : returns (isGitRepo h cwd).
Proof.
  unfold isGitRepo. apply returns_bind; [apply returns_git|].
  intros r. apply returns_ret.
Qed.

Lemma returns_getCurrentBranch (cwd : string) : returns (getCurrentBranch h cwd).
Proof.
  unfold getCurrentBranch. apply returns_bind; [apply returns_git|]. intros r.
  destruct (exitCode r =? 0); [apply returns_ret|].
  apply returns_bind; [apply returns_git|]. intros rev.
  destruct (exitCode rev =? 0); apply returns_ret.
Qed.

End Total.

(** Walks through a tool that runs on a host which always calls back and
    writes. *)
Ltac return_tool Hc Hw :=
  repeat match goal with
         | |- returns (ret _) => apply returns_ret
         | |- returns (git _ _ _) => apply (returns_git _ Hc)
         | |- returns (spawn _ _) => apply (returns_spawn _ Hc)
         | |- returns (repoGuard _ _) => apply returns_repoGuard
         | |- returns (isGitRepo _ _) => apply (returns_isGitRepo _ Hc)
         | |- returns (getCurrentBranch _ _) => apply (returns_getCurrentBranch _ Hc)
         | |- returns (writeFileSync _ _ _) => apply (returns_writeFileSync _ Hw)
         | |- returns (newUUID _) => intros ?; eexists; reflexivity
         | |- returns (bind _ _) => apply returns_bind; [|intros ?]
         | |- returns (try_catch _ _) => apply returns_try_catch; intros ?
         | |- returns (try_finally _ _) => apply returns_try_finally
         | |- returns (match ?x with _ => _ end) => destruct x
         end.

(** X28.  On a host whose [execFile] always calls back and whose
    [writeFileSync] succeeds, every tool, the slash command and both CLI
    actions return an answer whatever their parameters: none of them throws
    by itself, and a failing [unlinkSync] is swallowed. *)
Theorem tools_return (h : Host) (cwd : string) :
  (∀ w s, ∃ c, execFile h w s = Called c) →
  (∀ w path content, writeFile h w path content = WriteDone) →
  (∀ p, returns (git_status h cwd p)) ∧
  (∀ p, returns (git_diff h cwd p)) ∧
  (∀ validateLogFilter p, returns (git_log h validateLogFilter cwd p)) ∧
  (∀ cfg p, returns (git_branch h cfg cwd p)) ∧
  (∀ cfg p, returns (git_commit h cfg cwd p)) ∧
  (∀ cfg validateRemoteName p, returns (git_push h cfg validateRemoteName cwd p)) ∧
  (∀ validateRemoteName p, returns (git_pull h validateRemoteName cwd p)) ∧
  (∀ p, returns (git_stash h cwd p)) ∧
  (∀ p, returns (git_blame h cwd p)) ∧
  (∀ validateLabel p, returns (git_pr h validateLabel cwd p)) ∧
  returns (git_command h cwd) ∧
  returns (cli_status h cwd) ∧
  (∀ opt, returns (cli_log h cwd opt)).
Proof.
  intros Hc Hw. repeat split; intros;
    unfold git_status, git_diff, git_log, git_branch, git_commit, git_push,
      git_pull, git_stash, git_blame, git_pr, git_command, cli_status, cli_log,
      stage_and_commit, commit_with_file, pr_with_file, pushBranch;
    cbv zeta; return_tool Hc Hw.
Qed.

Lemma tools_return_witness :
  (∀ p, returns (git_status agreeingHost "/repo" p)) ∧
  (∀ p, returns (git_diff agreeingHost "/repo" p)) ∧
  (∀ validateLogFilter p, returns (git_log agreeingHost validateLogFilter "/repo" p)) ∧
  (∀ cfg p, returns (git_branch agreeingHost cfg "/repo" p)) ∧
  (∀ cfg p, returns (git_commit agreeingHost cfg "/repo" p)) ∧
  (∀ cfg validateRemoteName p,
     returns (git_push agreeingHost cfg validateRemoteName "/repo" p)) ∧
  (∀ validateRemoteName p, returns (git_pull agreeingHost validateRemoteName "/repo" p)) ∧
  (∀ p, returns (git_stash agreeingHost "/repo" p)) ∧
  (∀ p, returns (git_blame agreeingHost "/repo" p)) ∧
  (∀ validateLabel p, returns (git_pr agreeingHost validateLabel "/repo" p)) ∧
  returns (git_command agreeingHost "/repo") ∧
  returns (cli_status agreeingHost "/repo") ∧
  (∀ opt, returns (cli_log agreeingHost "/repo" opt)).
Proof.
  apply (tools_return agreeingHost "/repo").
  - intros w s. eexists. reflexivity.
  - reflexivity.
Defined.
